(** * Verification of the memtier placement policy, the runtime-class
    matcher and the index-set notation of cri-resource-manager.

    Shallow embedding of
    - pkg/cri/resource-manager/policy/builtin/memtier/resources.go
      (supply / request / grant accounting, scoring, pool selection),
    - pkg/cri/resource-manager/runtimes/classes.go (MatchHandler),
    - pkg/platform/idxset (toString / parse, dense and sparse sets). *)

From Stdlib Require Import ZArith QArith List Bool Lia String Ascii Sorted.
From stdpp Require Import base list gmap sets sorting.
Import ListNotations.
Open Scope Z_scope.

(* ------------------------------------------------------------------ *)
(** ** CPU sets (k8s cpuset.CPUSet)

    A CPUSet is kept, as the k8s library presents it through [ToSlice],
    as the strictly increasing list of its CPU ids. *)

Module CPUSet.

Definition t := list Z.

Definition mem (x : Z) (s : t) : bool := existsb (Z.eqb x) s.

Definition size (s : t) : Z := Z.of_nat (length s).

(** [Union]: merge of two increasing lists. *)
Fixpoint union (a b : t) : t :=
  match a with
  | [] => b
  | x :: a' =>
      (fix union_r (b : t) : t :=
         match b with
         | [] => a
         | y :: b' =>
             if x <? y then x :: union a' b
             else if x =? y then x :: union a' b'
             else y :: union_r b'
         end) b
  end.

(** [Intersection] and [Difference] keep the order of the receiver. *)
Definition intersection (a b : t) : t := filter (fun x => mem x b) a.
Definition difference (a b : t) : t := filter (fun x => negb (mem x b)) a.

End CPUSet.

(** Modelled from the spec: [cpuallocator.AllocateCpus] (pkg/cpuallocator,
    not part of the sources here).  The spec leaves its choice of CPUs
    implementation-defined but deterministic; this model takes the [cnt]
    lowest-numbered CPUs of [from], and fails when [from] has fewer.  It
    returns the taken CPUs and what remains in [*from]. *)
Definition AllocateCpus (from : CPUSet.t) (cnt : Z) : option (CPUSet.t * CPUSet.t) :=
  if Z.of_nat (length from) <? cnt then None
  else Some (firstn (Z.to_nat cnt) from, skipn (Z.to_nat cnt) from).

(** [takeCPUs(from, nil, cnt)]: the [to] argument is always [nil] in
    resources.go, so only the taken set and the updated [*from] matter. *)
Definition takeCPUs (from : CPUSet.t) (cnt : Z) : option (CPUSet.t * CPUSet.t) :=
  AllocateCpus from cnt.

(* ------------------------------------------------------------------ *)
(** ** Memory types and unsigned arithmetic *)

(** Modelled from the spec: the [memoryType] bitmask constants (declared
    in the memtier package outside the sources here). *)
Definition memoryUnspec : Z := 0.
Definition memoryDRAM : Z := 1.
Definition memoryPMEM : Z := 2.
Definition memoryHBM : Z := 4.
Definition memoryAll : Z := 7.

(** [uint64] wrap-around. *)
Definition u64 (x : Z) : Z := x mod 2 ^ 64.

(* ------------------------------------------------------------------ *)
(** ** Supply, request, grant (resources.go) *)

Module Memtier.

(** [supply].  [extraMemReservations] is left out: the only writer,
    [SetExtraMemoryReservation], is never called from these sources, so
    the map stays empty and [ReleaseExtraMemoryReservation] is a no-op. *)
Record supply := mkSupply {
  s_node : nat;          (* node supplying CPUs and memory *)
  isolated : CPUSet.t;   (* isolated CPUs at this node *)
  sharable : CPUSet.t;   (* sharable CPUs at this node *)
  granted : Z;           (* amount of shareable allocated (int) *)
  normMem : Z;           (* uint64 *)
  slowMem : Z;           (* uint64 *)
  fastMem : Z;           (* uint64 *)
  grantedMem : Z         (* uint64, total memory granted *)
}.

Record request := mkRequest {
  r_container : Z;
  full : Z;
  fraction : Z;
  isolate : bool;
  memReq : Z;
  memLim : Z;
  r_memType : Z;
  elevate : Z
}.

Record grant := mkGrant {
  g_container : Z;
  g_node : nat;          (* node CPU is supplied from *)
  g_memoryNode : nat;    (* node memory is supplied from *)
  exclusive : CPUSet.t;
  portion : Z;
  g_memType : Z;
  memset : list Z;
  memlimit : Z;
  g_request : request
}.

(** Modelled from the spec: the pool tree (node.go is not part of the
    sources here).  Pools live in an arena indexed by their [NodeID];
    each records its depth ([RootDistance]), its memory type, its children,
    its physical NUMA ids, its memory controllers per memory type
    ([GetMemset]) and its [NodeResources] supply ([GetSupply]). *)
Record pool := mkPool {
  p_depth : Z;
  p_memType : Z;
  p_children : list nat;
  p_physical : list Z;
  p_memsets : list (Z * list Z);
  p_supply : supply
}.

Definition tree := list pool.

Definition default_supply : supply := mkSupply 0 [] [] 0 0 0 0 0.
Definition default_pool : pool := mkPool 0 memoryUnspec [] [] [] default_supply.

Definition pool_at (t : tree) (n : nat) : pool := nth n t default_pool.

(** [GetMemset(mt)]: controllers registered for exactly this type. *)
Definition GetMemset (t : tree) (n : nat) (mt : Z) : list Z :=
  match find (fun e => Z.eqb (fst e) mt) (p_memsets (pool_at t n)) with
  | Some (_, m) => m
  | None => []
  end.

(** Modelled from the spec: [DepthFirst] visits a node, then the subtrees
    of its children in order.  The fuel is the number of pools. *)
Fixpoint depth_first_fuel (t : tree) (fuel : nat) (n : nat) : list nat :=
  match fuel with
  | O => []
  | S f => n :: flat_map (depth_first_fuel t f) (p_children (pool_at t n))
  end.

Definition DepthFirst (t : tree) (n : nat) : list nat :=
  depth_first_fuel t (length t) n.

(** The mutable part of the policy: one [FreeSupply] per pool, and the
    [allocations] map from container cache id to grant. *)
Definition frees := list supply.

Definition free_at (fs : frees) (n : nat) : supply :=
  match fs !! n with Some cs => cs | None => default_supply end.

Definition set_free (fs : frees) (n : nat) (s : supply) : frees :=
  <[ n := s ]> fs.

(** Record updates used by the embedding. *)
Definition with_isolated (cs : supply) (x : CPUSet.t) : supply :=
  mkSupply (s_node cs) x (sharable cs) (granted cs) (normMem cs) (slowMem cs) (fastMem cs) (grantedMem cs).
Definition with_sharable (cs : supply) (x : CPUSet.t) : supply :=
  mkSupply (s_node cs) (isolated cs) x (granted cs) (normMem cs) (slowMem cs) (fastMem cs) (grantedMem cs).
Definition with_granted (cs : supply) (x : Z) : supply :=
  mkSupply (s_node cs) (isolated cs) (sharable cs) x (normMem cs) (slowMem cs) (fastMem cs) (grantedMem cs).
Definition with_grantedMem (cs : supply) (x : Z) : supply :=
  mkSupply (s_node cs) (isolated cs) (sharable cs) (granted cs) (normMem cs) (slowMem cs) (fastMem cs) x.

(** [Request.GetContainer] etc. are field reads; [newGrant]: *)
Definition newGrant (t : tree) (r : request) (n : nat) (c : Z) (excl : CPUSet.t)
    (portion : Z) (mt : Z) (memoryLimit : Z) : grant :=
  let mems :=
    let m1 := GetMemset t n mt in
    if Nat.eqb (length m1) 0 then
      let m2 := GetMemset t n memoryDRAM in
      if Nat.eqb (length m2) 0 then GetMemset t n memoryAll else m2
    else m1 in
  {| g_container := c; g_node := n; g_memoryNode := n; exclusive := excl;
     portion := portion; g_memType := mt; memset := mems;
     memlimit := memoryLimit; g_request := r |}.

(** [grant.SetMemoryNode]. *)
Definition SetMemoryNode (t : tree) (g : grant) (n : nat) : grant :=
  {| g_container := g_container g; g_node := g_node g; g_memoryNode := n;
     exclusive := exclusive g; portion := portion g; g_memType := g_memType g;
     memset := GetMemset t n (g_memType g); memlimit := memlimit g;
     g_request := g_request g |}.

(** [supply.AccountAllocate], run on the free supply of pool [n]. *)
Definition AccountAllocate (fs : frees) (n : nat) (g : grant) : frees :=
  let cs := free_at fs n in
  if Nat.eqb (s_node cs) (g_node g) then fs
  else
    let excl := exclusive g in
    let cs1 := with_isolated cs (CPUSet.difference (isolated cs) excl) in
    let cs2 := with_sharable cs1 (CPUSet.difference (sharable cs1) excl) in
    set_free fs n cs2.

(** [supply.AccountRelease], run on the free supply of pool [n]. *)
Definition AccountRelease (t : tree) (fs : frees) (n : nat) (g : grant) : frees :=
  let cs := free_at fs n in
  if Nat.eqb (s_node cs) (g_node g) then fs
  else
    let ncs := p_supply (pool_at t (s_node cs)) in
    let nodecpus := CPUSet.union (isolated ncs) (sharable ncs) in
    let grantcpus := CPUSet.intersection (exclusive g) nodecpus in
    let iso := CPUSet.intersection grantcpus (isolated ncs) in
    let sha := CPUSet.intersection grantcpus (sharable ncs) in
    let cs1 := with_isolated cs (CPUSet.union (isolated cs) iso) in
    let cs2 := with_sharable cs1 (CPUSet.union (sharable cs1) sha) in
    set_free fs n cs2.

Inductive result (A : Type) : Type :=
| Ok (a : A)
| Error (msg : string).
Arguments Ok {A} a.
Arguments Error {A} msg.

(** [supply.Allocate] on the free supply of pool [q].  The supply is
    mutated in place in Go, so an error return still leaves the CPUs and
    the milli-CPU taken by the earlier steps booked: the returned [frees]
    carries that partial update. *)
Definition Allocate (t : tree) (fs : frees) (q : nat) (r : request)
    : frees * result grant :=
  let cs := free_at fs q in
  (* allocate isolated exclusive CPUs or slice them off the sharable set *)
  let step1 : option (supply * CPUSet.t) :=
    if (0 <? full r) && (full r <=? CPUSet.size (isolated cs)) then
      match takeCPUs (isolated cs) (full r) with
      | Some (excl, rest) => Some (with_isolated cs rest, excl)
      | None => None
      end
    else if (0 <? full r) &&
            (Z.quot (1000 * CPUSet.size (sharable cs) - granted cs) 1000 >? full r) then
      match takeCPUs (sharable cs) (full r) with
      | Some (excl, rest) => Some (with_sharable cs rest, excl)
      | None => None
      end
    else Some (cs, []) in
  match step1 with
  | None => (fs, Error "internal error: can't allocate exclusive CPUs")
  | Some (cs1, excl) =>
      (* allocate requested portion of the sharable set *)
      let step2 : option supply :=
        if 0 <? fraction r then
          if 1000 * CPUSet.size (sharable cs1) - granted cs1 <? fraction r then None
          else Some (with_granted cs1 (granted cs1 + fraction r))
        else Some cs1 in
      match step2 with
      | None => (set_free fs q cs1, Error "internal error: not enough sharable CPU")
      | Some cs2 =>
          if u64 (slowMem cs2 + normMem cs2 + fastMem cs2 - grantedMem cs2) <? memLim r then
            (set_free fs q cs2, Error "internal error: not enough memory")
          else
            let cs3 := with_grantedMem cs2 (u64 (grantedMem cs2 + memLim r)) in
            let g := newGrant t r (s_node cs3) (r_container r) excl (fraction r)
                       (r_memType r) (memLim r) in
            let fs1 := set_free fs q cs3 in
            let fs2 := fold_left (fun acc n => AccountAllocate acc n g)
                         (DepthFirst t (s_node cs3)) fs1 in
            (fs2, Ok g)
      end
  end.

(** [supply.Release] on the free supply of pool [q]. *)
Definition Release (t : tree) (fs : frees) (q : nat) (g : grant) : frees :=
  let cs := free_at fs q in
  if Nat.eqb (s_node cs) (g_node g) then
    let iso := CPUSet.intersection (exclusive g) (isolated (p_supply (pool_at t (s_node cs)))) in
    let sha := CPUSet.difference (exclusive g) iso in
    let cs1 := with_isolated cs (CPUSet.union (isolated cs) iso) in
    let cs2 := with_sharable cs1 (CPUSet.union (sharable cs1) sha) in
    let cs3 := with_granted cs2 (granted cs2 - portion g) in
    fold_left (fun acc n => AccountRelease t acc n g)
      (DepthFirst t (s_node cs)) (set_free fs q cs3)
  else if Nat.eqb (s_node cs) (g_memoryNode g) then
    (* [ReleaseExtraMemoryReservation] on the subtree is a no-op, see [supply] *)
    set_free fs q (with_grantedMem cs (u64 (grantedMem cs - memlimit g)))
  else fs.

End Memtier.

(* ------------------------------------------------------------------ *)
(** ** Concrete pool trees used by the witnesses *)

Module Fixtures.
Import Memtier.

(** A single-socket desktop: one pool (the root), CPUs 0-3, memory
    controller 0 with 16 units of DRAM. *)
Definition desk_supply : supply := mkSupply 0 [] [0;1;2;3] 0 16 0 0 0.
Definition desk : tree := [mkPool 0 memoryDRAM [] [0] [(memoryDRAM, [0])] desk_supply].
Definition desk_free : frees := [desk_supply].

(** A shared-only request for half a CPU and one unit of memory. *)
Definition req_shared : request := mkRequest 1 0 500 false 1 1 memoryDRAM 0.

(** The same desktop with CPU 0 isolated (isolcpus=0). *)
Definition iso_supply : supply := mkSupply 0 [0] [1;2;3] 0 16 0 0 0.
Definition desk_iso : tree := [mkPool 0 memoryDRAM [] [0] [(memoryDRAM, [0])] iso_supply].
Definition desk_iso_free : frees := [iso_supply].

(** Exclusive requests: four full CPUs, and one full CPU without
    isolation. *)
Definition req_full4 : request := mkRequest 2 4 0 false 1 1 memoryDRAM 0.
Definition req_full1 : request := mkRequest 3 1 0 false 1 1 memoryDRAM 0.

End Fixtures.

(* ------------------------------------------------------------------ *)
(** ** Grant methods and scores (resources.go) *)

Module Scoring.
Import Memtier.

(** The methods of [Grant].  Only [SetMemoryNode] writes a field; every
    other method is a read. *)
Inductive grant_method :=
| GetContainer | GetCPUNode | GetMemoryNode | ExclusiveCPUs | SharedCPUs
| SharedPortion | IsolatedCPUs | MemoryType | SetMemoryNodeM (n : nat)
| Memset | MemLimit | RequestM | StringM.

Definition grant_call (t : tree) (g : grant) (m : grant_method) : grant :=
  match m with
  | SetMemoryNodeM n => SetMemoryNode t g n
  | _ => g
  end.

Definition is_SetMemoryNode (m : grant_method) : bool :=
  match m with SetMemoryNodeM _ => true | _ => false end.

(** [score].  Hint scores are float64 in Go; they are kept here as
    rationals, exact products, with the provider keys dropped. *)
Record score := mkScore {
  sc_isolated : Z;
  sc_shared : Z;
  sc_colocated : Z;
  sc_hints : list Q
}.

(** The [allocations] map of the policy: container cache id to grant. *)
Definition allocations := list (Z * grant).

(** [supply.GetScore].  [grantedShared] is [cs.node.GrantedSharedCPU()]
    and [hints] the scores [cs.node.HintScore(hint)] of the container's
    (real and fake) topology hints; both are computed by node.go and the
    hint providers, which are outside the sources here. *)
Definition GetScore (allocs : allocations) (grantedShared : Z) (hints : list Q)
    (cs : supply) (cr : request) : score :=
  let full := full cr in
  let part := if (full =? 0) && (fraction cr =? 0) then 1 else fraction cr in
  (* calculate free shared capacity *)
  let shared0 := 1000 * CPUSet.size (sharable cs) - grantedShared in
  (* calculate isolated node capacity CPU *)
  let isolated0 := if isolate cr then CPUSet.size (isolated cs) - full else 0 in
  (* if we don't want isolated or there is not enough, calculate slicable capacity *)
  let shared1 := if negb (isolate cr) || (isolated0 <? 0) then shared0 - 1000 * full
                 else shared0 in
  (* calculate fractional capacity *)
  let shared2 := shared1 - part in
  (* calculate colocation score *)
  let colocated :=
    Z.of_nat (length (filter (fun e => Nat.eqb (g_node (snd e)) (s_node cs)) allocs)) in
  mkScore isolated0 shared2 colocated hints.

End Scoring.

(* ------------------------------------------------------------------ *)
(** ** Pool selection and the allocator (resources.go) *)

Module Selector.
Import Memtier Scoring.

(** [int32] wrap-around, for the affinity weights. *)
Definition i32 (x : Z) : Z := (x + 2 ^ 31) mod 2 ^ 32 - 2 ^ 31.

(** What the selector reads from outside resources.go: the free memory
    reported by [sys.Node(id).MemoryInfo()] ([None] is an error), the
    [GrantedSharedCPU] of each node, the hint scores of the container on
    each node, and the container affinity [calculateContainerAffinity]
    obtains from the cache (container cache id to weight). *)
Record env := mkEnv {
  e_memFree : Z -> option Z;
  e_grantedShared : nat -> Z;
  e_hints : nat -> list Q;
  e_containerAffinity : list (Z * Z)
}.

Fixpoint assoc_find {A} (k : Z) (m : list (Z * A)) : option A :=
  match m with
  | [] => None
  | (k', v) :: m' => if Z.eqb k k' then Some v else assoc_find k m'
  end.

(** [getNodeFreeMemory]: the [infos] cache is a map shared with the
    caller, so entries added before an error stay in it. *)
Fixpoint getNodeFreeMemory_ids (e : env) (ids : list Z) (free : Z) (infos : list (Z * Z))
    : list (Z * Z) * option Z :=
  match ids with
  | [] => (infos, Some free)
  | id :: ids' =>
      match assoc_find id infos with
      | Some mf => getNodeFreeMemory_ids e ids' (u64 (free + mf)) infos
      | None =>
          match e_memFree e id with
          | None => (infos, None)
          | Some mf => getNodeFreeMemory_ids e ids' (u64 (free + mf)) ((id, mf) :: infos)
          end
      end
  end.

Definition getNodeFreeMemory (t : tree) (e : env) (n : nat) (infos : list (Z * Z))
    : list (Z * Z) * option Z :=
  getNodeFreeMemory_ids e (p_physical (pool_at t n)) 0 infos.

(** [filterInsufficientResources]. *)
Fixpoint filter_loop (t : tree) (e : env) (req : request) (nodes : list nat)
    (infos : list (Z * Z)) : list nat :=
  match nodes with
  | [] => []
  | n :: ns =>
      let (infos', res) := getNodeFreeMemory t e n infos in
      match res with
      | None => filter_loop t e req ns infos'
      | Some nodeFreeMemory =>
          if memLim req <? nodeFreeMemory then n :: filter_loop t e req ns infos'
          else filter_loop t e req ns infos'
      end
  end.

Definition filterInsufficientResources (t : tree) (e : env) (req : request)
    (originals : list nat) : list nat :=
  filter_loop t e req originals [].

(** Strict order on hint scores. *)
Definition Qltb (x y : Q) : bool := negb (Qle_bool y x).

(** [combineHintScores]. *)
Definition combineHintScores (scores : list Q) : Q * Q :=
  match scores with
  | [] => (0%Q, 0%Q)
  | _ =>
      fold_left (fun (acc : Q * Q) (sc : Q) =>
        let (combined, filtered) := acc in
        (Qmult combined sc,
         if Qeq_bool sc 0 then filtered
         else if Qeq_bool filtered 0 then sc else Qmult filtered sc))
        scores (1%Q, 0%Q)
  end.

(** The body of [compareScores] once [node1] and [node2] are fixed. *)
Definition compareNodes (t : tree) (req : request) (scores : nat -> score)
    (affinity : nat -> Z) (node1 node2 : nat) : bool :=
  let depth1 := p_depth (pool_at t node1) in
  let depth2 := p_depth (pool_at t node2) in
  let id1 := Z.of_nat node1 in
  let id2 := Z.of_nat node2 in
  let score1 := scores node1 in
  let score2 := scores node2 in
  let isolated1 := sc_isolated score1 in let shared1 := sc_shared score1 in
  let isolated2 := sc_isolated score2 in let shared2 := sc_shared score2 in
  let affinity1 := affinity node1 in let affinity2 := affinity node2 in
  let mt1 := p_memType (pool_at t node1) in
  let mt2 := p_memType (pool_at t node2) in
  (* 1) a node with insufficient isolated or shared capacity loses *)
  if (isolated2 <? 0) || (shared2 <? 0) then true
  else if (isolated1 <? 0) || (shared1 <? 0) then false
  (* 2) higher affinity wins *)
  else if affinity1 >? affinity2 then true
  else if affinity2 >? affinity1 then false
  (* 3) matching memory type wins *)
  else if negb (r_memType req =? memoryUnspec) &&
          (mt1 =? r_memType req) && negb (mt2 =? r_memType req) then true
  else if negb (r_memType req =? memoryUnspec) &&
          negb (mt1 =? r_memType req) && (mt2 =? r_memType req) then false
  else
  (* 4) better topology hint score wins *)
  let hint_rule : option bool :=
    match sc_hints score1 with
    | [] => None
    | _ =>
        let (hs1, nz1) := combineHintScores (sc_hints score1) in
        let (hs2, nz2) := combineHintScores (sc_hints score2) in
        if Qltb hs2 hs1 then Some true
        else if Qltb hs1 hs2 then Some false
        else if Qeq_bool hs1 0 && Qltb nz2 nz1 then Some true
        else if Qeq_bool hs1 0 && Qltb nz1 nz2 then Some false
        else if Qeq_bool hs1 hs2 && Qeq_bool nz1 nz2 &&
                (negb (Qeq_bool hs1 0) || negb (Qeq_bool nz1 0)) then
          if depth1 >? depth2 then Some true
          else if depth1 <? depth2 then Some false
          else Some (id1 <? id2)
        else None
    end in
  match hint_rule with
  | Some b => b
  | None =>
  (* 5) a lower node wins *)
  if depth1 >? depth2 then true
  else if depth1 <? depth2 then false
  (* 6) more isolated capacity wins *)
  else if isolate req then
    if isolated1 >? isolated2 then true
    else if isolated2 >? isolated1 then false
    else id1 <? id2
  (* 7) more slicable shared capacity wins *)
  else if full req >? 0 then
    if shared1 >? shared2 then true
    else if shared2 >? shared1 then false
    else id1 <? id2
  (* 8) fewer colocated containers win *)
  else if sc_colocated score1 <? sc_colocated score2 then true
  else if sc_colocated score2 <? sc_colocated score1 then false
  (* more shared capacity wins *)
  else if shared1 >? shared2 then true
  else if shared2 >? shared1 then false
  (* lower id wins *)
  else id1 <? id2
  end.

(** [compareScores(request, scores, affinity, i, j)]: the nodes compared
    are [p.pools[i]] and [p.pools[j]]. *)
Definition compareScores (t : tree) (pools : list nat) (req : request)
    (scores : nat -> score) (affinity : nat -> Z) (i j : nat) : bool :=
  compareNodes t req scores affinity (nth i pools O) (nth j pools O).

Definition swap {A} (l : list A) (i j : nat) : list A :=
  match l !! i, l !! j with
  | Some x, Some y => <[ i := y ]> (<[ j := x ]> l)
  | _, _ => l
  end.

(** Go's [sort.Slice(x, less)] on a slice of at most 6 elements: an
    insertion sort that calls [less(j, j-1)] on slice positions.  (Longer
    slices go through further passes that are not modelled; the witnesses
    here sort at most 3 pools.) *)
Fixpoint sink {A} (less : nat -> nat -> bool) (l : list A) (j : nat) : list A :=
  match j with
  | O => l
  | S j' => if less j j' then sink less (swap l j j') j' else l
  end.

Definition sortSlice {A} (l : list A) (less : nat -> nat -> bool) : list A :=
  fold_left (fun acc i => sink less acc i) (seq 1 (length l - 1)) l.

(** The policy: the pool tree, its root, [p.pools] (the node ids in
    depth-first order, so [p.pools[i] = i]), the free supplies and the
    [allocations] map. *)
Record policy := mkPolicy {
  pol_tree : tree;
  pol_root : nat;
  pol_pools : list nat;
  pol_frees : frees;
  pol_allocs : allocations
}.

(** [calculatePoolAffinities]. *)
Definition calculatePoolAffinities (p : policy) (e : env) : nat -> Z :=
  fun n =>
    fold_left (fun acc cw =>
      match assoc_find (fst cw) (pol_allocs p) with
      | Some g => if Nat.eqb (g_node g) n then i32 (acc + snd cw) else acc
      | None => acc
      end) (e_containerAffinity e) 0.

Definition scoreOf (p : policy) (e : env) (req : request) (n : nat) : score :=
  GetScore (pol_allocs p) (e_grantedShared e n) (e_hints e n)
           (free_at (pol_frees p) n) req.

(** [sortPoolsByScore]: scores every pool, filters [p.pools], sorts the
    survivors with [compareScores]. *)
Definition sortPoolsByScore (p : policy) (e : env) (req : request) (aff : nat -> Z)
    : (nat -> score) * list nat :=
  let scores := scoreOf p e req in
  let filteredPools := filterInsufficientResources (pol_tree p) e req (pol_pools p) in
  (scores, sortSlice filteredPools
             (fun i j => compareScores (pol_tree p) (pol_pools p) req scores aff i j)).

Record container := mkContainer {
  c_cacheID : Z;
  c_namespace : string
}.

Definition NamespaceSystem : string := "kube-system".

Inductive outcome :=
| Granted (g : grant)
| Failed (msg : string)
| Panicked (msg : string).

(** [allocatePool].  The request is the one [newRequest] builds from the
    container (cpuAllocationPreferences and memoryAllocationPreference are
    outside the sources here).  Indexing an empty slice panics in Go. *)
Definition allocatePool (p : policy) (e : env) (c : container) (req : request)
    : policy * outcome :=
  let pick : option nat :=
    if String.eqb (c_namespace c) NamespaceSystem then Some (pol_root p)
    else
      let affinity := calculatePoolAffinities p e in
      let (_, pools) := sortPoolsByScore p e req affinity in
      match pools with
      | [] => None
      | n :: _ => Some n
      end in
  match pick with
  | None => (p, Panicked "runtime error: index out of range [0] with length 0")
  | Some pool =>
      let (fs', res) := Allocate (pol_tree p) (pol_frees p) pool req in
      let p' := mkPolicy (pol_tree p) (pol_root p) (pol_pools p) fs' (pol_allocs p) in
      match res with
      | Error m => (p', Failed ("failed to allocate: " ++ m))
      | Ok g =>
          (mkPolicy (pol_tree p) (pol_root p) (pol_pools p) fs'
                    ((c_cacheID c, g) :: filter (fun kv => negb (Z.eqb (fst kv) (c_cacheID c)))
                                                (pol_allocs p)),
           Granted g)
      end
  end.

(** [releasePool]. *)
Definition releasePool (p : policy) (c : container) : policy * option grant :=
  match assoc_find (c_cacheID c) (pol_allocs p) with
  | None => (p, None)
  | Some g =>
      (mkPolicy (pol_tree p) (pol_root p) (pol_pools p)
                (Release (pol_tree p) (pol_frees p) (g_node g) g)
                (filter (fun kv => negb (Z.eqb (fst kv) (c_cacheID c))) (pol_allocs p)),
       Some g)
  end.

End Selector.

(* ------------------------------------------------------------------ *)
(** ** Lifecycle: sequences of allocate and release events *)

Module Lifecycle.
Import Memtier Scoring Selector.

Inductive op :=
| OpAllocate (e : env) (c : container) (r : request)
| OpRelease (c : container).

Definition run_op (p : policy) (o : op) : policy :=
  match o with
  | OpAllocate e c r => fst (allocatePool p e c r)
  | OpRelease c => fst (releasePool p c)
  end.

Definition run_ops (p : policy) (os : list op) : policy := fold_left run_op os p.

(** Requests built from container resources never ask for a negative
    milli-CPU fraction. *)
Definition good_op (o : op) : Prop :=
  match o with
  | OpAllocate _ _ r => 0 <= fraction r
  | OpRelease _ => True
  end.

(** The policy right after the pools are built: no grants, every free
    supply belongs to its own pool and has nothing granted, and the root
    and [p.pools] name existing pools. *)
Definition init_policy (p : policy) : Prop :=
  pol_allocs p = [] /\
  (forall n, (n < length (pol_frees p))%nat ->
     s_node (free_at (pol_frees p) n) = n /\ granted (free_at (pol_frees p) n) = 0) /\
  (pol_root p < length (pol_frees p))%nat /\
  Forall (fun n => n < length (pol_frees p))%nat (pol_pools p).

(** The CPU bound of the spec on the free supply of pool [n]. *)
Definition cpu_bound_at (p : policy) (n : nat) : Prop :=
  0 <= granted (free_at (pol_frees p) n) <=
  1000 * CPUSet.size (sharable (free_at (pol_frees p) n)).

(** [o] is an allocation granting exclusive CPUs on a pool of which [n]
    is a strict descendant ([AccountAllocate] then removes those CPUs
    from the supply of [n]). *)
Definition below_granting_pool (p : policy) (o : op) (n : nat) : Prop :=
  match o with
  | OpAllocate e c r =>
      match snd (allocatePool p e c r) with
      | Granted g =>
          n <> g_node g /\ In n (DepthFirst (pol_tree p) (g_node g)) /\ exclusive g <> []
      | _ => False
      end
  | OpRelease _ => False
  end.

(** No operation of [os], run from [p], is such an allocation for [n]. *)
Fixpoint no_ancestor_grant (p : policy) (os : list op) (n : nat) : Prop :=
  match os with
  | [] => True
  | o :: os' => ~ below_granting_pool p o n /\ no_ancestor_grant (run_op p o) os' n
  end.

(** Milli-CPU portions of the grants in [allocs] made on pool [n]. *)
Definition sum_portions (n : nat) (allocs : allocations) : Z :=
  fold_right (fun kv acc => if Nat.eqb (g_node (snd kv)) n then portion (snd kv) + acc else acc)
    0 allocs.

(** The state invariant behind the lower bound: supplies sit at their own
    index, the root, [p.pools] and the grants name existing pools, the
    portions are non-negative and every pool has granted at least the
    portions of its recorded grants. *)
Definition lifecycle_inv (p : policy) : Prop :=
  (forall n, (n < length (pol_frees p))%nat -> s_node (free_at (pol_frees p) n) = n) /\
  (pol_root p < length (pol_frees p))%nat /\
  Forall (fun n => n < length (pol_frees p))%nat (pol_pools p) /\
  Forall (fun kv => (g_node (snd kv) < length (pol_frees p))%nat /\ 0 <= portion (snd kv))
    (pol_allocs p) /\
  (forall n, sum_portions n (pol_allocs p) <= granted (free_at (pol_frees p) n)).

(** One step of [supply.Allocate] on a supply: same node, [granted] does
    not decrease, and the CPU bound is kept. *)
Definition supply_step (cs cs' : supply) : Prop :=
  s_node cs' = s_node cs /\ granted cs <= granted cs' /\
  (0 <= granted cs <= 1000 * CPUSet.size (sharable cs) ->
   granted cs' <= 1000 * CPUSet.size (sharable cs')).

End Lifecycle.

(* ------------------------------------------------------------------ *)
(** ** Concrete policies used by the witnesses *)

Module SelectorFixtures.
Import Memtier Scoring Selector Fixtures.

(** A socket (pool 0, CPUs 0-2) with two NUMA leaves: pool 1 (CPUs 0-1,
    NUMA node 0 with 1 unit of free memory) and pool 2 (CPU 2, NUMA node 1
    with 8 units of free memory). *)
Definition root_supply : supply := mkSupply 0 [] [0;1;2] 0 9 0 0 0.
Definition leaf1_supply : supply := mkSupply 1 [] [0;1] 0 1 0 0 0.
Definition leaf2_supply : supply := mkSupply 2 [] [2] 0 8 0 0 0.

Definition server : tree :=
  [ mkPool 0 memoryDRAM [1%nat; 2%nat] [0; 1] [(memoryDRAM, [0; 1])] root_supply;
    mkPool 1 memoryDRAM [] [0] [(memoryDRAM, [0])] leaf1_supply;
    mkPool 1 memoryDRAM [] [1] [(memoryDRAM, [1])] leaf2_supply ].

Definition server_policy : policy :=
  mkPolicy server 0 [0%nat; 1%nat; 2%nat] [root_supply; leaf1_supply; leaf2_supply] [].

Definition server_env : env :=
  mkEnv (fun id => if id =? 0 then Some 1 else if id =? 1 then Some 8 else None)
        (fun _ => 0) (fun _ => []) [].

(** Two full CPUs and 4 units of memory. *)
Definition req_two : request := mkRequest 4 2 0 false 4 4 memoryDRAM 0.

Definition desk_policy : policy := mkPolicy desk 0 [0%nat] desk_free [].

Definition desk_env : env :=
  mkEnv (fun id => if id =? 0 then Some 16 else None) (fun _ => 0) (fun _ => []) [].

(** A shared-only request whose memory limit is exactly, or just over,
    the 16 units of the desktop. *)
Definition req_mem (lim : Z) : request := mkRequest 5 0 100 false lim lim memoryDRAM 0.

Definition web : container := mkContainer 5 "default".
Definition sysc : container := mkContainer 6 "kube-system".

(** Two full CPUs for a kube-system container (placed on the root), and
    two milli-CPU thousands of shared CPU for an ordinary container. *)
Definition req_shared2000 : request := mkRequest 7 0 2000 false 0 0 memoryDRAM 0.
Definition req_full2 : request := mkRequest 8 2 0 false 0 0 memoryDRAM 0.
Definition web2 : container := mkContainer 7 "default".
Definition sysc2 : container := mkContainer 8 "kube-system".

End SelectorFixtures.

(* ------------------------------------------------------------------ *)
(** ** Runtime classes (runtimes/classes.go) *)

(** Go's [path.Match] (standard library, not part of the sources here),
    on strings read byte by byte: a byte stands for a rune, which is exact
    for ASCII patterns and handlers.  The loops are bounded by the length
    of the pattern, which every iteration shortens. *)
Module GoPath.

Inductive chunk_result :=
| ChunkOk (rest : string)   (* [ok == true], the unmatched rest of [s] *)
| ChunkFail                 (* [ok == false], [err == nil] *)
| ChunkErr.                 (* [err == ErrBadPattern] *)

Inductive match_result :=
| Matched (b : bool)
| BadPattern.

Definition is_empty (s : string) : bool :=
  match s with EmptyString => true | _ => false end.

(** [bytealg.IndexByteString(name, '/') < 0]. *)
Definition no_slash (s : string) : bool :=
  forallb (fun c => negb (Ascii.eqb c "/"%char)) (list_ascii_of_string s).

Fixpoint skip_stars (p : string) (star : bool) : bool * string :=
  match p with
  | String c p' => if Ascii.eqb c "*"%char then skip_stars p' true else (star, p)
  | EmptyString => (star, p)
  end.

(** The [Scan] loop of [scanChunk]: the chunk and the rest of the pattern. *)
Fixpoint scan_loop (p : string) (inrange : bool) : string * string :=
  match p with
  | EmptyString => (EmptyString, EmptyString)
  | String c p' =>
      if Ascii.eqb c "\"%char then
        match p' with
        | EmptyString => (String c EmptyString, EmptyString)
        | String c2 p'' =>
            let (ch, r) := scan_loop p'' inrange in (String c (String c2 ch), r)
        end
      else if Ascii.eqb c "["%char then
        let (ch, r) := scan_loop p' true in (String c ch, r)
      else if Ascii.eqb c "]"%char then
        let (ch, r) := scan_loop p' false in (String c ch, r)
      else if Ascii.eqb c "*"%char && negb inrange then (EmptyString, p)
      else let (ch, r) := scan_loop p' inrange in (String c ch, r)
  end.

Definition scanChunk (pattern : string) : bool * string * string :=
  let (star, p) := skip_stars pattern false in
  let (chunk, rest) := scan_loop p false in
  (star, chunk, rest).

(** [getEsc]: [None] is [ErrBadPattern]. *)
Definition getEsc (chunk : string) : option (ascii * string) :=
  match chunk with
  | EmptyString => None
  | String c rest =>
      if Ascii.eqb c "-"%char || Ascii.eqb c "]"%char then None
      else
        let esc : option (ascii * string) :=
          if Ascii.eqb c "\"%char then
            match rest with
            | EmptyString => None
            | String c2 r2 => Some (c2, r2)
            end
          else Some (c, rest) in
        match esc with
        | None => None
        | Some (r, nchunk) => if is_empty nchunk then None else Some (r, nchunk)
        end
  end.

Definition rune_le (a b : ascii) : bool := Nat.leb (nat_of_ascii a) (nat_of_ascii b).

(** The range loop of a character class: whether [r] is in one of the
    ranges, and the chunk after the closing bracket. *)
Fixpoint class_loop (fuel : nat) (chunk : string) (r : ascii) (nrange : nat) (m : bool)
    : option (bool * string) :=
  match fuel with
  | O => None
  | S f =>
      let step :=
        match getEsc chunk with
        | None => None
        | Some (lo, ch1) =>
            let hi_rest :=
              match ch1 with
              | String c ch2 => if Ascii.eqb c "-"%char then getEsc ch2 else Some (lo, ch1)
              | EmptyString => Some (lo, ch1)
              end in
            match hi_rest with
            | None => None
            | Some (hi, ch3) =>
                class_loop f ch3 r (S nrange) (m || (rune_le lo r && rune_le r hi))
            end
        end in
      match chunk with
      | String c rest =>
          if Ascii.eqb c "]"%char && Nat.ltb 0 nrange then Some (m, rest) else step
      | EmptyString => step
      end
  end.

(** The loop of [matchChunk]; [failed] records a mismatch, after which the
    rest of the chunk is still parsed for syntax. *)
Fixpoint matchChunk_loop (fuel : nat) (chunk s : string) (failed : bool) : chunk_result :=
  match fuel with
  | O => ChunkErr
  | S f =>
      match chunk with
      | EmptyString => if failed then ChunkFail else ChunkOk s
      | String c chunk' =>
          let failed := failed || is_empty s in
          if Ascii.eqb c "["%char then
            let (r, s') :=
              if failed then (zero, s)
              else match s with String b s' => (b, s') | EmptyString => (zero, s) end in
            let (negated, ch) :=
              match chunk' with
              | String c1 ch => if Ascii.eqb c1 "^"%char then (true, ch) else (false, chunk')
              | EmptyString => (false, chunk')
              end in
            match class_loop (S (String.length ch)) ch r 0 false with
            | None => ChunkErr
            | Some (m, ch') => matchChunk_loop f ch' s' (failed || Bool.eqb m negated)
            end
          else if Ascii.eqb c "?"%char then
            if failed then matchChunk_loop f chunk' s failed
            else
              match s with
              | String b s' => matchChunk_loop f chunk' s' (Ascii.eqb b "/"%char)
              | EmptyString => matchChunk_loop f chunk' s true
              end
          else
            let lit : option (ascii * string) :=
              if Ascii.eqb c "\"%char then
                match chunk' with
                | EmptyString => None
                | String c2 ch2 => Some (c2, ch2)
                end
              else Some (c, chunk') in
            match lit with
            | None => ChunkErr
            | Some (c2, ch2) =>
                if failed then matchChunk_loop f ch2 s failed
                else
                  match s with
                  | String b s' => matchChunk_loop f ch2 s' (negb (Ascii.eqb c2 b))
                  | EmptyString => matchChunk_loop f ch2 s true
                  end
            end
      end
  end.

Definition matchChunk (chunk s : string) : chunk_result :=
  matchChunk_loop (S (String.length chunk)) chunk s false.

(** The loop over [i] after a star: try the chunk at [name[i+1:]] while
    [name[i] != '/']. *)
Fixpoint star_scan (chunk pattern name : string) : chunk_result :=
  match name with
  | EmptyString => ChunkFail
  | String c name' =>
      if Ascii.eqb c "/"%char then ChunkFail
      else
        match matchChunk chunk name' with
        | ChunkOk t =>
            if is_empty pattern && negb (is_empty t) then star_scan chunk pattern name'
            else ChunkOk t
        | ChunkErr => ChunkErr
        | ChunkFail => star_scan chunk pattern name'
        end
  end.

(** Before returning false, the rest of the pattern is checked for syntax. *)
Fixpoint check_rest (fuel : nat) (pattern : string) : match_result :=
  match fuel with
  | O => Matched false
  | S f =>
      match pattern with
      | EmptyString => Matched false
      | _ =>
          let '(_, chunk, pattern') := scanChunk pattern in
          match matchChunk chunk EmptyString with
          | ChunkErr => BadPattern
          | _ => check_rest f pattern'
          end
      end
  end.

Fixpoint Match_loop (fuel : nat) (pattern name : string) : match_result :=
  match fuel with
  | O => BadPattern
  | S f =>
      match pattern with
      | EmptyString => Matched (is_empty name)
      | _ =>
          let '(star, chunk, pattern') := scanChunk pattern in
          if star && is_empty chunk then Matched (no_slash name)
          else
            let no_match :=
              if star then
                match star_scan chunk pattern' name with
                | ChunkOk t => Match_loop f pattern' t
                | ChunkErr => BadPattern
                | ChunkFail => check_rest (S (String.length pattern')) pattern'
                end
              else check_rest (S (String.length pattern')) pattern' in
            match matchChunk chunk name with
            | ChunkOk t =>
                if is_empty t || negb (is_empty pattern') then Match_loop f pattern' t
                else no_match
            | ChunkErr => BadPattern
            | ChunkFail => no_match
            end
      end
  end.

(** [path.Match(pattern, name)]. *)
Definition Match (pattern name : string) : match_result :=
  Match_loop (S (String.length pattern)) pattern name.

(** [match, _ := path.Match(...)]: the error is dropped, and [match] is
    false with it. *)
Definition matched (r : match_result) : bool :=
  match r with Matched b => b | BadPattern => false end.

(** A chunk without [[], [?] or a backslash matches byte for byte. *)
Definition literal_char (c : ascii) : bool :=
  negb (Ascii.eqb c "["%char || Ascii.eqb c "?"%char || Ascii.eqb c "\"%char).

End GoPath.

Module Runtimes.

Definition CriClass : string := "CRI".
Definition KataClass : string := "kata".

Record Class := mkClass {
  Name : string;
  HandlerPattern : string
}.

(** [MatchHandler], over the class list of the configured [classMap]. *)
Definition MatchHandler (classes : list Class) (handler : string) : string :=
  if String.eqb handler EmptyString then CriClass
  else
    (fix loop (cs : list Class) : string :=
       match cs with
       | [] => EmptyString
       | class :: cs' =>
           if String.eqb (HandlerPattern class) EmptyString then Name class
           else if GoPath.matched (GoPath.Match (HandlerPattern class) handler) then Name class
           else loop cs'
       end) classes.

Definition defaultClasses : list Class :=
  [mkClass KataClass "kata*"; mkClass CriClass EmptyString].

End Runtimes.

Module Idxset.

(** Go's [int] on a 64-bit platform. *)
Definition MaxInt : Z := 2 ^ 63 - 1.
Definition MinInt : Z := - 2 ^ 63.

(** ** strconv *)

Definition digit_char (d : Z) : ascii := ascii_of_nat (48 + Z.to_nat d).

Definition is_digit (c : ascii) : bool :=
  (48 <=? nat_of_ascii c)%nat && (nat_of_ascii c <=? 57)%nat.

Definition digit_value (c : ascii) : Z := Z.of_nat (nat_of_ascii c) - 48.

(** [formatBits] for base 10: digits are produced least significant first,
    in front of those already produced. *)
Fixpoint utoa_loop (fuel : nat) (n : Z) (acc : string) : string :=
  match fuel with
  | O => acc
  | S f =>
      let acc' := String (digit_char (n mod 10)) acc in
      if n <? 10 then acc' else utoa_loop f (n / 10) acc'
  end.

(** [strconv.Itoa]: a 64-bit int has at most 19 digits. *)
Definition Itoa (n : Z) : string :=
  if n <? 0 then String "-"%char (utoa_loop 20 (- n) EmptyString)
  else utoa_loop 20 n EmptyString.

Fixpoint digits_loop (s : string) (acc : Z) : option Z :=
  match s with
  | EmptyString => Some acc
  | String c s' =>
      if is_digit c then digits_loop s' (acc * 10 + digit_value c) else None
  end.

(** [strconv.Atoi]: an optional sign, at least one decimal digit, and
    the value in the range of int; [None] is the returned error. *)
Definition Atoi (s : string) : option Z :=
  let '(neg, body) :=
    match s with
    | String c r =>
        if Ascii.eqb c "-"%char then (true, r)
        else if Ascii.eqb c "+"%char then (false, r) else (false, s)
    | EmptyString => (false, s)
    end in
  match body with
  | EmptyString => None
  | _ =>
      match digits_loop body 0 with
      | None => None
      | Some v =>
          let n := if neg then - v else v in
          if (MinInt <=? n) && (n <=? MaxInt) then Some n else None
      end
  end.

(** ** strings *)

(** [strings.Split(s, sep)] for a one-character separator. *)
Fixpoint Split (s : string) (sep : ascii) : list string :=
  match s with
  | EmptyString => [EmptyString]
  | String c s' =>
      if Ascii.eqb c sep then EmptyString :: Split s' sep
      else match Split s' sep with
           | w :: ws => String c w :: ws
           | [] => [String c EmptyString]
           end
  end.

(** [strings.SplitN(s, sep, 2)] for a one-character separator: split at
    the first separator only. *)
Fixpoint SplitN2 (s : string) (sep : ascii) : list string :=
  match s with
  | EmptyString => [EmptyString]
  | String c s' =>
      if Ascii.eqb c sep then [EmptyString; s']
      else match SplitN2 s' sep with
           | w :: ws => String c w :: ws
           | [] => [String c EmptyString]
           end
  end.

(** ** The IdxSet interface *)

(** Outcome of a call: a value, the error returned by [Parse], a panic,
    or a loop that never exits. *)
Inductive result (A : Type) : Type :=
  | Ok (a : A)
  | Err
  | Panic
  | Hang.
Arguments Ok {A} a.
Arguments Err {A}.
Arguments Panic {A}.
Arguments Hang {A}.

(** The methods [toString] and [parse] use: [ForEach] (given as the
    sequence of indices it hands to its callback), [Reset] and [Add]. *)
Class IdxSet (T : Type) := {
  ForEach_indices : T -> list Z;
  Reset : T -> T;
  Add : T -> list Z -> result T
}.

(** [s.ForEach(fn)] with a callback that can stop the iteration. *)
Fixpoint ForEach_loop {S} (l : list Z) (fn : Z -> S -> S * bool) (st : S) : S :=
  match l with
  | [] => st
  | idx :: l' => let '(st', stop) := fn idx st in
                 if stop then st' else ForEach_loop l' fn st'
  end.

Definition ForEach {T S} `{IdxSet T} (s : T) (fn : Z -> S -> S * bool) (st : S) : S :=
  ForEach_loop (ForEach_indices s) fn st.

(** The [writeRange] closure of [toString]. *)
Definition writeRange (str : string) (beg end_ : Z) : string :=
  if beg <? 0 then str
  else
    let str := if (0 <? String.length str)%nat then (str ++ ",")%string else str in
    let str := (str ++ Itoa beg)%string in
    if end_ <? 0 then str else (str ++ "-" ++ Itoa end_)%string.

(** The ForEach callback of [toString]; the state is [(str, beg, end)]. *)
Definition toString_step (idx : Z) (st : string * Z * Z) : (string * Z * Z) * bool :=
  let '(str, beg, end_) := st in
  (if beg <? 0 then (str, idx, end_)
   else if (end_ <? 0) && (idx =? beg + 1) then (str, beg, idx)
   else if idx =? end_ + 1 then (str, beg, idx)
   else (writeRange str beg end_, idx, -1), false).

Definition toString {T} `{IdxSet T} (s : T) : string :=
  let '(str, beg, end_) := ForEach s toString_step (EmptyString, -1, -1) in
  writeRange str beg end_.

(** [for i := beg; i <= end; i++ { indices = append(indices, i) }]: with
    [end] the largest int, [i <= end] always holds and the loop never
    exits. *)
Fixpoint range_from (i : Z) (n : nat) : list Z :=
  match n with
  | O => []
  | S n' => i :: range_from (i + 1) n'
  end.

Definition range_loop (beg end_ : Z) : result (list Z) :=
  if end_ =? MaxInt then Hang else Ok (range_from beg (Z.to_nat (end_ - beg + 1))).

(** One comma-separated item of [parse]. *)
Definition parse_item (idxOrRange : string) : result (list Z) :=
  match SplitN2 idxOrRange "-"%char with
  | [r0; r1] =>
      match Atoi r0 with
      | None => Err
      | Some beg =>
          match Atoi r1 with
          | None => Err
          | Some end_ => if end_ <? beg then Err else range_loop beg end_
          end
      end
  | _ =>
      match Atoi idxOrRange with
      | None => Err
      | Some idx => Ok [idx]
      end
  end.

Fixpoint parse_items (items : list string) (indices : list Z) : result (list Z) :=
  match items with
  | [] => Ok indices
  | it :: items' =>
      match parse_item it with
      | Ok l => parse_items items' (indices ++ l)
      | Err => Err
      | Panic => Panic
      | Hang => Hang
      end
  end.

Definition parse {T} `{IdxSet T} (s : T) (str : string) : result T :=
  let r := if String.eqb str EmptyString then Ok []
           else parse_items (Split str ","%char) [] in
  match r with
  | Ok indices => Add (Reset s) indices
  | Err => Err
  | Panic => Panic
  | Hang => Hang
  end.

(** ** dense: one bit per index in a slice of uint64 words *)

Definition MASKBITS : Z := 64.

Record dense := mkDense { mask : list Z }.

(** [bits.TrailingZeros64]. *)
Fixpoint tz_loop (j : Z) (n : nat) (m : Z) : Z :=
  match n with
  | O => 64
  | S n' => if Z.testbit m j then j else tz_loop (j + 1) n' m
  end.

Definition TrailingZeros64 (m : Z) : Z := tz_loop 0 64 m.

(** [for m != 0 { idx := bits.TrailingZeros64(m); fn(base + idx); m &^= 1 << idx }]:
    each round clears one of the at most 64 bits. *)
Fixpoint word_loop (fuel : nat) (m base : Z) : list Z :=
  match fuel with
  | O => []
  | S f =>
      if m =? 0 then []
      else let idx := TrailingZeros64 m in
           (base + idx) :: word_loop f (Z.ldiff m (Z.shiftl 1 idx)) base
  end.

Fixpoint mask_loop (ms : list Z) (base : Z) : list Z :=
  match ms with
  | [] => []
  | m :: ms' => word_loop 64 m base ++ mask_loop ms' (base + MASKBITS)
  end.

Definition dense_ForEach (s : dense) : list Z := mask_loop (mask s) 0.

Definition maskidx (idx : Z) : Z := idx / MASKBITS.

Definition bitidx (idx : Z) : Z * Z := (idx / MASKBITS, Z.land idx (MASKBITS - 1)).

Definition expand (ms : list Z) (idx : Z) : list Z :=
  let w := maskidx idx in
  let l := Z.of_nat (length ms) in
  if w <? l then ms else ms ++ repeat 0 (Z.to_nat (1 + (w - l))).

(** [s.mask[w] |= 1 << b]; [None] is Go's index-out-of-range panic. *)
Definition setbit (ms : list Z) (idx : Z) : option (list Z) :=
  let '(w, b) := bitidx idx in
  match ms !! Z.to_nat w with
  | Some m => Some (<[Z.to_nat w := Z.lor m (Z.shiftl 1 b)]> ms)
  | None => None
  end.

Fixpoint dense_add_loop (ms : list Z) (indices : list Z) : result (list Z) :=
  match indices with
  | [] => Ok ms
  | idx :: indices' =>
      if idx <? 0 then Panic
      else match setbit (expand ms idx) idx with
           | Some ms' => dense_add_loop ms' indices'
           | None => Panic
           end
  end.

Definition dense_Add (s : dense) (indices : list Z) : result dense :=
  match dense_add_loop (mask s) indices with
  | Ok ms => Ok (mkDense ms)
  | Err => Err
  | Panic => Panic
  | Hang => Hang
  end.

Definition dense_Reset (s : dense) : dense := mkDense [].

#[global] Instance dense_IdxSet : IdxSet dense := {
  ForEach_indices := dense_ForEach;
  Reset := dense_Reset;
  Add := dense_Add
}.

(** [dense.equals]: equal common words, and zero words beyond them. *)
Definition dense_equals (s o : dense) : bool :=
  let '(min, rest) :=
    if (length (mask s) <? length (mask o))%nat
    then (length (mask s), mask o) else (length (mask o), mask s) in
  forallb (fun p => fst p =? snd p) (combine (mask s) (mask o))
  && forallb (fun m => m =? 0) (drop min rest).

(** ** sparse: the set of members of a Go map *)

Record sparse := mkSparse { members : gset Z }.

(** [sparse.Indices]: the map's keys sorted by [sort.Ints]. *)
Definition sparse_Indices (s : sparse) : list Z :=
  merge_sort Z.le (elements (members s)).

Fixpoint sparse_add_loop (ms : gset Z) (indices : list Z) : result (gset Z) :=
  match indices with
  | [] => Ok ms
  | idx :: indices' =>
      if idx <? 0 then Panic else sparse_add_loop ({[idx]} ∪ ms) indices'
  end.

Definition sparse_Add (s : sparse) (indices : list Z) : result sparse :=
  match sparse_add_loop (members s) indices with
  | Ok ms => Ok (mkSparse ms)
  | Err => Err
  | Panic => Panic
  | Hang => Hang
  end.

(** [NewSparseSet]: the indices are stored as given. *)
Definition NewSparseSet (indices : list Z) : sparse := mkSparse (list_to_set indices).

Definition sparse_Reset (s : sparse) : sparse := mkSparse ∅.

#[global] Instance sparse_IdxSet : IdxSet sparse := {
  ForEach_indices := sparse_Indices;
  Reset := sparse_Reset;
  Add := sparse_Add
}.

(** [sparse.equals]: same size, and every member of [s] is one of [o]. *)
Definition sparse_equals (s o : sparse) : bool :=
  (size (members s) =? size (members o))%nat
  && forallb (fun idx => bool_decide (idx ∈ members o)) (elements (members s)).

(** ** The notation the specification describes *)

(** Maximal runs of consecutive integers of an increasing list. *)
Fixpoint runs_from (b e : Z) (r : list Z) : list (Z * Z) :=
  match r with
  | [] => [(b, e)]
  | x :: r' => if x =? e + 1 then runs_from b x r' else (b, e) :: runs_from x x r'
  end.

Definition runs (l : list Z) : list (Z * Z) :=
  match l with
  | [] => []
  | x :: r => runs_from x x r
  end.

Definition run_text (p : Z * Z) : string :=
  if fst p =? snd p then Itoa (fst p) else (Itoa (fst p) ++ "-" ++ Itoa (snd p))%string.

(** An item of a well-formed text: a decimal number or a range of two. *)
Inductive item :=
  | Single (d : string)
  | Range (d1 d2 : string).

Fixpoint all_digits (d : string) : bool :=
  match d with
  | EmptyString => true
  | String c d' => is_digit c && all_digits d'
  end.

Definition digits_ok (d : string) : bool :=
  negb (String.eqb d EmptyString) && all_digits d.

Fixpoint dval_loop (d : string) (acc : Z) : Z :=
  match d with
  | EmptyString => acc
  | String c d' => dval_loop d' (acc * 10 + digit_value c)
  end.

Definition dval (d : string) : Z := dval_loop d 0.

Definition item_text (it : item) : string :=
  match it with
  | Single d => d
  | Range a b => (a ++ "-" ++ b)%string
  end.

(** Well-formed items, with the numbers of Go's int and ranges ending
    below its largest value. *)
Definition item_ok (it : item) : bool :=
  match it with
  | Single d => digits_ok d && (dval d <=? MaxInt)
  | Range a b => digits_ok a && digits_ok b && (dval a <=? dval b) && (dval b <? MaxInt)
  end.

Definition item_ids (it : item) : list Z :=
  match it with
  | Single d => [dval d]
  | Range a b => range_from (dval a) (Z.to_nat (dval b - dval a + 1))
  end.

Definition text_of (items : list item) : string :=
  String.concat ","%string (map item_text items).

(** The canonical form: the distinct ids in increasing order, collapsed
    into maximal runs, joined by commas. *)
Definition canonical (items : list item) : string :=
  String.concat ","%string (map run_text (runs (merge_sort Z.le (remove_dups (flat_map item_ids items))))).

(** ** Auxiliary notions used in the proofs *)

Fixpoint has_char (c : ascii) (s : string) : bool :=
  match s with
  | EmptyString => false
  | String c' s' => Ascii.eqb c' c || has_char c s'
  end.

(** Pieces appended one after the other as [writeRange] appends them. *)
Fixpoint join_from (acc : string) (ps : list string) : string :=
  match ps with
  | [] => acc
  | p :: ps' =>
      join_from ((if (0 <? String.length acc)%nat then (acc ++ ",")%string else acc) ++ p)%string ps'
  end.

(** The set bits [j, j + n) of a word, in increasing order. *)
Fixpoint bits_from (m j : Z) (n : nat) : list Z :=
  match n with
  | O => []
  | S n' => if Z.testbit m j then j :: bits_from m (j + 1) n' else bits_from m (j + 1) n'
  end.

(** The word [k] of a mask, zero beyond its end. *)
Definition word_at (ms : list Z) (k : nat) : Z :=
  match ms !! k with Some m => m | None => 0 end.

(** Index [i] is in the mask. *)
Definition bitset (ms : list Z) (i : Z) : bool :=
  Z.testbit (word_at ms (Z.to_nat (i / MASKBITS))) (i mod MASKBITS).

(** The string [toString] builds for an index sequence. *)
Definition toString_of (l : list Z) : string :=
  let '(str, beg, end_) := ForEach_loop l toString_step (EmptyString, -1, -1) in
  writeRange str beg end_.

(** The indices a run stands for. *)
Definition run_ids (p : Z * Z) : list Z := range_from (fst p) (Z.to_nat (snd p - fst p + 1)).

End Idxset.

(* ------------------------------------------------------------------ *)
(** ** idxset: the other methods of dense and sparse sets *)

Module IdxsetOps.
Import Idxset.

Definition rbind {A B} (r : result A) (f : A -> result B) : result B :=
  match r with
  | Ok a => f a
  | Err => Err
  | Panic => Panic
  | Hang => Hang
  end.

(** *** dense (part_003) *)

(** [bits.OnesCount64]: the number of one bits among the 64 of a word. *)
Fixpoint ones_from (m j : Z) (n : nat) : Z :=
  match n with
  | O => 0
  | S n' => (if Z.testbit m j then 1 else 0) + ones_from m (j + 1) n'
  end.

Definition OnesCount64 (m : Z) : Z := ones_from m 0 64.

(** [dense.Size]. *)
Definition dense_Size (s : dense) : Z :=
  fold_left (fun size m => size + OnesCount64 m) (mask s) 0.

(** [dense.Indices]: [ForEach] with a callback appending every index. *)
Definition dense_Indices (s : dense) : list Z :=
  ForEach s (fun idx indices => (indices ++ [idx], false)) [].

Definition spans (ms : list Z) (idx : Z) : bool := maskidx idx <? Z.of_nat (length ms).

(** [s.mask[w] &^= 1 << b]; [None] is Go's index-out-of-range panic. *)
Definition clrbit (ms : list Z) (idx : Z) : option (list Z) :=
  let '(w, b) := bitidx idx in
  match ms !! Z.to_nat w with
  | Some m => Some (<[Z.to_nat w := Z.ldiff m (Z.shiftl 1 b)]> ms)
  | None => None
  end.

Definition getbit (ms : list Z) (idx : Z) : option Z :=
  let '(w, b) := bitidx idx in
  match ms !! Z.to_nat w with
  | Some m => Some (if Z.land m (Z.shiftl 1 b) =? 0 then 0 else 1)
  | None => None
  end.

Fixpoint dense_del_loop (ms : list Z) (indices : list Z) : result (list Z) :=
  match indices with
  | [] => Ok ms
  | idx :: indices' =>
      if idx <? 0 then Panic
      else if spans ms idx then
        match clrbit ms idx with
        | Some ms' => dense_del_loop ms' indices'
        | None => Panic
        end
      else dense_del_loop ms indices'
  end.

(** [dense.Del]. *)
Definition dense_Del (s : dense) (indices : list Z) : result dense :=
  rbind (dense_del_loop (mask s) indices) (fun ms => Ok (mkDense ms)).

Fixpoint dense_contains_loop (ms : list Z) (indices : list Z) : result bool :=
  match indices with
  | [] => Ok true
  | idx :: indices' =>
      if idx <? 0 then Panic
      else if negb (spans ms idx) then Ok false
      else match getbit ms idx with
           | Some 0 => Ok false
           | Some _ => dense_contains_loop ms indices'
           | None => Panic
           end
  end.

(** [dense.Contains]. *)
Definition dense_Contains (s : dense) (indices : list Z) : result bool :=
  dense_contains_loop (mask s) indices.

(** [newDenseSet(indices...)]: [Add] on an empty set. *)
Definition newDenseSet (indices : list Z) : result dense := dense_Add (mkDense []) indices.

(** [for i := from; i < from + n; i++ { s.mask[i] = f(s.mask[i], o.mask[i]) }]. *)
Fixpoint update_words (f : Z -> Z -> Z) (ms om : list Z) (i n : nat) : option (list Z) :=
  match n with
  | O => Some ms
  | S n' =>
      match ms !! i, om !! i with
      | Some x, Some y => update_words f (<[i := f x y]> ms) om (S i) n'
      | _, _ => None
      end
  end.

(** [dense.union]: [r.mask[i] = s.mask[i] | o.mask[i]] for the [min]
    common words, then the words of the longer mask past them. *)
Definition dense_union (s o : dense) : dense :=
  let '(min, m) :=
    if (length (mask s) <? length (mask o))%nat
    then (length (mask s), mask o) else (length (mask o), mask s) in
  mkDense (map (fun p => Z.lor (fst p) (snd p)) (combine (mask s) (mask o)) ++ drop min m).

(** [dense.unite]: a shorter receiver first takes a copy of [o.mask];
    then every word of the other mask is or-ed in. *)
Definition dense_unite (s o : dense) : result dense :=
  let '(target, src) :=
    if (length (mask s) <? length (mask o))%nat
    then (mask o, mask s) else (mask s, mask o) in
  match update_words Z.lor target src 0 (length src) with
  | Some ms => Ok (mkDense ms)
  | None => Panic
  end.

(** [dense.intersection]: the [min] common words and-ed. *)
Definition dense_intersection (s o : dense) : dense :=
  mkDense (map (fun p => Z.land (fst p) (snd p)) (combine (mask s) (mask o))).

(** [dense.intersect]: and the common words in place, cut to [min]. *)
Definition dense_intersect (s o : dense) : result dense :=
  let min := Nat.min (length (mask s)) (length (mask o)) in
  match update_words Z.land (mask s) (mask o) 0 min with
  | Some ms => Ok (mkDense (take min ms))
  | None => Panic
  end.

(** [dense.difference]: [s.mask[i] &^ o.mask[i]] for the common words,
    followed by the words of [s] past [o]'s end when [s] is longer. *)
Definition dense_difference (s o : dense) : dense :=
  let rest :=
    if (length (mask s) <? length (mask o))%nat then [] else drop (length (mask o)) (mask s) in
  mkDense (map (fun p => Z.ldiff (fst p) (snd p)) (combine (mask s) (mask o)) ++ rest).

(** [dense.subtract]: [s.mask[i] &^= o.mask[i]] for the common words. *)
Definition dense_subtract (s o : dense) : result dense :=
  let min := Nat.min (length (mask s)) (length (mask o)) in
  match update_words Z.ldiff (mask s) (mask o) 0 min with
  | Some ms => Ok (mkDense ms)
  | None => Panic
  end.

(** *** sparse (pkg/cgroups/discovery.go) *)

(** [len(s.members)]. *)
Definition sparse_Size (s : sparse) : Z := Z.of_nat (size (members s)).

Fixpoint sparse_del_loop (ms : gset Z) (indices : list Z) : result (gset Z) :=
  match indices with
  | [] => Ok ms
  | idx :: indices' => if idx <? 0 then Panic else sparse_del_loop (ms ∖ {[idx]}) indices'
  end.

(** [sparse.Del]. *)
Definition sparse_Del (s : sparse) (indices : list Z) : result sparse :=
  rbind (sparse_del_loop (members s) indices) (fun ms => Ok (mkSparse ms)).

Fixpoint sparse_contains_loop (ms : gset Z) (indices : list Z) : result bool :=
  match indices with
  | [] => Ok true
  | idx :: indices' =>
      if idx <? 0 then Panic
      else if bool_decide (idx ∈ ms) then sparse_contains_loop ms indices' else Ok false
  end.

(** [sparse.Contains]. *)
Definition sparse_Contains (s : sparse) (indices : list Z) : result bool :=
  sparse_contains_loop (members s) indices.

(** [for idx := range m { ... }] over a Go map: its keys in some order,
    here the order of [elements]; the results below do not depend on it. *)
Definition range_keys {B} (f : Z -> B -> B) (init : B) (m : gset Z) : B := set_fold f init m.

(** [sparse.union]: every member of [s], then every member of [o],
    stored in a fresh map. *)
Definition sparse_union (s o : sparse) : sparse :=
  let r := range_keys (fun idx r => {[idx]} ∪ r) ∅ (members s) in
  mkSparse (range_keys (fun idx r => {[idx]} ∪ r) r (members o)).

(** [sparse.unite]: every member of [o] stored into [s]. *)
Definition sparse_unite (s o : sparse) : sparse :=
  mkSparse (range_keys (fun idx ms => {[idx]} ∪ ms) (members s) (members o)).

(** [sparse.intersection]: the members of [s] found in [o]. *)
Definition sparse_intersection (s o : sparse) : sparse :=
  mkSparse (range_keys (fun idx r => if bool_decide (idx ∈ members o) then {[idx]} ∪ r else r)
                       ∅ (members s)).

(** [sparse.intersect]: the members of [s] missing from [o] deleted
    from [s] while ranging over it. *)
Definition sparse_intersect (s o : sparse) : sparse :=
  mkSparse (range_keys (fun idx ms => if bool_decide (idx ∈ members o) then ms else ms ∖ {[idx]})
                       (members s) (members s)).

(** [sparse.difference]: the members of [s] not found in [o]. *)
Definition sparse_difference (s o : sparse) : sparse :=
  mkSparse (range_keys (fun idx r => if bool_decide (idx ∈ members o) then r else {[idx]} ∪ r)
                       ∅ (members s)).

(** [sparse.subtract]: the members of [s] found in [o] deleted from [s]. *)
Definition sparse_subtract (s o : sparse) : sparse :=
  mkSparse (range_keys (fun idx ms => if bool_decide (idx ∈ members o) then ms ∖ {[idx]} else ms)
                       (members s) (members s)).

(** [newSparseSet(indices...)]. *)
Definition newSparseSet (indices : list Z) : sparse := NewSparseSet indices.

(** *** The IdxSet interface over both implementations *)

Inductive set :=
  | DenseSet (d : dense)
  | SparseSet (s : sparse).

(** [IdxSet.Indices]. *)
Definition Indices (x : set) : list Z :=
  match x with
  | DenseSet d => dense_Indices d
  | SparseSet s => sparse_Indices s
  end.

(** [IdxSet.Size]. *)
Definition Size (x : set) : Z :=
  match x with
  | DenseSet d => dense_Size d
  | SparseSet s => sparse_Size s
  end.

(** [IdxSet.Contains]. *)
Definition Contains (x : set) (indices : list Z) : result bool :=
  match x with
  | DenseSet d => dense_Contains d indices
  | SparseSet s => sparse_Contains s indices
  end.

(** The loop [for _, idx := range other.Indices() { if s.Contains(idx) {
    indices = append(indices, idx) } }] of [Intersection] and [Intersect]. *)
Fixpoint contained_loop (x : set) (l : list Z) : result (list Z) :=
  match l with
  | [] => Ok []
  | idx :: l' =>
      rbind (Contains x [idx]) (fun b =>
        rbind (contained_loop x l') (fun r => Ok (if b then idx :: r else r)))
  end.

(** [IdxSet.Union]. *)
Definition Union (x other : set) : result set :=
  match x, other with
  | DenseSet s, DenseSet o => Ok (DenseSet (dense_union s o))
  | DenseSet s, SparseSet _ => rbind (dense_Add s (Indices other)) (fun r => Ok (DenseSet r))
  | SparseSet s, SparseSet o => Ok (SparseSet (sparse_union s o))
  | SparseSet s, DenseSet _ => rbind (sparse_Add s (Indices other)) (fun r => Ok (SparseSet r))
  end.

(** [IdxSet.Intersection]. *)
Definition Intersection (x other : set) : result set :=
  match x, other with
  | DenseSet s, DenseSet o => Ok (DenseSet (dense_intersection s o))
  | DenseSet _, SparseSet _ =>
      rbind (contained_loop x (Indices other)) (fun indices =>
        rbind (newDenseSet indices) (fun r => Ok (DenseSet r)))
  | SparseSet s, SparseSet o => Ok (SparseSet (sparse_intersection s o))
  | SparseSet _, DenseSet _ =>
      rbind (contained_loop x (Indices other)) (fun indices =>
        Ok (SparseSet (newSparseSet indices)))
  end.

(** [IdxSet.Difference]. *)
Definition Difference (x other : set) : result set :=
  match x, other with
  | DenseSet s, DenseSet o => Ok (DenseSet (dense_difference s o))
  | DenseSet s, SparseSet _ => rbind (dense_Del s (Indices other)) (fun r => Ok (DenseSet r))
  | SparseSet s, SparseSet o => Ok (SparseSet (sparse_difference s o))
  | SparseSet s, DenseSet _ => rbind (sparse_Del s (Indices other)) (fun r => Ok (SparseSet r))
  end.

(** [IdxSet.Unite]: the receiver's new value. *)
Definition Unite (x other : set) : result set :=
  match x, other with
  | DenseSet s, DenseSet o => rbind (dense_unite s o) (fun r => Ok (DenseSet r))
  | DenseSet s, SparseSet _ => rbind (dense_Add s (Indices other)) (fun r => Ok (DenseSet r))
  | SparseSet s, SparseSet o => Ok (SparseSet (sparse_unite s o))
  | SparseSet s, DenseSet _ => rbind (sparse_Add s (Indices other)) (fun r => Ok (SparseSet r))
  end.

(** [IdxSet.Intersect]: [*s = *newDenseSet(indices...)] (resp. sparse)
    for a receiver of the other kind. *)
Definition Intersect (x other : set) : result set :=
  match x, other with
  | DenseSet s, DenseSet o => rbind (dense_intersect s o) (fun r => Ok (DenseSet r))
  | DenseSet _, SparseSet _ =>
      rbind (contained_loop x (Indices other)) (fun indices =>
        rbind (newDenseSet indices) (fun r => Ok (DenseSet r)))
  | SparseSet s, SparseSet o => Ok (SparseSet (sparse_intersect s o))
  | SparseSet _, DenseSet _ =>
      rbind (contained_loop x (Indices other)) (fun indices =>
        Ok (SparseSet (newSparseSet indices)))
  end.

(** [IdxSet.Subtract]. *)
Definition Subtract (x other : set) : result set :=
  match x, other with
  | DenseSet s, DenseSet o => rbind (dense_subtract s o) (fun r => Ok (DenseSet r))
  | DenseSet s, SparseSet _ => rbind (dense_Del s (Indices other)) (fun r => Ok (DenseSet r))
  | SparseSet s, SparseSet o => Ok (SparseSet (sparse_subtract s o))
  | SparseSet s, DenseSet _ => rbind (sparse_Del s (Indices other)) (fun r => Ok (SparseSet r))
  end.

(** [IdxSet.Equals]. *)
Definition Equals (x other : set) : result bool :=
  match x, other with
  | DenseSet s, DenseSet o => Ok (dense_equals s o)
  | SparseSet s, SparseSet o => Ok (sparse_equals s o)
  | _, _ =>
      let indices := Indices other in
      rbind (Contains x indices) (fun b =>
        if negb b then Ok false
        else Ok (Nat.eqb (length (Indices x)) (length indices)))
  end.

(** Membership in the representation: the bit of a dense mask, the key of
    a sparse map. *)
Definition elem (x : set) (i : Z) : bool :=
  match x with
  | DenseSet d => bitset (mask d) i
  | SparseSet s => bool_decide (i ∈ members s)
  end.

(** The representations the constructors and [Add] build: 64-bit words,
    non-negative keys. *)
Definition wf (x : set) : Prop :=
  match x with
  | DenseSet d => Forall (fun m => 0 <= m < 2 ^ 64) (mask d)
  | SparseSet s => set_Forall (fun i => 0 <= i) (members s)
  end.

End IdxsetOps.

(* ================================================================== *)
(** * Theorems *)

Module MemtierFacts.
Import Memtier Fixtures.

(** Claim C1 (counterexample).  Release after a matching Allocate does not
    restore the tree: on the single-pool desktop, allocating half a CPU
    and one unit of memory and releasing the grant on the same pool leaves
    [grantedMem] at 1 instead of 0, since the memory branch of [Release]
    is an [else if] that is never reached when [cpuNode == memoryNode]. *)
Lemma allocate_release_not_roundtrip :
  ~ (forall (t : tree) (fs : frees) (q : nat) (r : request) (fs1 : frees) (g : grant),
        Allocate t fs q r = (fs1, Ok g) -> Release t fs1 q g = fs).
Proof.
  intro H.
  destruct (Allocate desk desk_free 0%nat req_shared) as [fs1 [g | m]] eqn:E;
    pose proof E as E'; vm_compute in E'; inversion E'; subst.
  specialize (H desk desk_free 0%nat req_shared _ _ E).
  vm_compute in H. discriminate H.
Qed.

(** Claim C1, evaluated: the state after Allocate then Release on the
    desktop differs from the initial one only in [grantedMem] (1, not 0). *)
Lemma allocate_release_desk_grantedMem :
  match Allocate desk desk_free 0%nat req_shared with
  | (fs1, Ok g) =>
      free_at (Release desk fs1 0%nat g) 0%nat = with_grantedMem desk_supply 1
  | (_, Error _) => False
  end.
Proof. vm_compute. reflexivity. Qed.

End MemtierFacts.

Module GrantFacts.
Import Memtier Scoring Fixtures.

Ltac break_matches_in H :=
  repeat match type of H with
  | context [match ?x with _ => _ end] => destruct x eqn:?
  end.

(** A successful [Allocate] returns a grant built by [newGrant] on the
    pool of the allocating supply. *)
Lemma Allocate_Ok_newGrant (t : tree) (fs fs1 : frees) (q : nat) (r : request) (g : grant) :
  Allocate t fs q r = (fs1, Ok g) ->
  exists n excl, g = newGrant t r n (r_container r) excl
                            (fraction r) (r_memType r) (memLim r).
Proof.
  unfold Allocate. intro H.
  break_matches_in H; try discriminate; inversion H; subst; clear H;
    repeat match goal with
    | E : Some _ = Some _ |- _ => inversion E; subst; clear E
    end;
    do 2 eexists; reflexivity.
Qed.

(** Claim C10.  Every grant produced by [Supply.Allocate] has its CPU node
    equal to its memory node, and this stays so through any sequence of
    method calls on the grant that does not call [SetMemoryNode]. *)
Theorem Allocate_grant_cpu_node_is_memory_node
    (t : tree) (fs fs1 : frees) (q : nat) (r : request) (g : grant)
    (ms : list grant_method) :
  Allocate t fs q r = (fs1, Ok g) ->
  forallb (fun m => negb (is_SetMemoryNode m)) ms = true ->
  g_node (fold_left (grant_call t) ms g) = g_memoryNode (fold_left (grant_call t) ms g).
Proof.
  intros HA Hms.
  destruct (Allocate_Ok_newGrant _ _ _ _ _ _ HA) as [n [excl ->]].
  set (g0 := newGrant _ _ _ _ _ _ _ _).
  assert (Hg0 : g_node g0 = g_memoryNode g0) by reflexivity.
  clearbody g0. revert g0 Hg0.
  induction ms as [|m ms IH]; intros g0 Hg0; simpl in *; [exact Hg0|].
  apply andb_prop in Hms as [Hm Hms].
  apply IH; [exact Hms|].
  destruct m; simpl in Hm |- *; first [discriminate | exact Hg0].
Qed.

Lemma Allocate_grant_cpu_node_is_memory_node_witness :
  forallb (fun m => negb (is_SetMemoryNode m)) [GetCPUNode; MemLimit; StringM] = true /\
  match Allocate desk desk_free 0%nat req_shared with
  | (fs1, Ok g) =>
      g_node (fold_left (grant_call desk) [GetCPUNode; MemLimit; StringM] g) =
      g_memoryNode (fold_left (grant_call desk) [GetCPUNode; MemLimit; StringM] g)
  | (_, Error _) => True
  end.
Proof.
  split; [reflexivity|].
  destruct (Allocate desk desk_free 0%nat req_shared) as [fs1 [g|m]] eqn:E; [|exact I].
  apply (Allocate_grant_cpu_node_is_memory_node desk desk_free fs1 0%nat req_shared g).
  - exact E.
  - reflexivity.
Defined.

(** Claim C3, evaluated.  On the desktop (4 sharable CPUs, nothing
    granted) a request for 4 full CPUs falls through both cases of the
    exclusive-CPU switch, since (4000 - 0) / 1000 > 4 fails, and Allocate
    still succeeds, with an empty exclusive set.  On the desktop with CPU 0
    isolated, a request for 1 full CPU that did not opt in to isolation
    gets the isolated CPU 0. *)
Lemma Allocate_exclusive_cases_desk :
  match Allocate desk desk_free 0%nat req_full4 with
  | (_, Ok g) => full req_full4 = 4 /\ exclusive g = []
  | (_, Error _) => False
  end /\
  match Allocate desk_iso desk_iso_free 0%nat req_full1 with
  | (_, Ok g) => isolate req_full1 = false /\ exclusive g = [0] /\ isolated iso_supply = [0]
  | (_, Error _) => False
  end.
Proof. vm_compute. repeat split. Qed.

End GrantFacts.

Module ScoreFacts.
Import Memtier Scoring Fixtures.

(** Claim C7 (counterexample).  The scorer does not always subtract
    [max(fraction, 1)]: for one full CPU with no fraction on the desktop
    (4 sharable CPUs, nothing granted) it reports 3000 remaining shared
    milli-CPU, not 4000 - 1000 - 1 = 2999.  Nor does it subtract
    [1000 * full] only for non-isolated requests. *)
Lemma GetScore_shared_not_max_fraction :
  ~ (forall (allocs : allocations) (gsc : Z) (hs : list Q) (cs : supply) (cr : request),
        sc_shared (GetScore allocs gsc hs cs cr) =
          1000 * CPUSet.size (sharable cs) - gsc
          - (if isolate cr then 0 else 1000 * full cr) - Z.max (fraction cr) 1 /\
        sc_isolated (GetScore allocs gsc hs cs cr) =
          (if isolate cr then CPUSet.size (isolated cs) - full cr else 0)).
Proof.
  intro H.
  destruct (H [] 0 [] desk_supply req_full1) as [Hs _].
  vm_compute in Hs. discriminate Hs.
Qed.

(** Claim C7 (amended).  [isolatedRemaining] is [|isolated| - full] for
    an isolated request and 0 otherwise; [sharedRemaining] is
    [1000 * |sharable| - GrantedSharedCPU], minus [1000 * full] when the
    request is not isolated or [isolatedRemaining < 0], minus the fraction,
    which counts as 1 when both [full] and [fraction] are 0. *)
Theorem GetScore_remaining_capacities
    (allocs : allocations) (gsc : Z) (hs : list Q) (cs : supply) (cr : request) :
  sc_isolated (GetScore allocs gsc hs cs cr) =
    (if isolate cr then CPUSet.size (isolated cs) - full cr else 0) /\
  sc_shared (GetScore allocs gsc hs cs cr) =
    1000 * CPUSet.size (sharable cs) - gsc
    - (if isolate cr && (0 <=? CPUSet.size (isolated cs) - full cr) then 0
       else 1000 * full cr)
    - (if (full cr =? 0) && (fraction cr =? 0) then 1 else fraction cr).
Proof.
  unfold GetScore; simpl.
  split; [reflexivity|].
  destruct (isolate cr); simpl;
    [destruct (Z.leb_spec 0 (CPUSet.size (isolated cs) - full cr));
     destruct (Z.ltb_spec (CPUSet.size (isolated cs) - full cr) 0); simpl; lia
    | lia].
Qed.

End ScoreFacts.

Module SelectorFacts.
Import Memtier Scoring Selector Fixtures SelectorFixtures.

(** Claim C2, evaluated.  On the socket with two NUMA leaves, for two full
    CPUs and 4 units of memory, leaf 1 is filtered out (1 unit free) and
    the survivors are [root; leaf 2].  Sorting compares [p.pools[1]] (leaf
    1) with [p.pools[0]] (the root) instead of the survivors at those
    positions, so the slice becomes [leaf 2; root]; yet on their own
    scores the root beats leaf 2 (leaf 2 has negative shared capacity,
    rule 1), and the allocator then grants from leaf 2. *)
Lemma sortPoolsByScore_head_compared_by_pool_index :
  let aff := calculatePoolAffinities server_policy server_env in
  let scores := scoreOf server_policy server_env req_two in
  filterInsufficientResources server server_env req_two [0%nat; 1%nat; 2%nat] = [0%nat; 2%nat] /\
  snd (sortPoolsByScore server_policy server_env req_two aff) = [2%nat; 0%nat] /\
  sc_shared (scores 2%nat) = -1000 /\
  compareNodes server req_two scores aff 0%nat 2%nat = true /\
  compareNodes server req_two scores aff 2%nat 0%nat = false /\
  match snd (allocatePool server_policy server_env web req_two) with
  | Granted g => g_node g = 2%nat /\ exclusive g = []
  | _ => False
  end.
Proof. vm_compute. repeat split. Qed.

(** Claim C4, evaluated.  On the desktop with 16 units free, a request
    whose memory limit is exactly 16 is filtered out, although
    [Supply.Allocate] on that pool accepts it. *)
Lemma filter_drops_exact_fit :
  filterInsufficientResources desk desk_env (req_mem 16) [0%nat] = [] /\
  match snd (Allocate desk desk_free 0%nat (req_mem 16)) with
  | Ok g => memlimit g = 16
  | Error _ => False
  end.
Proof. vm_compute. split; reflexivity. Qed.

(** Claim C5, evaluated.  When no pool survives the filter (17 units
    asked on the 16-unit desktop), [allocatePool] indexes the empty sorted
    slice and panics; only the kube-system path, which skips the filter,
    reports an error. *)
Lemma allocatePool_panics_when_nothing_survives :
  snd (sortPoolsByScore desk_policy desk_env (req_mem 17)
         (calculatePoolAffinities desk_policy desk_env)) = [] /\
  snd (allocatePool desk_policy desk_env web (req_mem 17)) =
    Panicked "runtime error: index out of range [0] with length 0" /\
  match snd (allocatePool desk_policy desk_env sysc (req_mem 17)) with
  | Failed _ => True
  | _ => False
  end.
Proof. vm_compute. repeat split. Qed.

End SelectorFacts.

Module LifecycleFacts.
Import Memtier Scoring Selector Lifecycle.

Section FreeAt.
Lemma free_at_set_free_eq (fs : frees) n s :
  (n < length fs)%nat -> free_at (set_free fs n s) n = s.
Proof. intros H. unfold free_at, set_free, frees in *. rewrite list_lookup_insert_eq; auto. Qed.

Lemma free_at_set_free_ne (fs : frees) m n s :
  m <> n -> free_at (set_free fs m s) n = free_at fs n.
Proof. intros H. unfold free_at, set_free, frees in *. rewrite list_lookup_insert_ne; auto. Qed.

Lemma set_free_ge (fs : frees) n s : (length fs <= n)%nat -> set_free fs n s = fs.
Proof. intros H. unfold set_free. apply list_insert_ge. exact H. Qed.

Lemma length_set_free (fs : frees) n s : length (set_free fs n s) = length fs.
Proof. unfold set_free. apply length_insert. Qed.

Lemma free_at_ge (fs : frees) n : (length fs <= n)%nat -> free_at fs n = default_supply.
Proof. intros H. unfold free_at, frees in *. rewrite (proj2 (lookup_ge_None fs n) H). reflexivity. Qed.
End FreeAt.

Lemma difference_nil (a : CPUSet.t) : CPUSet.difference a [] = a.
Proof.
  unfold CPUSet.difference. induction a as [|x a IH]; [reflexivity|].
  cbn. f_equal. exact IH.
Qed.

Lemma length_union_l (a b : CPUSet.t) : (length a <= length (CPUSet.union a b))%nat.
Proof.
  revert b. induction a as [|x a IH]; intros b; simpl; [lia|].
  induction b as [|y b IHb]; [simpl; lia|].
  destruct (x <? y); [simpl; specialize (IH (y :: b)); lia|].
  destruct (x =? y); simpl; [specialize (IH b); lia|]. lia.
Qed.

(** [AccountAllocate] over a list of pools. *)
Lemma AccountAllocate_fold (ls : list nat) (g : grant) (fs : frees) :
  let fs' := fold_left (fun acc n => AccountAllocate acc n g) ls fs in
  length fs' = length fs /\
  forall n, s_node (free_at fs' n) = s_node (free_at fs n) /\
            granted (free_at fs' n) = granted (free_at fs n) /\
            (sharable (free_at fs' n) = sharable (free_at fs n) \/
             (In n ls /\ s_node (free_at fs n) <> g_node g /\ exclusive g <> [])).
Proof.
  revert fs. induction ls as [|m ls IH]; intros fs; simpl.
  - split; [reflexivity|]. intros n. auto.
  - destruct (IH (AccountAllocate fs m g)) as [HL HN]. split.
    + rewrite HL. unfold AccountAllocate. destruct (Nat.eqb _ _); [reflexivity|]. apply length_set_free.
    + intros n. destruct (HN n) as (H1 & H2 & H3). rewrite H1, H2.
      unfold AccountAllocate in *.
      destruct (Nat.eqb (s_node (free_at fs m)) (g_node g)) eqn:E.
      * split; [reflexivity|]. split; [reflexivity|]. destruct H3 as [H3|(?&?&?)]; auto.
      * destruct (decide (m = n)) as [<-|Hmn].
        -- destruct (decide (m < length fs)%nat) as [Hlt|Hge].
           ++ rewrite free_at_set_free_eq in H1, H2, H3 |- * by exact Hlt. simpl in *.
              apply Nat.eqb_neq in E.
              split; [reflexivity|]. split; [reflexivity|].
              destruct (decide (exclusive g = [])) as [He|He].
              ** left. destruct H3 as [H3|(?&?&?)]; [|contradiction].
                 rewrite H3, He, !difference_nil. reflexivity.
              ** right. auto.
           ++ rewrite set_free_ge in H1, H2, H3 |- * by lia.
              split; [reflexivity|]. split; [reflexivity|].
              destruct H3 as [H3|(?&?&?)]; auto.
        -- rewrite free_at_set_free_ne in H1, H2, H3 |- * by exact Hmn.
           split; [reflexivity|]. split; [reflexivity|].
           destruct H3 as [H3|(?&?&?)]; auto.
Qed.

Lemma AccountRelease_fold (t : tree) (ls : list nat) (g : grant) (fs : frees) :
  let fs' := fold_left (fun acc n => AccountRelease t acc n g) ls fs in
  length fs' = length fs /\
  forall n, s_node (free_at fs' n) = s_node (free_at fs n) /\
            granted (free_at fs' n) = granted (free_at fs n) /\
            (length (sharable (free_at fs n)) <= length (sharable (free_at fs' n)))%nat.
Proof.
  revert fs. induction ls as [|m ls IH]; intros fs; simpl.
  - split; [reflexivity|]. intros n. auto.
  - destruct (IH (AccountRelease t fs m g)) as [HL HN]. split.
    + rewrite HL. unfold AccountRelease. destruct (Nat.eqb _ _); [reflexivity|]. apply length_set_free.
    + intros n. destruct (HN n) as (H1 & H2 & H3). rewrite H1, H2.
      enough (s_node (free_at (AccountRelease t fs m g) n) = s_node (free_at fs n) /\
              granted (free_at (AccountRelease t fs m g) n) = granted (free_at fs n) /\
              (length (sharable (free_at fs n)) <=
               length (sharable (free_at (AccountRelease t fs m g) n)))%nat)
        by (split; [tauto|]; split; [tauto|]; lia).
      unfold AccountRelease.
      destruct (Nat.eqb (s_node (free_at fs m)) (g_node g)); [auto|].
      destruct (decide (m = n)) as [<-|Hmn].
      * destruct (decide (m < length fs)%nat) as [Hlt|Hge].
        -- rewrite free_at_set_free_eq by exact Hlt. simpl.
           split; [reflexivity|]. split; [reflexivity|]. apply length_union_l.
        -- rewrite set_free_ge by lia. auto.
      * rewrite free_at_set_free_ne by exact Hmn. auto.
Qed.

Lemma supply_step_trans cs1 cs2 cs3 :
  supply_step cs1 cs2 -> supply_step cs2 cs3 -> supply_step cs1 cs3.
Proof.
  unfold supply_step. intros (A1 & B1 & C1) (A2 & B2 & C2).
  split; [congruence|]. split; [lia|]. intros H. apply C2. specialize (C1 H). lia.
Qed.

Lemma supply_step_isolated cs x : supply_step cs (with_isolated cs x).
Proof. unfold supply_step; simpl. lia. Qed.

Lemma supply_step_grantedMem cs x : supply_step cs (with_grantedMem cs x).
Proof. unfold supply_step; simpl. lia. Qed.

Lemma takeCPUs_Some (from excl rest : CPUSet.t) cnt :
  0 <= cnt -> takeCPUs from cnt = Some (excl, rest) ->
  CPUSet.size rest = CPUSet.size from - cnt.
Proof.
  unfold takeCPUs, AllocateCpus, CPUSet.size. intros Hc.
  destruct (Z.of_nat (length from) <? cnt) eqn:E; [discriminate|].
  intros [= _ <-]. apply Z.ltb_ge in E. rewrite length_skipn. lia.
Qed.

Lemma supply_step_slice cs cnt rest :
  0 < cnt ->
  Z.quot (1000 * CPUSet.size (sharable cs) - granted cs) 1000 > cnt ->
  CPUSet.size rest = CPUSet.size (sharable cs) - cnt ->
  supply_step cs (with_sharable cs rest).
Proof.
  unfold supply_step; simpl. intros Hc Hq Hs. split; [reflexivity|]. split; [lia|].
  intros _. rewrite Hs.
  set (x := 1000 * CPUSet.size (sharable cs) - granted cs) in *.
  pose proof (Z.quot_rem' x 1000) as Hqr.
  destruct (Z_le_gt_dec 0 x) as [Hx|Hx].
  - pose proof (Z.rem_bound_pos x 1000 Hx ltac:(lia)).
    set (qq := Z.quot x 1000) in *. set (rr := Z.rem x 1000) in *. unfold x in *. lia.
  - pose proof (Z.rem_bound_pos_neg x 1000 ltac:(lia) ltac:(lia)).
    set (qq := Z.quot x 1000) in *. set (rr := Z.rem x 1000) in *. lia.
Qed.

Lemma supply_step_fraction cs f :
  0 < f -> (1000 * CPUSet.size (sharable cs) - granted cs <? f) = false ->
  supply_step cs (with_granted cs (granted cs + f)).
Proof.
  unfold supply_step; simpl. intros Hf E. apply Z.ltb_ge in E. lia.
Qed.

Ltac alloc_mem_tail cs2 S2 G2 :=
  destruct (u64 (slowMem cs2 + normMem cs2 + fastMem cs2 - grantedMem cs2) <? memLim _);
  [simpl; right; exists cs2; split; [exact S2 | reflexivity]
  |simpl; eexists; split;
     [eapply supply_step_trans; [exact S2 | apply supply_step_grantedMem]|];
   simpl; split; [lia|]; split; [lia|];
   split; [destruct S2 as (S2n & _); exact S2n | reflexivity]].

Ltac alloc_tail cs cs1 r S1 G1 :=
  destruct (0 <? fraction r) eqn:F;
  [destruct (1000 * CPUSet.size (sharable cs1) - granted cs1 <? fraction r) eqn:F2;
   [simpl; right; exists cs1; split; [exact S1 | reflexivity]
   |assert (S2 : supply_step cs (with_granted cs1 (granted cs1 + fraction r)))
      by (eapply supply_step_trans; [exact S1 | apply supply_step_fraction;
            [apply Z.ltb_lt; exact F | exact F2]]);
    assert (G2 : granted (with_granted cs1 (granted cs1 + fraction r)) = granted cs + fraction r)
      by (simpl; lia);
    let cs2 := fresh "cs2" in
    set (cs2 := with_granted cs1 (granted cs1 + fraction r)) in *;
    clearbody cs2; alloc_mem_tail cs2 S2 G2]
  |apply Z.ltb_ge in F;
   assert (G2 : granted cs1 = granted cs + fraction r) by lia;
   alloc_mem_tail cs1 S1 G2].

Lemma Allocate_shape t fs q r :
  0 <= fraction r ->
  match Allocate t fs q r with
  | (fs', Ok g) =>
      exists cs', supply_step (free_at fs q) cs' /\
        granted cs' = granted (free_at fs q) + portion g /\ 0 <= portion g /\
        g_node g = s_node (free_at fs q) /\
        fs' = fold_left (fun acc n => AccountAllocate acc n g) (DepthFirst t (g_node g))
                (set_free fs q cs')
  | (fs', Error _) =>
      fs' = fs \/ exists cs', supply_step (free_at fs q) cs' /\ fs' = set_free fs q cs'
  end.
Proof.
  intros Hf. unfold Allocate. cbv zeta.
  set (cs := free_at fs q).
  destruct ((0 <? full r) && (full r <=? CPUSet.size (isolated cs))) eqn:C1.
  - destruct (takeCPUs (isolated cs) (full r)) as [[excl rest]|] eqn:T; [|left; reflexivity].
    set (cs1 := with_isolated cs rest).
    assert (S1 : supply_step cs cs1) by apply supply_step_isolated.
    assert (G1 : granted cs1 = granted cs) by reflexivity.
    clearbody cs1. alloc_tail cs cs1 r S1 G1.
  - destruct ((0 <? full r) &&
              (Z.quot (1000 * CPUSet.size (sharable cs) - granted cs) 1000 >? full r)) eqn:C2.
    + destruct (takeCPUs (sharable cs) (full r)) as [[excl rest]|] eqn:T; [|left; reflexivity].
      apply andb_true_iff in C2 as [C2a C2b]. apply Z.ltb_lt in C2a. apply Z.gtb_lt in C2b.
      set (cs1 := with_sharable cs rest).
      assert (S1 : supply_step cs cs1)
        by (apply (supply_step_slice cs (full r)); [lia | lia |
              apply (takeCPUs_Some _ excl); [lia | exact T]]).
      assert (G1 : granted cs1 = granted cs) by reflexivity.
      clearbody cs1. alloc_tail cs cs1 r S1 G1.
    + assert (S1 : supply_step cs cs) by (unfold supply_step; lia).
      assert (G1 : granted cs = granted cs) by reflexivity.
      alloc_tail cs cs r S1 G1.
Qed.

Lemma Release_shape t fs q g :
  s_node (free_at fs q) = g_node g ->
  exists cs', s_node cs' = s_node (free_at fs q) /\
    granted cs' = granted (free_at fs q) - portion g /\
    (length (sharable (free_at fs q)) <= length (sharable cs'))%nat /\
    Release t fs q g =
      fold_left (fun acc n => AccountRelease t acc n g) (DepthFirst t (s_node (free_at fs q)))
        (set_free fs q cs').
Proof.
  intros H. unfold Release. cbv zeta. rewrite H, Nat.eqb_refl. rewrite <- H.
  refine (ex_intro _ _ (conj _ (conj _ (conj _ eq_refl)))); simpl;
    [reflexivity | reflexivity | apply length_union_l].
Qed.

Lemma Forall_swap {A} (P : A -> Prop) (l : list A) i j :
  Forall P l -> Forall P (swap l i j).
Proof.
  intros H. unfold swap.
  destruct (l !! i) as [x|] eqn:Ei; [|exact H].
  destruct (l !! j) as [y|] eqn:Ej; [|exact H].
  apply Forall_insert; [apply Forall_insert; [exact H|] |].
  - exact (Forall_lookup_1 _ _ _ _ H Ei).
  - exact (Forall_lookup_1 _ _ _ _ H Ej).
Qed.

Lemma Forall_sink {A} (P : A -> Prop) less (l : list A) j :
  Forall P l -> Forall P (sink less l j).
Proof.
  revert l. induction j as [|j IH]; intros l H; simpl; [exact H|].
  destruct (less (S j) j); [apply IH, Forall_swap, H | exact H].
Qed.

Lemma Forall_sortSlice {A} (P : A -> Prop) (l : list A) less :
  Forall P l -> Forall P (sortSlice l less).
Proof.
  unfold sortSlice. generalize (seq 1 (length l - 1)) as ks. intros ks.
  revert l. induction ks as [|k ks IH]; intros l H; simpl; [exact H|].
  apply IH, Forall_sink, H.
Qed.

Lemma Forall_filter_loop (P : nat -> Prop) t e req nodes infos :
  Forall P nodes -> Forall P (filter_loop t e req nodes infos).
Proof.
  revert infos. induction nodes as [|m nodes IH]; intros infos H; simpl; [constructor|].
  inversion H as [|? ? Hm Hs]; subst.
  destruct (getNodeFreeMemory t e m infos) as [infos' [free|]].
  - destruct (memLim req <? free); [constructor; [exact Hm|]|]; apply IH, Hs.
  - apply IH, Hs.
Qed.

Lemma sum_portions_nonneg n (a : allocations) :
  Forall (fun kv => 0 <= portion (snd kv)) a -> 0 <= sum_portions n a.
Proof.
  induction a as [|[k g] a IH]; intros H; simpl; [lia|].
  inversion H as [|? ? Hg Ha]; subst. specialize (IH Ha). simpl in Hg.
  destruct (Nat.eqb (g_node g) n); lia.
Qed.

Lemma sum_portions_filter n (a : allocations) (k : Z) :
  Forall (fun kv => 0 <= portion (snd kv)) a ->
  sum_portions n (filter (fun kv => negb (Z.eqb (fst kv) k)) a) <= sum_portions n a.
Proof.
  induction a as [|[k' g] a IH]; intros H; simpl; [lia|].
  inversion H as [|? ? Hg Ha]; subst. specialize (IH Ha). simpl in Hg.
  unfold allocations in *. rewrite filter_cons. case_decide; simpl; destruct (Nat.eqb (g_node g) n); lia.
Qed.

Lemma sum_portions_release n (a : allocations) (k : Z) g :
  Forall (fun kv => 0 <= portion (snd kv)) a ->
  assoc_find k a = Some g ->
  sum_portions n (filter (fun kv => negb (Z.eqb (fst kv) k)) a) +
    (if Nat.eqb (g_node g) n then portion g else 0) <= sum_portions n a.
Proof.
  induction a as [|[k' g'] a IH]; intros H Hf; simpl in *; [discriminate|].
  inversion H as [|? ? Hg Ha]; subst. specialize (IH Ha). simpl in Hg.
  pose proof (sum_portions_filter n a k Ha).
  destruct (Z.eqb k k') eqn:E.
  - injection Hf as ->. apply Z.eqb_eq in E. subst k'.
    unfold allocations in *. rewrite filter_cons. case_decide as Hd; simpl in Hd; [rewrite Z.eqb_refl in Hd; simpl in Hd; contradiction|].
    destruct (Nat.eqb (g_node g) n); lia.
  - specialize (IH Hf). rewrite Z.eqb_sym in E.
    unfold allocations in *. rewrite filter_cons. case_decide as Hd; simpl in Hd; [|rewrite E in Hd; simpl in Hd; exfalso; apply Hd; exact I].
    simpl. destruct (Nat.eqb (g_node g') n); lia.
Qed.

Lemma assoc_find_In {A} k (a : list (Z * A)) v : assoc_find k a = Some v -> In (k, v) a.
Proof.
  induction a as [|[k' v'] a IH]; simpl; [discriminate|].
  destruct (Z.eqb k k') eqn:E; intros H.
  - injection H as <-. apply Z.eqb_eq in E. subst. left. reflexivity.
  - right. apply IH, H.
Qed.

Lemma Forall_filter_allocs (P : Z * grant -> Prop) (a : allocations) k :
  Forall P a -> Forall P (filter (fun kv => negb (Z.eqb (fst kv) k)) a).
Proof.
  induction a as [|kv a IH]; intros H; simpl; [constructor|].
  inversion H; subst. unfold allocations in *. rewrite filter_cons. case_decide; [constructor|]; auto.
Qed.

Lemma inv_granted_nonneg p n : lifecycle_inv p -> 0 <= granted (free_at (pol_frees p) n).
Proof.
  intros (_ & _ & _ & Ha & Hs). specialize (Hs n).
  assert (0 <= sum_portions n (pol_allocs p)); [|lia].
  apply sum_portions_nonneg. eapply Forall_impl; [exact Ha|]. intros x [_ Hx]. exact Hx.
Qed.


Lemma step_release p c n :
  lifecycle_inv p ->
  lifecycle_inv (fst (releasePool p c)) /\ pol_tree (fst (releasePool p c)) = pol_tree p /\
  (cpu_bound_at p n -> cpu_bound_at (fst (releasePool p c)) n).
Proof.
  intros Hinv. pose proof Hinv as (Hw & Hr & Hp & Ha & Hs).
  unfold releasePool.
  destruct (assoc_find (c_cacheID c) (pol_allocs p)) as [g|] eqn:Ef; simpl; [|auto].
  pose proof (assoc_find_In _ _ _ Ef) as Hin.
  destruct (proj1 (List.Forall_forall _ _) Ha _ Hin) as [Hgl Hgp]. simpl in Hgl, Hgp.
  set (fs := pol_frees p) in *. set (t := pol_tree p) in *.
  assert (Hsq : s_node (free_at fs (g_node g)) = g_node g) by (apply Hw; exact Hgl).
  destruct (Release_shape t fs (g_node g) g Hsq) as (cs' & Hn' & Hg' & Hl' & HR). rewrite HR.
  destruct (AccountRelease_fold t (DepthFirst t (s_node (free_at fs (g_node g)))) g
              (set_free fs (g_node g) cs')) as [HL HN].
  set (fs' := fold_left _ _ (set_free fs (g_node g) cs')) in *.
  rewrite length_set_free in HL.
  (* the free supply of pool [m] after the update of [g_node g] *)
  assert (H1 : forall m, s_node (free_at fs' m) = s_node (free_at fs m) /\
                         granted (free_at fs' m) =
                           granted (free_at fs m) - (if Nat.eqb (g_node g) m then portion g else 0) /\
                         (length (sharable (free_at fs m)) <= length (sharable (free_at fs' m)))%nat).
  { intros m. destruct (HN m) as (A & B & C). rewrite A, B.
    destruct (decide (g_node g = m)) as [<-|Hne].
    - rewrite free_at_set_free_eq in * by exact Hgl. rewrite Nat.eqb_refl.
      split; [exact Hn'|]. split; [exact Hg'|]. lia.
    - rewrite free_at_set_free_ne in * by exact Hne.
      apply Nat.eqb_neq in Hne. rewrite Hne. split; [reflexivity|]. split; [lia|]. exact C. }
  assert (Hinv' : lifecycle_inv (mkPolicy t (pol_root p) (pol_pools p) fs'
                     (filter (fun kv => negb (Z.eqb (fst kv) (c_cacheID c))) (pol_allocs p)))).
  { unfold lifecycle_inv; simpl. rewrite HL. split; [|split; [exact Hr|split; [exact Hp|split]]].
    - intros m Hm. rewrite (proj1 (H1 m)). apply Hw, Hm.
    - apply Forall_filter_allocs, Ha.
    - intros m. destruct (H1 m) as (_ & B & _). rewrite B.
      pose proof (sum_portions_release m (pol_allocs p) (c_cacheID c) g) as Hsr.
      specialize (Hs m).
      assert (Forall (fun kv => 0 <= portion (snd kv)) (pol_allocs p))
        by (eapply Forall_impl; [exact Ha|]; intros x [_ Hx]; exact Hx).
      specialize (Hsr ltac:(assumption) Ef). clearbody fs' fs t. lia. }
  split; [exact Hinv'|]. split; [reflexivity|].
  intros [Hb1 Hb2]. split; [exact (inv_granted_nonneg _ n Hinv')|]. simpl. fold fs in Hb1, Hb2.
  destruct (H1 n) as (_ & B & C). rewrite B. unfold CPUSet.size in *.
  destruct (Nat.eqb (g_node g) n); lia.
Qed.

Lemma pick_valid p e c r q (P : nat -> Prop) :
  P (pol_root p) -> Forall P (pol_pools p) ->
  (if String.eqb (c_namespace c) NamespaceSystem then Some (pol_root p)
   else
     let affinity := calculatePoolAffinities p e in
     let (_, pools) := sortPoolsByScore p e r affinity in
     match pools with
     | [] => None
     | n :: _ => Some n
     end) = Some q -> P q.
Proof.
  intros Hr Hp. destruct (String.eqb (c_namespace c) NamespaceSystem).
  - intros [= <-]. exact Hr.
  - unfold sortPoolsByScore. cbv zeta.
    pose proof (Forall_sortSlice P
      (filterInsufficientResources (pol_tree p) e r (pol_pools p))
      (fun i j => compareScores (pol_tree p) (pol_pools p) r (scoreOf p e r)
                    (calculatePoolAffinities p e) i j)
      (Forall_filter_loop P _ _ _ _ _ Hp)) as Hs.
    destruct (sortSlice _ _) as [|q' l]; [discriminate|].
    intros [= <-]. inversion Hs; assumption.
Qed.

Lemma sum_portions_cons n kv (a : allocations) :
  sum_portions n (kv :: a) =
    (if Nat.eqb (g_node (snd kv)) n then portion (snd kv) else 0) + sum_portions n a.
Proof. simpl. destruct (Nat.eqb (g_node (snd kv)) n); lia. Qed.

(** What a failed [Allocate] leaves in the free supplies. *)
Lemma Allocate_error_frees (fs fs' : frees) q :
  (q < length fs)%nat ->
  (fs' = fs \/ exists cs', supply_step (free_at fs q) cs' /\ fs' = set_free fs q cs') ->
  length fs' = length fs /\
  forall m, s_node (free_at fs' m) = s_node (free_at fs m) /\
            granted (free_at fs m) <= granted (free_at fs' m) /\
            (0 <= granted (free_at fs m) <= 1000 * CPUSet.size (sharable (free_at fs m)) ->
             granted (free_at fs' m) <= 1000 * CPUSet.size (sharable (free_at fs' m))).
Proof.
  intros Hq [->|(cs' & S & ->)].
  - split; [reflexivity|]. intros m. split; [reflexivity|]. split; [lia|]. lia.
  - split; [apply length_set_free|]. intros m.
    destruct (decide (q = m)) as [<-|Hne].
    + rewrite free_at_set_free_eq by exact Hq. destruct S as (A & B & C). auto.
    + rewrite free_at_set_free_ne by exact Hne. split; [reflexivity|]. split; [lia|]. lia.
Qed.

(** What a successful [Allocate] on pool [q] leaves in the free supplies. *)
Lemma Allocate_ok_frees t (fs : frees) q cs' g :
  (q < length fs)%nat -> s_node (free_at fs q) = q ->
  supply_step (free_at fs q) cs' ->
  granted cs' = granted (free_at fs q) + portion g ->
  g_node g = q ->
  let fs' := fold_left (fun acc n => AccountAllocate acc n g) (DepthFirst t (g_node g))
               (set_free fs q cs') in
  length fs' = length fs /\
  forall m, s_node (free_at fs' m) = s_node (free_at fs m) /\
            granted (free_at fs' m) =
              granted (free_at fs m) + (if Nat.eqb q m then portion g else 0) /\
            (0 <= granted (free_at fs m) <= 1000 * CPUSet.size (sharable (free_at fs m)) ->
             ~ (m <> q /\ In m (DepthFirst t q) /\ exclusive g <> []) ->
             granted (free_at fs' m) <= 1000 * CPUSet.size (sharable (free_at fs' m))).
Proof.
  intros Hq Hsq S G Hg fs'.
  destruct (AccountAllocate_fold (DepthFirst t (g_node g)) g (set_free fs q cs')) as [HL HN].
  split; [exact (eq_trans HL (length_set_free _ _ _))|]. intros m.
  destruct (HN m) as (A & B & C). fold fs' in A, B, C. rewrite A, B.
  destruct (decide (q = m)) as [<-|Hne].
  - rewrite free_at_set_free_eq in * by exact Hq. rewrite Nat.eqb_refl.
    destruct S as (S1 & S2 & S3).
    split; [exact S1|]. split; [exact G|]. intros Hb _.
    destruct C as [C|(_ & C & _)]; [rewrite C; apply S3, Hb|].
    exfalso. apply C. rewrite S1, Hsq, Hg. reflexivity.
  - rewrite free_at_set_free_ne in * by exact Hne. apply Nat.eqb_neq in Hne as Hne'.
    rewrite Hne'. split; [reflexivity|]. split; [lia|]. intros Hb Hn.
    destruct C as [C|(C1 & _ & C3)]; [rewrite C; lia|].
    exfalso. apply Hn. rewrite Hg in C1. auto.
Qed.

Lemma step_allocate p e c r n :
  lifecycle_inv p -> 0 <= fraction r ->
  lifecycle_inv (fst (allocatePool p e c r)) /\
  pol_tree (fst (allocatePool p e c r)) = pol_tree p /\
  (cpu_bound_at p n -> ~ below_granting_pool p (OpAllocate e c r) n ->
   cpu_bound_at (fst (allocatePool p e c r)) n).
Proof.
  intros Hinv Hf. pose proof Hinv as (Hw & Hr & Hp & Ha & Hs).
  unfold below_granting_pool, allocatePool.
  match goal with |- context [match ?x with Some pool => _ | None => _ end] =>
    destruct x as [q|] eqn:Hpick end.
  2:{ simpl. auto. }
  pose proof (pick_valid p e c r q _ Hr Hp Hpick) as Hq.
  set (fs := pol_frees p) in *. set (t := pol_tree p) in *.
  assert (Hq' : (q < length fs)%nat) by exact Hq.
  pose proof (Allocate_shape t fs q r Hf) as Sh.
  destruct (Allocate t fs q r) as [fs' [g|m]] eqn:EA; simpl.
  - destruct Sh as (cs' & S & G & Hpg & Hgn & ->).
    assert (Hgq : g_node g = q) by (rewrite Hgn; apply Hw, Hq').
    destruct (Allocate_ok_frees t fs q cs' g Hq' (Hw q Hq') S G Hgq) as [HL H1].
    set (fs' := fold_left _ _ (set_free fs q cs')) in *.
    assert (Hinv' : lifecycle_inv (mkPolicy t (pol_root p) (pol_pools p) fs'
        ((c_cacheID c, g) :: filter (fun kv => negb (Z.eqb (fst kv) (c_cacheID c))) (pol_allocs p)))).
    { unfold lifecycle_inv; cbn [pol_frees pol_allocs pol_root pol_pools pol_tree]. rewrite HL. split; [|split; [exact Hr|split; [exact Hp|split]]].
      - intros m' Hm. rewrite (proj1 (H1 m')). apply Hw, Hm.
      - constructor; [simpl; rewrite Hgq; split; [exact Hq'|exact Hpg]|].
        apply Forall_filter_allocs, Ha.
      - intros m'. rewrite sum_portions_cons. cbn [snd]. rewrite Hgq.
        destruct (H1 m') as (_ & B & _). rewrite B.
        pose proof (sum_portions_filter m' (pol_allocs p) (c_cacheID c)) as Hsf.
        assert (Forall (fun kv => 0 <= portion (snd kv)) (pol_allocs p))
          by (eapply Forall_impl; [exact Ha|]; intros x [_ Hx]; exact Hx).
        specialize (Hsf ltac:(assumption)). specialize (Hs m').
        destruct (Nat.eqb q m'); lia. }
    split; [exact Hinv'|]. split; [reflexivity|].
    intros [Hb1 Hb2] Hnb. split; [exact (inv_granted_nonneg _ n Hinv')|]. simpl.
    fold fs in Hb1, Hb2. rewrite Hgq in Hnb.
    destruct (H1 n) as (_ & _ & C). apply C; [lia | exact Hnb].
  - destruct (Allocate_error_frees fs fs' q Hq' Sh) as [HL H1].
    assert (Hinv' : lifecycle_inv (mkPolicy t (pol_root p) (pol_pools p) fs' (pol_allocs p))).
    { unfold lifecycle_inv; cbn [pol_frees pol_allocs pol_root pol_pools pol_tree]. rewrite HL. split; [|split; [exact Hr|split; [exact Hp|split]]].
      - intros m' Hm. rewrite (proj1 (H1 m')). apply Hw, Hm.
      - exact Ha.
      - intros m'. destruct (H1 m') as (_ & B & _). specialize (Hs m'). lia. }
    split; [exact Hinv'|]. split; [reflexivity|].
    intros [Hb1 Hb2] _. split; [exact (inv_granted_nonneg _ n Hinv')|]. simpl.
    fold fs in Hb1, Hb2. destruct (H1 n) as (_ & _ & C). apply C; lia.
Qed.

Lemma run_op_step p o n :
  lifecycle_inv p -> good_op o ->
  lifecycle_inv (run_op p o) /\
  (cpu_bound_at p n -> ~ below_granting_pool p o n -> cpu_bound_at (run_op p o) n).
Proof.
  intros Hinv Ho. destruct o as [e c r|c]; simpl in Ho; unfold run_op.
  - destruct (step_allocate p e c r n Hinv Ho) as (A & _ & C). auto.
  - destruct (step_release p c n Hinv) as (A & _ & C). auto.
Qed.

Lemma run_ops_inv os p n :
  lifecycle_inv p -> Forall good_op os ->
  lifecycle_inv (run_ops p os) /\
  (cpu_bound_at p n -> no_ancestor_grant p os n -> cpu_bound_at (run_ops p os) n).
Proof.
  revert p. induction os as [|o os IH]; intros p Hinv Hos; simpl; [auto|].
  inversion Hos as [|? ? Ho Hos']; subst.
  destruct (run_op_step p o n Hinv Ho) as [Hinv' Hb].
  destruct (IH (run_op p o) Hinv' Hos') as [A B]. unfold run_ops in A, B.
  split; [exact A|]. intros Hc [Hn Hrest]. apply B; [apply Hb; assumption | exact Hrest].
Qed.

Lemma init_policy_inv p : init_policy p -> lifecycle_inv p /\ forall n, cpu_bound_at p n.
Proof.
  intros (Ha & Hf & Hr & Hp).
  assert (G0 : forall n, granted (free_at (pol_frees p) n) = 0).
  { intros n. destruct (decide (n < length (pol_frees p))%nat) as [Hn|Hn].
    - apply Hf, Hn.
    - rewrite free_at_ge by lia. reflexivity. }
  split.
  - unfold lifecycle_inv. rewrite Ha. split; [intros n Hn; apply Hf, Hn|].
    split; [exact Hr|]. split; [exact Hp|]. split; [constructor|].
    intros n. rewrite G0. simpl. lia.
  - intros n. unfold cpu_bound_at. rewrite G0. unfold CPUSet.size. lia.
Qed.

(** Claim C6 (amended).  Run from the freshly built pools, any sequence of
    allocations and releases (with non-negative fractions) keeps
    [0 <= grantedMilliCPU] at every pool.  The upper bound
    [grantedMilliCPU <= 1000 * |sharableCPUs|] holds at a pool [n]
    whenever no allocation of the sequence granted exclusive CPUs on a
    strict ancestor of [n]: such a grant removes CPUs from the sharable
    set of [n] through [AccountAllocate] without looking at the
    milli-CPU already granted there. *)
Theorem cpu_bound_lifecycle (p : policy) (os : list op) :
  init_policy p -> Forall good_op os ->
  forall n,
    0 <= granted (free_at (pol_frees (run_ops p os)) n) /\
    (no_ancestor_grant p os n -> cpu_bound_at (run_ops p os) n).
Proof.
  intros Hi Hos n. destruct (init_policy_inv p Hi) as [Hinv Hb].
  destruct (run_ops_inv os p n Hinv Hos) as [A B].
  split; [apply inv_granted_nonneg, A|]. apply B, Hb.
Qed.

Import Fixtures SelectorFixtures.

(** The amended C6 on the two-leaf socket: 2000 milli-CPU on leaf 1,
    then its release. *)
Lemma cpu_bound_lifecycle_witness :
  init_policy server_policy /\
  Forall good_op [OpAllocate server_env web2 req_shared2000; OpRelease web2] /\
  no_ancestor_grant server_policy [OpAllocate server_env web2 req_shared2000; OpRelease web2] 1 /\
  0 <= granted (free_at (pol_frees (run_ops server_policy
         [OpAllocate server_env web2 req_shared2000; OpRelease web2])) 1) /\
  cpu_bound_at (run_ops server_policy
         [OpAllocate server_env web2 req_shared2000; OpRelease web2]) 1.
Proof.
  assert (Hi : init_policy server_policy).
  { split; [reflexivity|]. split; [|split; [simpl; lia | repeat constructor; simpl; lia]].
    intros n Hn. simpl in Hn. destruct n as [|[|[|n]]]; [split; reflexivity .. | lia]. }
  assert (Hg : Forall good_op [OpAllocate server_env web2 req_shared2000; OpRelease web2])
    by (repeat constructor; simpl; lia).
  assert (Hn : no_ancestor_grant server_policy
                 [OpAllocate server_env web2 req_shared2000; OpRelease web2] 1).
  { simpl. split; [|split; [|exact I]].
    - vm_compute. intros [Hne _]. apply Hne. reflexivity.
    - vm_compute. intros []. }
  split; [exact Hi|]. split; [exact Hg|]. split; [exact Hn|].
  split; [exact (proj1 (cpu_bound_lifecycle server_policy _ Hi Hg 1)) |].
  exact (proj2 (cpu_bound_lifecycle server_policy _ Hi Hg 1) Hn).
Defined.

End LifecycleFacts.

Module LifecycleCounter.
Import Memtier Scoring Selector Lifecycle Fixtures SelectorFixtures.

Lemma init_server_policy : init_policy server_policy.
Proof.
  split; [reflexivity|]. split; [|split; [simpl; lia| repeat constructor; simpl; lia]].
  intros n Hn. simpl in Hn.
  destruct n as [|[|[|n]]]; [split; reflexivity .. | lia].
Qed.

(** Claim C6 (counterexample).  On the socket with two NUMA leaves, a
    container gets 2000 milli-CPU shared on leaf 1 (CPUs 0-1), then a
    kube-system container gets 2 exclusive CPUs on the root, which takes
    CPUs 0-1; [AccountAllocate] removes them from leaf 1's sharable set
    but leaves its [granted] at 2000, so 2000 <= 1000 * 0 fails. *)
Lemma cpu_bound_broken_by_ancestor_allocation :
  ~ (forall (p : policy) (os : list op),
        init_policy p -> Forall good_op os ->
        forall n, (n < length (pol_frees (run_ops p os)))%nat -> cpu_bound_at (run_ops p os) n).
Proof.
  intro H.
  specialize (H server_policy
                [OpAllocate server_env web2 req_shared2000; OpAllocate server_env sysc2 req_full2]
                init_server_policy).
  assert (Hg : Forall good_op
                 [OpAllocate server_env web2 req_shared2000; OpAllocate server_env sysc2 req_full2])
    by (repeat constructor; simpl; lia).
  specialize (H Hg 1%nat).
  assert (Hn : (1 < length (pol_frees (run_ops server_policy
                 [OpAllocate server_env web2 req_shared2000; OpAllocate server_env sysc2 req_full2])))%nat)
    by (vm_compute; lia).
  specialize (H Hn). unfold cpu_bound_at in H.
  assert (E1 : granted (free_at (pol_frees (run_ops server_policy
                 [OpAllocate server_env web2 req_shared2000; OpAllocate server_env sysc2 req_full2])) 1) = 2000)
    by (vm_compute; reflexivity).
  assert (E2 : sharable (free_at (pol_frees (run_ops server_policy
                 [OpAllocate server_env web2 req_shared2000; OpAllocate server_env sysc2 req_full2])) 1) = [])
    by (vm_compute; reflexivity).
  rewrite E1, E2 in H. unfold CPUSet.size in H. simpl in H. lia.
Qed.

End LifecycleCounter.

Module RuntimeFacts.
Import GoPath Runtimes.
Local Open Scope string_scope.
Lemma mcl_failed fuel ch s :
  forallb literal_char (list_ascii_of_string ch) = true -> (String.length ch < fuel)%nat ->
  matchChunk_loop fuel ch s true = ChunkFail.
Proof.
  revert fuel s. induction ch as [|c ch IH]; intros fuel s Hl Hf;
    (destruct fuel as [|f]; [simpl in Hf; lia|]); [reflexivity|].
  simpl in Hl. apply andb_true_iff in Hl as [Hc Hl]. unfold literal_char in Hc.
  destruct (Ascii.eqb c "["%char) eqn:E1; [discriminate|].
  destruct (Ascii.eqb c "?"%char) eqn:E2; [discriminate|].
  destruct (Ascii.eqb c "\"%char) eqn:E3; [discriminate|].
  simpl. rewrite E1, E2, E3. apply IH; [exact Hl | simpl in Hf; lia].
Qed.

Lemma mcl_literal_ok fuel ch t :
  forallb literal_char (list_ascii_of_string ch) = true -> (String.length ch < fuel)%nat ->
  matchChunk_loop fuel ch (ch ++ t) false = ChunkOk t.
Proof.
  revert fuel. induction ch as [|c ch IH]; intros fuel Hl Hf;
    (destruct fuel as [|f]; [simpl in Hf; lia|]); [reflexivity|].
  simpl in Hl. apply andb_true_iff in Hl as [Hc Hl]. unfold literal_char in Hc.
  destruct (Ascii.eqb c "["%char) eqn:E1; [discriminate|].
  destruct (Ascii.eqb c "?"%char) eqn:E2; [discriminate|].
  destruct (Ascii.eqb c "\"%char) eqn:E3; [discriminate|].
  simpl. rewrite E1, E2, E3, Ascii.eqb_refl. apply IH; [exact Hl | simpl in Hf; lia].
Qed.

Lemma mcl_literal_fail fuel ch s :
  forallb literal_char (list_ascii_of_string ch) = true -> (String.length ch < fuel)%nat ->
  (forall t, s <> ch ++ t) ->
  matchChunk_loop fuel ch s false = ChunkFail.
Proof.
  revert fuel s. induction ch as [|c ch IH]; intros fuel s Hl Hf Hs;
    (destruct fuel as [|f]; [simpl in Hf; lia|]).
  - exfalso. apply (Hs s). reflexivity.
  - pose proof Hl as Hl0. simpl in Hl. apply andb_true_iff in Hl as [Hc Hl]. unfold literal_char in Hc.
    destruct (Ascii.eqb c "["%char) eqn:E1; [discriminate|].
    destruct (Ascii.eqb c "?"%char) eqn:E2; [discriminate|].
    destruct (Ascii.eqb c "\"%char) eqn:E3; [discriminate|].
    simpl in Hf.
    destruct s as [|b s].
    + simpl. rewrite E1, E2, E3. apply mcl_failed; [exact Hl | lia].
    + simpl. rewrite E1, E2, E3.
      destruct (Ascii.eqb c b) eqn:Eb; simpl.
      * apply Ascii.eqb_eq in Eb. subst b. apply IH; [exact Hl | lia |].
        intros t Ht. apply (Hs t). rewrite Ht. reflexivity.
      * apply mcl_failed; [exact Hl | lia].
Qed.

Lemma prefix_dec (ch s : string) : {t | s = ch ++ t} + {forall t, s <> ch ++ t}.
Proof.
  revert s. induction ch as [|c ch IH]; intros s.
  - left. exists s. reflexivity.
  - destruct s as [|b s].
    + right. intros t H. discriminate.
    + destruct (ascii_dec b c) as [<-|Hne].
      * destruct (IH s) as [[t Ht]|Hn].
        -- left. exists t. rewrite Ht. reflexivity.
        -- right. intros t H. injection H as H. apply (Hn t H).
      * right. intros t H. injection H as H _. contradiction.
Qed.

Lemma no_slash_spec s : no_slash s = true <-> ~ In "/"%char (list_ascii_of_string s).
Proof.
  unfold no_slash. rewrite forallb_forall. split.
  - intros H Hin. specialize (H _ Hin). rewrite Ascii.eqb_refl in H. discriminate.
  - intros H c Hc. destruct (Ascii.eqb c "/"%char) eqn:E; [|reflexivity].
    apply Ascii.eqb_eq in E. subst c. contradiction.
Qed.

Lemma Match_kata_star h :
  Match "kata*" h =
    match prefix_dec "kata" h with
    | inleft (exist _ t _) => Matched (no_slash t)
    | inright _ => Matched false
    end.
Proof.
  destruct (prefix_dec "kata" h) as [[t ->]|Hn].
  - unfold Match. simpl String.length. cbn [Match_loop].
    change (scanChunk "kata*") with (false, "kata", "*").
    cbv beta iota zeta.
    unfold matchChunk. rewrite (mcl_literal_ok _ "kata" t eq_refl) by (simpl; lia).
    simpl. rewrite orb_true_r. reflexivity.
  - unfold Match. simpl String.length. cbn [Match_loop].
    change (scanChunk "kata*") with (false, "kata", "*").
    cbv beta iota zeta.
    unfold matchChunk. rewrite (mcl_literal_fail _ "kata" h eq_refl) by (simpl; lia || exact Hn).
    reflexivity.
Qed.

Lemma append_cancel_l (p t s : string) : p ++ t = p ++ s -> t = s.
Proof. induction p as [|c p IH]; simpl; [auto|]. intros H. injection H as H. apply IH, H. Qed.

Lemma MatchHandler_default_cases h :
  MatchHandler defaultClasses h =
    if String.eqb h EmptyString then CriClass
    else if matched (Match "kata*" h) then KataClass else CriClass.
Proof. reflexivity. Qed.

(** Claim C8 (amended).  With the default class list
    [{kata, "kata*"}, {CRI, empty}] the matcher returns "CRI" for the empty
    handler, and otherwise the name of the first class whose pattern
    matches, an empty pattern matching every handler: "kata" exactly for
    the handlers that are "kata" followed by bytes none of which is '/'
    (the glob [*] of [path.Match] does not cross '/'), and "CRI" for all
    others.  In particular "kata-qemu" gives "kata", "runc" and the empty
    handler give "CRI". *)
Theorem MatchHandler_defaultClasses :
  (forall h, MatchHandler defaultClasses h = "kata" <->
             exists s, h = "kata" ++ s /\ ~ In "/"%char (list_ascii_of_string s)) /\
  (forall h, MatchHandler defaultClasses h = "kata" \/ MatchHandler defaultClasses h = "CRI") /\
  MatchHandler defaultClasses "kata-qemu" = "kata" /\
  MatchHandler defaultClasses "runc" = "CRI" /\
  MatchHandler defaultClasses EmptyString = "CRI".
Proof.
  split; [|split; [|split; [reflexivity|split; reflexivity]]].
  - intros h. rewrite MatchHandler_default_cases, Match_kata_star.
    destruct (prefix_dec "kata" h) as [[t ->]|Hn]; simpl.
    + destruct (no_slash t) eqn:E; simpl.
      * split; [intros _; exists t; split; [reflexivity|apply no_slash_spec, E]|reflexivity].
      * split; [discriminate|]. intros (s & Hs & Hin).
        apply append_cancel_l in Hs. subst s. apply no_slash_spec in Hin. congruence.
    + destruct (String.eqb h EmptyString) eqn:E; (split; [discriminate|]);
        intros (s & Hs & _); exfalso; exact (Hn s Hs).
  - intros h. rewrite MatchHandler_default_cases.
    destruct (String.eqb h EmptyString); [right; reflexivity|].
    destruct (matched (Match "kata*" h)); [left|right]; reflexivity.
Qed.

(** Claim C8 (counterexample).  The default class is [CriClass], whose
    name is "CRI": "runc" is mapped to "CRI", not to "cri". *)
Lemma MatchHandler_runc_is_CRI : MatchHandler defaultClasses "runc" <> "cri".
Proof. vm_compute. discriminate. Qed.

End RuntimeFacts.

Module IdxsetFacts.
Import Idxset.

Lemma str_app_cons c (a b : string) : (String c a ++ b)%string = String c (a ++ b).
Proof. reflexivity. Qed.

Lemma str_app_nil_l (b : string) : (EmptyString ++ b)%string = b.
Proof. reflexivity. Qed.

Lemma str_app_nonempty_l (a b : string) : a <> EmptyString -> (a ++ b)%string <> EmptyString.
Proof. destruct a; [congruence|]. intros _. rewrite str_app_cons. discriminate. Qed.

Lemma str_app_assoc (a b c : string) : ((a ++ b) ++ c = a ++ (b ++ c))%string.
Proof. induction a; rewrite ?str_app_cons, ?str_app_nil_l; [reflexivity|]. rewrite IHa. reflexivity. Qed.

Lemma str_app_nil_r (a : string) : (a ++ EmptyString)%string = a.
Proof. induction a; rewrite ?str_app_cons, ?str_app_nil_l; [reflexivity|]. rewrite IHa. reflexivity. Qed.

Lemma utoa_app f : forall n acc,
  utoa_loop f n acc = (utoa_loop f n EmptyString ++ acc)%string.
Proof.
  induction f as [|f IH]; intros n acc; simpl; [reflexivity|].
  destruct (n <? 10); [reflexivity|].
  rewrite IH, (IH _ (String _ EmptyString)), str_app_assoc. reflexivity.
Qed.

Lemma dval_loop_app a b acc : dval_loop (a ++ b) acc = dval_loop b (dval_loop a acc).
Proof. revert acc; induction a; intros acc; rewrite ?str_app_cons, ?str_app_nil_l; simpl; auto. Qed.

Lemma all_digits_app a b : all_digits (a ++ b) = all_digits a && all_digits b.
Proof. induction a; rewrite ?str_app_cons, ?str_app_nil_l; simpl; [reflexivity|]. rewrite IHa, andb_assoc. reflexivity. Qed.

Lemma digit_char_ok d : 0 <= d < 10 ->
  is_digit (digit_char d) = true /\ digit_value (digit_char d) = d.
Proof.
  intros H. unfold is_digit, digit_value, digit_char.
  rewrite nat_ascii_embedding by lia.
  split; [apply andb_true_intro; split; apply Nat.leb_le; lia | lia].
Qed.

Lemma digits_ok_iff d : digits_ok d = true <-> d <> EmptyString /\ all_digits d = true.
Proof.
  unfold digits_ok. destruct d; simpl; split; try intuition congruence.
Qed.

Lemma utoa_loop_S f n acc : utoa_loop (S f) n acc =
  if n <? 10 then String (digit_char (n mod 10)) acc
  else utoa_loop f (n / 10) (String (digit_char (n mod 10)) acc).
Proof. reflexivity. Qed.

Lemma utoa_val f : forall n, 0 <= n < 10 ^ Z.of_nat (S f) ->
  digits_ok (utoa_loop (S f) n EmptyString) = true /\
  dval (utoa_loop (S f) n EmptyString) = n.
Proof.
  induction f as [|f IH]; intros n Hn; rewrite utoa_loop_S;
    destruct (Z.ltb_spec n 10) as [Hlt|Hge].
  - rewrite Z.mod_small by lia. destruct (digit_char_ok n) as [D V]; [lia|].
    split; [apply digits_ok_iff; split; [discriminate|cbn [all_digits]; now rewrite D]|].
    unfold dval; cbn [dval_loop]. lia.
  - exfalso. simpl in Hn. lia.
  - rewrite Z.mod_small by lia. destruct (digit_char_ok n) as [D V]; [lia|].
    split; [apply digits_ok_iff; split; [discriminate|cbn [all_digits]; now rewrite D]|].
    unfold dval; cbn [dval_loop]. lia.
  - rewrite utoa_app.
    destruct (IH (n / 10)) as [D1 V1].
    { split; [apply Z.div_pos; lia|]. apply Z.div_lt_upper_bound; [lia|].
      replace (Z.of_nat (S (S f))) with (1 + Z.of_nat (S f)) in Hn by lia.
      rewrite Z.pow_add_r in Hn by lia. lia. }
    destruct (digit_char_ok (n mod 10)) as [D V]; [apply Z.mod_pos_bound; lia|].
    apply digits_ok_iff in D1 as [Hne Hd].
    split.
    + apply digits_ok_iff. split.
      * destruct (utoa_loop (S f) (n / 10) EmptyString); [congruence|rewrite str_app_cons; discriminate].
      * rewrite all_digits_app, Hd. cbn [all_digits]. now rewrite D.
    + unfold dval in *. rewrite dval_loop_app, V1. cbn [dval_loop]. rewrite V.
      pose proof (Z.div_mod n 10). lia.
Qed.

Lemma Itoa_nonneg n : 0 <= n <= MaxInt ->
  digits_ok (Itoa n) = true /\ dval (Itoa n) = n.
Proof.
  intros H. unfold Itoa. replace (n <? 0) with false by lia.
  apply (utoa_val 19). unfold MaxInt in H. simpl. lia.
Qed.

Lemma digits_loop_all d : forall acc, all_digits d = true ->
  digits_loop d acc = Some (dval_loop d acc).
Proof.
  induction d as [|c d IH]; intros acc H; simpl in *; [reflexivity|].
  apply andb_true_iff in H as [Hc Hd]. rewrite Hc. now apply IH.
Qed.

Lemma digit_value_nonneg c : is_digit c = true -> 0 <= digit_value c <= 9.
Proof.
  unfold is_digit, digit_value. intros H. apply andb_true_iff in H as [H1 H2].
  apply Nat.leb_le in H1, H2. lia.
Qed.

Lemma dval_loop_nonneg d : forall acc, 0 <= acc -> all_digits d = true ->
  0 <= dval_loop d acc.
Proof.
  induction d as [|c d IH]; intros acc Ha H; simpl in *; [lia|].
  apply andb_true_iff in H as [Hc Hd]. apply IH; [|exact Hd].
  pose proof (digit_value_nonneg c Hc). lia.
Qed.

Lemma dval_nonneg d : all_digits d = true -> 0 <= dval d.
Proof. intros H. apply dval_loop_nonneg; [lia|exact H]. Qed.

Lemma Atoi_digits d : digits_ok d = true -> dval d <= MaxInt -> Atoi d = Some (dval d).
Proof.
  intros Hok Hb. apply digits_ok_iff in Hok as [Hne Hd].
  pose proof (dval_nonneg d Hd) as Hnn.
  destruct d as [|c r]; [congruence|].
  unfold Atoi.
  assert (Ascii.eqb c "-"%char = false /\ Ascii.eqb c "+"%char = false) as [Hm Hp].
  { simpl in Hd. apply andb_true_iff in Hd as [Hc _].
    split; apply Ascii.eqb_neq; intros ->; discriminate. }
  rewrite Hm, Hp. rewrite digits_loop_all by exact Hd.
  unfold dval in *. unfold MinInt.
  replace ((- 2 ^ 63 <=? dval_loop (String c r) 0) && (dval_loop (String c r) 0 <=? MaxInt))
    with true by (symmetry; apply andb_true_iff; split; apply Z.leb_le; lia).
  reflexivity.
Qed.

Lemma all_digits_no_sep d : all_digits d = true ->
  has_char ","%char d = false /\ has_char "-"%char d = false.
Proof.
  induction d as [|c d IH]; intros H; simpl in *; [auto|].
  apply andb_true_iff in H as [Hc Hd]. destruct (IH Hd) as [H1 H2].
  rewrite H1, H2.
  split; rewrite orb_false_r; apply Ascii.eqb_neq; intros ->; discriminate.
Qed.

Lemma Split_nosep sep a : has_char sep a = false -> Split a sep = [a].
Proof.
  induction a as [|c a IH]; intros H; simpl in *; [reflexivity|].
  apply orb_false_iff in H as [Hc Ha]. rewrite Hc, IH by exact Ha. reflexivity.
Qed.

Lemma Split_app sep a b : has_char sep a = false ->
  Split (a ++ String sep b) sep = a :: Split b sep.
Proof.
  induction a as [|c a IH]; intros H; rewrite ?str_app_cons, ?str_app_nil_l; simpl in *.
  - now rewrite Ascii.eqb_refl.
  - apply orb_false_iff in H as [Hc Ha]. rewrite Hc, IH by exact Ha. reflexivity.
Qed.

Lemma Split_concat sep items : items <> [] ->
  Forall (fun it => has_char sep it = false) items ->
  Split (String.concat (String sep EmptyString) items) sep = items.
Proof.
  induction items as [|x items IH]; intros Hne H; [congruence|].
  apply Forall_cons in H as [Hx Hr].
  destruct items as [|y items].
  - simpl. now apply Split_nosep.
  - change (String.concat (String sep EmptyString) (x :: y :: items))
      with (x ++ String sep (String.concat (String sep EmptyString) (y :: items)))%string.
    rewrite Split_app by exact Hx. f_equal. apply IH; [discriminate|exact Hr].
Qed.

Lemma SplitN2_nosep sep a : has_char sep a = false -> SplitN2 a sep = [a].
Proof.
  induction a as [|c a IH]; intros H; simpl in *; [reflexivity|].
  apply orb_false_iff in H as [Hc Ha]. rewrite Hc, IH by exact Ha. reflexivity.
Qed.

Lemma SplitN2_app sep a b : has_char sep a = false ->
  SplitN2 (a ++ String sep b) sep = [a; b].
Proof.
  induction a as [|c a IH]; intros H; rewrite ?str_app_cons, ?str_app_nil_l; simpl in *.
  - now rewrite Ascii.eqb_refl.
  - apply orb_false_iff in H as [Hc Ha]. rewrite Hc, IH by exact Ha. reflexivity.
Qed.


Lemma has_char_app c a b : has_char c (a ++ b) = has_char c a || has_char c b.
Proof.
  induction a as [|c' a IH]; rewrite ?str_app_cons, ?str_app_nil_l; simpl; [reflexivity|].
  rewrite IH, orb_assoc. reflexivity.
Qed.

Lemma ForEach_loop_nostop {S} (l : list Z) (fn : Z -> S -> S * bool) st :
  (forall idx st, snd (fn idx st) = false) ->
  ForEach_loop l fn st = fold_left (fun st idx => fst (fn idx st)) l st.
Proof.
  revert st; induction l as [|a l IH]; intros st H; simpl; [reflexivity|].
  specialize (H a st) as Ha. destruct (fn a st) as [st' stop]. simpl in Ha; subst.
  now apply IH.
Qed.

Lemma writeRange_run str b e en : 0 <= b -> (en = -1 /\ e = b \/ en = e /\ b < e) ->
  writeRange str b en = join_from str [run_text (b, e)].
Proof.
  intros Hb Hen. unfold writeRange, run_text. cbn [join_from fst snd].
  replace (b <? 0) with false by lia.
  destruct Hen as [[-> ->]|[-> Hlt]].
  - rewrite Z.eqb_refl. reflexivity.
  - replace (e <? 0) with false by lia. replace (b =? e) with false by lia.
    rewrite !str_app_assoc. reflexivity.
Qed.

Lemma toString_fold r : forall str b e en,
  0 <= b <= e -> (en = -1 /\ e = b \/ en = e /\ b < e) ->
  Sorted Z.lt (e :: r) ->
  (let '(str', beg, end_) := fold_left (fun st idx => fst (toString_step idx st)) r (str, b, en) in
   writeRange str' beg end_) = join_from str (map run_text (runs_from b e r)).
Proof.
  induction r as [|x r IH]; intros str b e en Hb Hen Hs.
  - cbn [fold_left runs_from map]. now apply writeRange_run.
  - apply Sorted_inv in Hs as [Hs Hhd]. apply HdRel_inv in Hhd.
    cbn [fold_left runs_from]. unfold toString_step at 2. cbn [fst].
    replace (b <? 0) with false by lia.
    destruct Hen as [[-> ->]|[-> Hlt]].
    + replace (x =? -1 + 1) with false by lia. cbn [andb]. simpl (-1 <? 0).
      cbn [andb].
      destruct (Z.eqb_spec x (b + 1)) as [Hx|Hx].
      * apply IH; [lia|right; split; [reflexivity|lia]|exact Hs].
      * transitivity (join_from (writeRange str b (-1)) (map run_text (runs_from x x r))).
        { apply IH; [lia|tauto|exact Hs]. }
        rewrite (writeRange_run str b b (-1)) by (lia || tauto). reflexivity.
    + replace (e <? 0) with false by lia. cbn [andb].
      destruct (Z.eqb_spec x (e + 1)) as [Hx|Hx].
      * apply IH; [lia|right; split; [reflexivity|lia]|exact Hs].
      * transitivity (join_from (writeRange str b e) (map run_text (runs_from x x r))).
        { apply IH; [lia|tauto|exact Hs]. }
        rewrite (writeRange_run str b e e) by (lia || tauto). reflexivity.
Qed.

Lemma toString_of_runs l : Sorted Z.lt l -> Forall (fun i => 0 <= i) l ->
  toString_of l = join_from EmptyString (map run_text (runs l)).
Proof.
  intros Hs Hn. unfold toString_of.
  rewrite ForEach_loop_nostop by (intros ? [[? ?] ?]; reflexivity).
  destruct l as [|x r]; [reflexivity|].
  apply Forall_cons in Hn as [Hx _].
  cbn [fold_left runs]. unfold toString_step at 2. cbn [fst]. simpl (-1 <? 0).
  apply toString_fold; [lia|tauto|exact Hs].
Qed.

Lemma join_from_nonempty ps : forall acc, acc <> EmptyString -> ps <> [] ->
  join_from acc ps = (acc ++ "," ++ String.concat "," ps)%string.
Proof.
  induction ps as [|p ps IH]; intros acc Ha Hp; [congruence|].
  cbn [join_from].
  replace ((0 <? String.length acc)%nat) with true
    by (destruct acc; [congruence|reflexivity]).
  destruct ps as [|q ps].
  - cbn [join_from]. rewrite str_app_assoc. reflexivity.
  - rewrite IH by (discriminate || (rewrite str_app_assoc; destruct acc; [congruence|discriminate])).
    change (String.concat "," (p :: q :: ps)) with (p ++ "," ++ String.concat "," (q :: ps))%string.
    rewrite !str_app_assoc. reflexivity.
Qed.

Lemma join_from_concat ps : Forall (fun p => p <> EmptyString) ps ->
  join_from EmptyString ps = String.concat "," ps.
Proof.
  intros H. destruct ps as [|p ps]; [reflexivity|].
  apply Forall_cons in H as [Hp _].
  cbn [join_from]. simpl (String.length EmptyString). cbn [Nat.ltb Nat.leb]. rewrite str_app_nil_l.
  destruct ps as [|q ps]; [reflexivity|].
  rewrite join_from_nonempty by (exact Hp || discriminate). reflexivity.
Qed.

Lemma range_from_snoc n : forall b, range_from b (n + 1) = range_from b n ++ [b + Z.of_nat n].
Proof.
  induction n as [|n IH]; intros b; simpl; [f_equal; lia|].
  rewrite IH. f_equal. f_equal. f_equal. lia.
Qed.

Lemma runs_from_ids r : forall b e, b <= e -> Sorted Z.lt (e :: r) ->
  flat_map run_ids (runs_from b e r) = range_from b (Z.to_nat (e - b + 1)) ++ r.
Proof.
  induction r as [|x r IH]; intros b e Hb Hs.
  - simpl. rewrite !app_nil_r. reflexivity.
  - apply Sorted_inv in Hs as [Hs Hhd]. apply HdRel_inv in Hhd.
    cbn [runs_from]. destruct (Z.eqb_spec x (e + 1)) as [Hx|Hx].
    + rewrite IH by (lia || exact Hs).
      replace (Z.to_nat (x - b + 1)) with (Z.to_nat (e - b + 1) + 1)%nat by lia.
      rewrite range_from_snoc, <- app_assoc. simpl. do 3 f_equal. lia.
    + cbn [flat_map]. rewrite IH by (lia || exact Hs).
      unfold run_ids at 1. cbn [fst snd]. f_equal.
      replace (Z.to_nat (x - x + 1)) with 1%nat by lia. reflexivity.
Qed.

Lemma runs_from_nonnil r : forall b e, runs_from b e r <> [].
Proof.
  induction r as [|x r IH]; intros b e; cbn [runs_from]; [discriminate|].
  destruct (x =? e + 1); [apply IH|discriminate].
Qed.

Lemma runs_from_bounds r : forall b e, 0 <= b <= e -> e < MaxInt -> Sorted Z.lt (e :: r) ->
  Forall (fun i => i < MaxInt) r ->
  Forall (fun p => 0 <= fst p <= snd p /\ snd p < MaxInt) (runs_from b e r).
Proof.
  induction r as [|x r IH]; intros b e Hb He Hs Hr.
  - constructor; [simpl; lia|constructor].
  - apply Sorted_inv in Hs as [Hs Hhd]. apply HdRel_inv in Hhd.
    apply Forall_cons in Hr as [Hx Hr].
    cbn [runs_from]. destruct (Z.eqb_spec x (e + 1)) as [Hxe|Hxe].
    + apply IH; (lia || assumption).
    + constructor; [simpl; lia|]. apply IH; (lia || assumption).
Qed.

Lemma runs_from_fst r : forall b e, 0 <= b <= MaxInt ->
  Forall (fun i => 0 <= i <= MaxInt) r ->
  Forall (fun p => 0 <= fst p <= MaxInt) (runs_from b e r).
Proof.
  induction r as [|x r IH]; intros b e Hb Hr; cbn [runs_from].
  - constructor; [exact Hb|constructor].
  - apply Forall_cons in Hr as [Hx Hr].
    destruct (x =? e + 1); [apply IH; assumption|].
    constructor; [exact Hb|]. apply IH; assumption.
Qed.

Lemma run_text_nonempty p : 0 <= fst p <= MaxInt -> run_text p <> EmptyString.
Proof.
  intros H. destruct (Itoa_nonneg (fst p)) as [D _]; [exact H|].
  apply digits_ok_iff in D as [Hne _].
  unfold run_text. destruct (fst p =? snd p); [exact Hne|].
  destruct (Itoa (fst p)); [congruence|]. rewrite str_app_cons. discriminate.
Qed.

Lemma run_text_nocomma p : 0 <= fst p <= snd p /\ snd p < MaxInt -> has_char ","%char (run_text p) = false.
Proof.
  intros H.
  destruct (Itoa_nonneg (fst p)) as [D1 _]; [unfold MaxInt in *; lia|].
  destruct (Itoa_nonneg (snd p)) as [D2 _]; [unfold MaxInt in *; lia|].
  apply digits_ok_iff in D1 as [_ D1], D2 as [_ D2].
  apply all_digits_no_sep in D1 as [C1 _], D2 as [C2 _].
  unfold run_text. destruct (fst p =? snd p); [exact C1|].
  rewrite !has_char_app, C1, C2. reflexivity.
Qed.

Lemma parse_item_run b e : 0 <= b <= e -> e < MaxInt ->
  parse_item (run_text (b, e)) = Ok (run_ids (b, e)).
Proof.
  intros Hb He. unfold MaxInt in He.
  destruct (Itoa_nonneg b) as [D1 V1]; [unfold MaxInt; lia|].
  destruct (Itoa_nonneg e) as [D2 V2]; [unfold MaxInt; lia|].
  pose proof D1 as D1'. apply digits_ok_iff in D1' as [_ A1].
  apply all_digits_no_sep in A1 as [_ M1].
  unfold run_text, run_ids, parse_item. cbn [fst snd].
  destruct (Z.eqb_spec b e) as [<-|Hne].
  - rewrite SplitN2_nosep by exact M1.
    rewrite Atoi_digits, V1 by (exact D1 || (rewrite V1; unfold MaxInt; lia)).
    replace (Z.to_nat (b - b + 1)) with 1%nat by lia. reflexivity.
  - change ("-" ++ Itoa e)%string with (String "-"%char (Itoa e)).
    rewrite SplitN2_app by exact M1.
    rewrite Atoi_digits, V1 by (exact D1 || (rewrite V1; unfold MaxInt; lia)).
    rewrite Atoi_digits, V2 by (exact D2 || (rewrite V2; unfold MaxInt; lia)).
    replace (e <? b) with false by lia. unfold range_loop.
    replace (e =? MaxInt) with false by (unfold MaxInt; lia). reflexivity.
Qed.

Lemma parse_items_map {X} (f : X -> string) (g : X -> list Z) xs : forall acc,
  Forall (fun x => parse_item (f x) = Ok (g x)) xs ->
  parse_items (map f xs) acc = Ok (acc ++ flat_map g xs).
Proof.
  induction xs as [|x xs IH]; intros acc H; simpl; [now rewrite app_nil_r|].
  apply Forall_cons in H as [Hx H]. rewrite Hx, IH by exact H.
  now rewrite app_assoc.
Qed.

Lemma parse_indices_toString l : Sorted Z.lt l -> Forall (fun i => 0 <= i < MaxInt) l ->
  (if String.eqb (toString_of l) EmptyString then Ok []
   else parse_items (Split (toString_of l) ","%char) []) = Ok l.
Proof.
  intros Hs Hb. destruct l as [|x r]; [reflexivity|].
  pose proof Hb as Hb'. apply Forall_cons in Hb' as [Hx Hr].
  assert (Forall (fun p => 0 <= fst p <= snd p /\ snd p < MaxInt) (runs (x :: r))) as HR.
  { apply runs_from_bounds; [lia|lia|exact Hs|].
    eapply Forall_impl; [exact Hr|]. simpl; lia. }
  rewrite toString_of_runs by (exact Hs || (eapply Forall_impl; [exact Hb|]; simpl; lia)).
  assert (Forall (fun p => p <> EmptyString) (map run_text (runs (x :: r)))) as HN.
  { apply Forall_map. eapply Forall_impl; [exact HR|]. intros p Hp. apply run_text_nonempty. cbv beta in Hp. lia. }
  rewrite join_from_concat by exact HN.
  assert (map run_text (runs (x :: r)) <> []) as Hne.
  { cbn [runs]. pose proof (runs_from_nonnil r x x) as N.
    destruct (runs_from x x r); [congruence|discriminate]. }
  replace (String.eqb (String.concat "," (map run_text (runs (x :: r)))) EmptyString) with false.
  2:{ symmetry. apply String.eqb_neq. destruct (map run_text (runs (x :: r))) as [|p ps] eqn:E; [congruence|].
      apply Forall_cons in HN as [Hp _].
      destruct ps; [exact Hp|].
      change (String.concat "," (p :: s :: ps)) with (p ++ "," ++ String.concat "," (s :: ps))%string.
      destruct p; [congruence|]. rewrite str_app_cons. discriminate. }
  rewrite Split_concat.
  2:{ exact Hne. }
  2:{ apply Forall_map. eapply Forall_impl; [exact HR|]. apply run_text_nocomma. }
  rewrite (parse_items_map run_text run_ids).
  2:{ eapply Forall_impl; [exact HR|]. intros [b e] ?. simpl in *. apply parse_item_run; lia. }
  cbn [app runs]. rewrite runs_from_ids by (lia || exact Hs).
  replace (Z.to_nat (x - x + 1)) with 1%nat by lia. reflexivity.
Qed.


Lemma item_ok_Single d : item_ok (Single d) = true <-> digits_ok d = true /\ dval d <= MaxInt.
Proof. simpl. rewrite andb_true_iff, Z.leb_le. tauto. Qed.

Lemma item_ok_Range a b : item_ok (Range a b) = true <->
  digits_ok a = true /\ digits_ok b = true /\ dval a <= dval b /\ dval b < MaxInt.
Proof. simpl. rewrite !andb_true_iff, Z.leb_le, Z.ltb_lt. tauto. Qed.

Lemma item_text_props it : item_ok it = true ->
  item_text it <> EmptyString /\ has_char ","%char (item_text it) = false.
Proof.
  destruct it as [d|a b]; simpl.
  - intros H. apply item_ok_Single in H as [H _]. apply digits_ok_iff in H as [Hne Hd].
    split; [exact Hne|]. now apply all_digits_no_sep.
  - intros H. apply item_ok_Range in H as (Ha & Hb & _).
    apply digits_ok_iff in Ha as [Hne Ha], Hb as [_ Hb].
    split.
    + destruct a; [congruence|]. rewrite str_app_cons. discriminate.
    + rewrite !has_char_app. apply all_digits_no_sep in Ha as [-> _].
      apply all_digits_no_sep in Hb as [-> _]. reflexivity.
Qed.

Lemma parse_item_item it : item_ok it = true -> parse_item (item_text it) = Ok (item_ids it).
Proof.
  destruct it as [d|a b]; simpl item_text; simpl item_ids; intros H.
  - apply item_ok_Single in H as [Hd Hv].
    pose proof Hd as Hd'. apply digits_ok_iff in Hd' as [_ A].
    apply all_digits_no_sep in A as [_ M].
    unfold parse_item. rewrite SplitN2_nosep by exact M.
    rewrite Atoi_digits by assumption. reflexivity.
  - apply item_ok_Range in H as (Ha & Hb & Hab & HbM).
    pose proof Ha as Ha'. apply digits_ok_iff in Ha' as [_ A].
    apply all_digits_no_sep in A as [_ M].
    unfold parse_item.
    change ("-" ++ b)%string with (String "-"%char b).
    rewrite SplitN2_app by exact M.
    rewrite (Atoi_digits a), (Atoi_digits b) by (assumption || lia).
    replace (dval b <? dval a) with false by lia. unfold range_loop.
    replace (dval b =? MaxInt) with false by lia. reflexivity.
Qed.

Lemma parse_indices_items items : forallb item_ok items = true ->
  (if String.eqb (text_of items) EmptyString then Ok []
   else parse_items (Split (text_of items) ","%char) []) = Ok (flat_map item_ids items).
Proof.
  intros H. rewrite forallb_forall, <- List.Forall_forall in H.
  destruct items as [|it its]; [reflexivity|].
  unfold text_of.
  assert (Forall (fun p => p <> EmptyString /\ has_char ","%char p = false) (map item_text (it :: its))) as HP.
  { apply Forall_map. eapply Forall_impl; [exact H|]. apply item_text_props. }
  replace (String.eqb (String.concat "," (map item_text (it :: its))) EmptyString) with false.
  2:{ symmetry. apply String.eqb_neq. cbn [map].
      apply Forall_cons in HP as [[Hp _] _].
      destruct its; [exact Hp|].
      change (String.concat "," (item_text it :: item_text i :: map item_text its))
        with (item_text it ++ "," ++ String.concat "," (item_text i :: map item_text its))%string.
      now apply str_app_nonempty_l. }
  rewrite Split_concat.
  2:{ discriminate. }
  2:{ eapply Forall_impl; [exact HP|]. intros ? [_ ?]; assumption. }
  rewrite (parse_items_map item_text item_ids).
  2:{ eapply Forall_impl; [exact H|]. apply parse_item_item. }
  reflexivity.
Qed.

Lemma in_range_from n : forall b x, In x (range_from b n) <-> b <= x < b + Z.of_nat n.
Proof.
  induction n as [|n IH]; intros b x; simpl; [lia|].
  rewrite IH. lia.
Qed.

Lemma item_ids_bounds items : forallb item_ok items = true ->
  Forall (fun i => 0 <= i <= MaxInt) (flat_map item_ids items).
Proof.
  intros H. apply List.Forall_forall. intros x Hx.
  apply in_flat_map in Hx as [it [Hit Hx]].
  rewrite forallb_forall in H. specialize (H it Hit).
  destruct it as [d|a b]; simpl in Hx.
  - apply item_ok_Single in H as [Hd Hv].
    apply digits_ok_iff in Hd as [_ Hd]. pose proof (dval_nonneg d Hd).
    destruct Hx as [<-|[]]. lia.
  - apply item_ok_Range in H as (Ha & Hb & Hab & HbM).
    apply digits_ok_iff in Ha as [_ Ha]. pose proof (dval_nonneg a Ha).
    apply in_range_from in Hx. lia.
Qed.


(** *** dense masks *)

Lemma word_range_bits m : 0 <= m < 2 ^ 64 <->
  0 <= m /\ forall k, 64 <= k -> Z.testbit m k = false.
Proof.
  split.
  - intros [H0 H1]. split; [exact H0|]. intros k Hk.
    destruct (Z.eq_dec m 0) as [->|Hm]; [apply Z.bits_0|].
    apply Z.bits_above_log2; [lia|].
    apply Z.log2_lt_pow2 in H1; lia.
  - intros [H0 H1]. split; [exact H0|].
    destruct (Z.eq_dec m 0) as [->|Hm]; [lia|].
    destruct (Z.lt_ge_cases m (2 ^ 64)) as [Hl|Hge]; [exact Hl|].
    exfalso. assert (Hl : 64 <= Z.log2 m).
    { rewrite <- (Z.log2_pow2 64) by lia. apply Z.log2_le_mono. exact Hge. }
    specialize (H1 (Z.log2 m) Hl). rewrite Z.bit_log2 in H1 by lia. discriminate.
Qed.

Lemma tz_loop_spec n : forall j m, 0 <= j ->
  (exists k, j <= k < j + Z.of_nat n /\ Z.testbit m k = true) ->
  j <= tz_loop j n m < j + Z.of_nat n /\ Z.testbit m (tz_loop j n m) = true /\
  (forall k, j <= k < tz_loop j n m -> Z.testbit m k = false).
Proof.
  induction n as [|n IH]; intros j m Hj [k [Hk Hb]]; [lia|].
  cbn [tz_loop]. destruct (Z.testbit m j) eqn:Ej.
  - split; [lia|]. split; [exact Ej|]. lia.
  - assert (k <> j) by congruence.
    destruct (IH (j + 1) m) as (H1 & H2 & H3); [lia|exists k; split; [lia|exact Hb]|].
    split; [lia|]. split; [exact H2|].
    intros k' Hk'. destruct (Z.eq_dec k' j) as [->|Hne]; [exact Ej|]. apply H3. lia.
Qed.

Lemma TrailingZeros64_spec m : 0 < m -> (forall k, 64 <= k -> Z.testbit m k = false) ->
  0 <= TrailingZeros64 m < 64 /\ Z.testbit m (TrailingZeros64 m) = true /\
  (forall k, 0 <= k < TrailingZeros64 m -> Z.testbit m k = false).
Proof.
  intros Hm Hhi. unfold TrailingZeros64.
  destruct (tz_loop_spec 64 0 m) as (H1 & H2 & H3); [lia| |].
  - exists (Z.log2 m). split; [|apply Z.bit_log2; exact Hm].
    split; [apply Z.log2_nonneg|].
    destruct (Z.lt_ge_cases (Z.log2 m) 64) as [Hl|Hge]; [simpl; lia|].
    specialize (Hhi _ Hge). rewrite Z.bit_log2 in Hhi by exact Hm. discriminate.
  - change (Z.of_nat 64) with 64 in H1. split; [lia|]. split; assumption.
Qed.

Lemma bits_from_skip m k : forall p n,
  (forall j, p <= j < p + Z.of_nat k -> Z.testbit m j = false) ->
  bits_from m p (k + n) = bits_from m (p + Z.of_nat k) n.
Proof.
  induction k as [|k IH]; intros p n H; [simpl; now rewrite Z.add_0_r|].
  cbn [Nat.add bits_from]. rewrite H by lia.
  rewrite IH by (intros; apply H; lia). f_equal. lia.
Qed.

Lemma bits_from_ext m m' n : forall p,
  (forall j, p <= j -> Z.testbit m j = Z.testbit m' j) ->
  bits_from m p n = bits_from m' p n.
Proof.
  induction n as [|n IH]; intros p H; [reflexivity|].
  cbn [bits_from]. rewrite H by lia. rewrite IH by (intros; apply H; lia). reflexivity.
Qed.

Lemma bits_from_zero p n : bits_from 0 p n = [].
Proof. revert p; induction n; intros p; simpl; [reflexivity|]. rewrite Z.bits_0. apply IHn. Qed.

Lemma in_bits_from m n : forall p j,
  In j (bits_from m p n) <-> p <= j < p + Z.of_nat n /\ Z.testbit m j = true.
Proof.
  induction n as [|n IH]; intros p j; cbn [bits_from In]; [lia|].
  destruct (Z.testbit m p) eqn:E; cbn [In]; rewrite IH.
  - split; [intros [<-|[H1 H2]]; [split; [lia|exact E]|split; [lia|exact H2]]|].
    intros [H1 H2]. destruct (Z.eq_dec p j) as [<-|]; [now left|right; split; [lia|exact H2]].
  - split; [intros [H1 H2]; split; [lia|exact H2]|]. intros [H1 H2]. split; [|exact H2].
    destruct (Z.eq_dec p j) as [<-|]; [congruence|lia].
Qed.

Lemma Sorted_cons_lt x l : Sorted Z.lt l -> (forall y, In y l -> x < y) -> Sorted Z.lt (x :: l).
Proof.
  intros Hs H. constructor; [exact Hs|]. destruct l as [|y l]; constructor. apply H. now left.
Qed.

Lemma Sorted_app_lt a b : Sorted Z.lt a -> Sorted Z.lt b ->
  (forall x y, In x a -> In y b -> x < y) -> Sorted Z.lt (a ++ b).
Proof.
  induction a as [|x a IH]; intros Ha Hb H; [exact Hb|].
  apply Sorted_inv in Ha as [Ha Hhd]. cbn [app].
  apply Sorted_cons_lt; [apply IH; [exact Ha|exact Hb|intros; apply H; [right|]; assumption]|].
  intros y Hy. apply in_app_or in Hy as [Hy|Hy]; [|apply H; [now left|exact Hy]].
  apply Sorted_StronglySorted in Ha; [|intros ? ? ? ? ?; lia].
  destruct a as [|z a]; [destruct Hy|]. apply HdRel_inv in Hhd.
  destruct Hy as [<-|Hy]; [exact Hhd|].
  apply StronglySorted_inv in Ha as [_ Ha]. rewrite List.Forall_forall in Ha.
  specialize (Ha y Hy). lia.
Qed.

Lemma Sorted_map_add base l : Sorted Z.lt l -> Sorted Z.lt (map (Z.add base) l).
Proof.
  induction 1 as [|x l Hs IH Hhd]; cbn [map]; constructor; [exact IH|].
  destruct Hhd; constructor. lia.
Qed.

Lemma Sorted_bits_from m n : forall p, Sorted Z.lt (bits_from m p n).
Proof.
  induction n as [|n IH]; intros p; cbn [bits_from]; [constructor|].
  destruct (Z.testbit m p); [|apply IH].
  apply Sorted_cons_lt; [apply IH|]. intros y Hy. apply in_bits_from in Hy. lia.
Qed.

Lemma word_loop_bits fuel : forall m p base,
  0 <= m -> (forall k, 64 <= k -> Z.testbit m k = false) ->
  0 <= p <= 64 -> (forall k, 0 <= k < p -> Z.testbit m k = false) ->
  64 - p <= Z.of_nat fuel ->
  word_loop fuel m base = map (Z.add base) (bits_from m p (Z.to_nat (64 - p))).
Proof.
  induction fuel as [|fuel IH]; intros m p base Hm Hhi Hp Hlo Hf.
  - replace (Z.to_nat (64 - p)) with 0%nat by lia. reflexivity.
  - cbn [word_loop]. destruct (Z.eqb_spec m 0) as [->|Hm0].
    + now rewrite bits_from_zero.
    + destruct (TrailingZeros64_spec m) as (Ht & Hbt & Hlt); [lia|exact Hhi|].
      set (t := TrailingZeros64 m) in *.
      assert (p <= t) by (destruct (Z.lt_ge_cases t p); [rewrite Hlo in Hbt by lia; discriminate|lia]).
      set (m' := Z.ldiff m (Z.shiftl 1 t)).
      assert (Hbits : forall j, 0 <= j -> Z.testbit m' j = Z.testbit m j && negb (j =? t)).
      { intros j Hj. unfold m'. rewrite Z.ldiff_spec, Z.shiftl_1_l, Z.pow2_bits_eqb by lia.
        now rewrite Z.eqb_sym. }
      rewrite (IH m' (t + 1)).
      * replace (Z.to_nat (64 - p)) with (Z.to_nat (t - p) + S (Z.to_nat (64 - (t + 1))))%nat by lia.
        rewrite bits_from_skip by (intros j Hj; apply Hlt; lia).
        replace (p + Z.of_nat (Z.to_nat (t - p))) with t by lia.
        cbn [bits_from]. rewrite Hbt. cbn [map]. f_equal.
        f_equal. apply bits_from_ext. intros j Hj. rewrite Hbits by lia.
        replace (j =? t) with false by lia. now rewrite andb_true_r.
      * unfold m'. rewrite Z.ldiff_land. apply Z.land_nonneg. now left.
      * intros k Hk. rewrite Hbits by lia. now rewrite Hhi by lia.
      * lia.
      * intros k Hk. rewrite Hbits by lia.
        destruct (Z.eq_dec k t) as [->|]; [now rewrite Z.eqb_refl, andb_false_r|].
        rewrite Hlt by lia. reflexivity.
      * lia.
Qed.

Lemma word_loop_64 m base : 0 <= m < 2 ^ 64 ->
  word_loop 64 m base = map (Z.add base) (bits_from m 0 64).
Proof.
  intros H. apply word_range_bits in H as [H0 H1].
  rewrite (word_loop_bits 64 m 0 base H0 H1) by (lia || (intros; lia)). reflexivity.
Qed.

Lemma div_mod_64 j : 0 <= j -> j = 64 * (j / 64) + j mod 64 /\ 0 <= j mod 64 < 64 /\ 0 <= j / 64.
Proof.
  intros Hj. split; [apply Z.div_mod; lia|]. split; [apply Z.mod_pos_bound; lia|].
  apply Z.div_pos; lia.
Qed.

Lemma bitset_cons m ms j : 0 <= j ->
  bitset (m :: ms) j =
  if j <? 64 then Z.testbit m j else bitset ms (j - 64).
Proof.
  intros Hj. unfold bitset, MASKBITS, word_at.
  destruct (Z.ltb_spec j 64) as [Hl|Hge].
  - rewrite Z.div_small, Z.mod_small by lia. reflexivity.
  - replace j with ((j - 64) + 1 * 64) at 1 2 by lia.
    rewrite Z.div_add, Z.mod_add by lia.
    replace (Z.to_nat ((j - 64) / 64 + 1)) with (S (Z.to_nat ((j - 64) / 64)))
      by (pose proof (Z.div_pos (j - 64) 64); lia).
    reflexivity.
Qed.

Lemma bitset_nil j : bitset [] j = false.
Proof. unfold bitset, word_at. simpl. apply Z.bits_0. Qed.

Lemma mask_loop_spec ms : forall base, Forall (fun m => 0 <= m < 2 ^ 64) ms ->
  Sorted Z.lt (mask_loop ms base) /\
  (forall i, In i (mask_loop ms base) <-> base <= i /\ bitset ms (i - base) = true).
Proof.
  induction ms as [|m ms IH]; intros base Hw.
  - split; [constructor|]. intros i. simpl. rewrite bitset_nil. split; [tauto|intros [_ H]; discriminate].
  - apply Forall_cons in Hw as [Hm Hw].
    destruct (IH (base + MASKBITS) Hw) as [S1 I1].
    cbn [mask_loop]. rewrite word_loop_64 by exact Hm.
    assert (I0 : forall i, In i (map (Z.add base) (bits_from m 0 64)) <->
                           base <= i < base + 64 /\ Z.testbit m (i - base) = true).
    { intros i. rewrite in_map_iff. split.
      - intros [j [<- Hj]]. apply in_bits_from in Hj as [Hj1 Hj2].
        change (Z.of_nat 64) with 64 in Hj1.
        replace (base + j - base) with j by lia. split; [lia|exact Hj2].
      - intros [H1 H2]. exists (i - base). split; [lia|]. apply in_bits_from.
        change (Z.of_nat 64) with 64. split; [lia|exact H2]. }
    split.
    + apply Sorted_app_lt; [|exact S1|].
      * apply Sorted_map_add, Sorted_bits_from.
      * intros x y Hx Hy. apply I0 in Hx. apply I1 in Hy. unfold MASKBITS in Hy. lia.
    + intros i. rewrite in_app_iff, I0, I1. unfold MASKBITS.
      destruct (Z.le_gt_cases base i) as [Hb|Hb]; [|lia].
      rewrite bitset_cons by lia.
      destruct (Z.ltb_spec (i - base) 64) as [Hl|Hge].
      * split; [intros [[H1 H2]|[H1 _]]; [split; [lia|exact H2]|lia]|].
        intros [_ H]; left; split; [lia|exact H].
      * replace (i - base - 64) with (i - (base + 64)) by lia.
        split; [intros [[H1 _]|[H1 H2]]; [lia|split; [lia|exact H2]]|].
        intros [_ H]; right; split; [lia|exact H].
Qed.

Lemma word_at_cons_S x ms k : word_at (x :: ms) (S k) = word_at ms k.
Proof. reflexivity. Qed.

Lemma word_at_app_zeros ms n k : word_at (ms ++ repeat 0 n) k = word_at ms k.
Proof.
  unfold word_at. destruct (decide (k < length ms)%nat) as [Hl|Hge].
  - rewrite lookup_app_l by exact Hl. reflexivity.
  - rewrite lookup_app_r by lia. rewrite (lookup_ge_None_2 ms k) by lia.
    destruct (repeat 0 n !! (k - length ms)%nat) as [z|] eqn:E; [|reflexivity].
    apply list_elem_of_lookup_2, list_elem_of_In, repeat_spec in E. exact E.
Qed.

Lemma word_at_ok ms k : Forall (fun m => 0 <= m < 2 ^ 64) ms -> 0 <= word_at ms k < 2 ^ 64.
Proof.
  intros H. unfold word_at. destruct (ms !! k) eqn:E; [|lia].
  exact (Forall_lookup_1 _ _ _ _ H E).
Qed.

Lemma expand_spec ms idx : 0 <= idx ->
  (forall k, word_at (expand ms idx) k = word_at ms k) /\ (Z.to_nat (idx / 64) < length (expand ms idx))%nat /\ (Forall (fun m => 0 <= m < 2 ^ 64) ms -> Forall (fun m => 0 <= m < 2 ^ 64) (expand ms idx)).
Proof.
  intros Hi. unfold expand, maskidx, MASKBITS.
  pose proof (Z.div_pos idx 64 Hi ltac:(lia)) as Hq0.
  destruct (Z.ltb_spec (idx / 64) (Z.of_nat (length ms))) as [Hl|Hge].
  - split; [reflexivity|]. split; [lia|tauto].
  - split; [intros k; apply word_at_app_zeros|]. split.
    + rewrite length_app, repeat_length. lia.
    + intros Hf. apply Forall_app; split; [exact Hf|].
      apply List.Forall_forall. intros x Hx. apply repeat_spec in Hx. lia.
Qed.

Lemma div_mod_64_unique k b : 0 <= k -> 0 <= b < 64 -> (k * 64 + b) / 64 = k /\ (k * 64 + b) mod 64 = b.
Proof.
  intros Hk Hb. split.
  - symmetry. apply (Z.div_unique_pos _ _ _ b); lia.
  - symmetry. apply (Z.mod_unique_pos _ _ k); lia.
Qed.

Lemma same_word_same_bit j idx : 0 <= j -> 0 <= idx ->
  j / 64 = idx / 64 -> (j mod 64 = idx mod 64 <-> j = idx).
Proof.
  intros Hj Hi Hq. pose proof (Z.div_mod j 64) as Dj. pose proof (Z.div_mod idx 64) as Di.
  split; [intros Hr; lia|intros ->; reflexivity].
Qed.

Lemma setbit_spec ms idx : 0 <= idx -> (Z.to_nat (idx / 64) < length ms)%nat ->
  exists ms', setbit ms idx = Some ms' /\   (Forall (fun m => 0 <= m < 2 ^ 64) ms -> Forall (fun m => 0 <= m < 2 ^ 64) ms') /\   (forall j, 0 <= j -> bitset ms' j = bitset ms j || (j =? idx)).
Proof.
  intros Hi Hl. unfold setbit, bitidx, MASKBITS.
  change (64 - 1) with (Z.ones 6). rewrite Z.land_ones by lia. change (2 ^ 6) with 64.
  destruct (lookup_lt_is_Some_2 ms _ Hl) as [m Hm]. rewrite Hm.
  pose proof (Z.mod_pos_bound idx 64 ltac:(lia)) as Hb.
  set (w := Z.to_nat (idx / 64)) in *. set (b := idx mod 64) in *.
  eexists; split; [reflexivity|]. split.
  - intros H. apply Forall_insert; [exact H|].
    pose proof (Forall_lookup_1 _ _ _ _ H Hm) as Hm'.
    apply word_range_bits in Hm' as [H0 H1]. apply word_range_bits. split.
    + apply Z.lor_nonneg. split; [exact H0|]. rewrite Z.shiftl_1_l. apply Z.pow_nonneg; lia.
    + intros k Hk. rewrite Z.lor_spec, H1, Z.shiftl_1_l, Z.pow2_bits_eqb by lia.
      cbn [orb]. apply Z.eqb_neq. lia.
  - intros j Hj. unfold bitset, MASKBITS, word_at.
    pose proof (Z.mod_pos_bound j 64 ltac:(lia)).
    pose proof (Z.div_pos j 64 Hj ltac:(lia)). pose proof (Z.div_pos idx 64 Hi ltac:(lia)).
    destruct (decide (Z.to_nat (j / 64) = w)) as [Heq|Hne].
    + rewrite Heq, list_lookup_insert_eq by exact Hl. rewrite Hm.
      rewrite Z.lor_spec, Z.shiftl_1_l, Z.pow2_bits_eqb by lia. f_equal.
      assert (j / 64 = idx / 64) as Hq by (unfold w in Heq; lia).
      pose proof (same_word_same_bit j idx Hj Hi Hq) as E.
      destruct (Z.eqb_spec b (j mod 64)) as [Hbj|Hbj]; destruct (Z.eqb_spec j idx) as [Hji|Hji];
        unfold b in *; try reflexivity; exfalso; [apply Hji, E; lia|apply Hbj; rewrite Hji; reflexivity].
    + rewrite list_lookup_insert_ne by (intros Hc; apply Hne; symmetry; exact Hc).
      replace (j =? idx) with false; [now rewrite orb_false_r|].
      symmetry. apply Z.eqb_neq. intros ->. apply Hne. reflexivity.
Qed.

Lemma bitset_words a b j : (forall k, word_at a k = word_at b k) -> bitset a j = bitset b j.
Proof. intros H. unfold bitset. now rewrite H. Qed.

Lemma dense_add_loop_spec l : forall ms, Forall (fun i => 0 <= i) l ->
  Forall (fun m => 0 <= m < 2 ^ 64) ms ->
  exists ms', dense_add_loop ms l = Ok ms' /\ Forall (fun m => 0 <= m < 2 ^ 64) ms' /\   (forall j, 0 <= j -> bitset ms' j = bitset ms j || existsb (Z.eqb j) l).
Proof.
  induction l as [|idx l IH]; intros ms Hl Hw.
  - exists ms. split; [reflexivity|]. split; [exact Hw|]. intros j _. now rewrite orb_false_r.
  - apply Forall_cons in Hl as [Hi Hl].
    cbn [dense_add_loop]. replace (idx <? 0) with false by lia.
    destruct (expand_spec ms idx Hi) as (E1 & E2 & E3).
    destruct (setbit_spec (expand ms idx) idx Hi E2) as (ms1 & S1 & S2 & S3).
    rewrite S1.
    destruct (IH ms1 Hl (S2 (E3 Hw))) as (ms' & R1 & R2 & R3).
    exists ms'. split; [exact R1|]. split; [exact R2|].
    intros j Hj. rewrite R3, S3 by exact Hj. rewrite (bitset_words _ ms j E1).
    cbn [existsb]. now rewrite orb_assoc.
Qed.

Lemma word_eq_bits x y : 0 <= x < 2 ^ 64 -> 0 <= y < 2 ^ 64 ->
  (forall b, 0 <= b < 64 -> Z.testbit x b = Z.testbit y b) -> x = y.
Proof.
  intros Hx Hy H. apply word_range_bits in Hx as [_ Hx], Hy as [_ Hy].
  apply Z.bits_inj'. intros n Hn.
  destruct (Z.lt_ge_cases n 64); [apply H; lia|rewrite Hx, Hy by lia; reflexivity].
Qed.

Lemma words_from_bits a b : Forall (fun m => 0 <= m < 2 ^ 64) a -> Forall (fun m => 0 <= m < 2 ^ 64) b ->
  (forall j, 0 <= j -> bitset a j = bitset b j) -> forall k, word_at a k = word_at b k.
Proof.
  intros Ha Hb H k. apply word_eq_bits; [apply word_at_ok; exact Ha|apply word_at_ok; exact Hb|].
  intros bb Hbb. specialize (H (Z.of_nat k * 64 + bb) ltac:(lia)).
  unfold bitset, MASKBITS in H.
  destruct (div_mod_64_unique (Z.of_nat k) bb) as [Q R]; [lia|lia|].
  rewrite Q, R, Nat2Z.id in H. exact H.
Qed.

Lemma forallb_zero_drop l n : (forall k, (n <= k)%nat -> word_at l k = 0) ->
  forallb (fun m => m =? 0) (drop n l) = true.
Proof.
  intros H. apply forallb_forall. intros x Hx.
  apply list_elem_of_In, list_elem_of_lookup_1 in Hx as [i Hi].
  rewrite lookup_drop in Hi. specialize (H (n + i)%nat ltac:(lia)).
  unfold word_at in H. rewrite Hi in H. subst. reflexivity.
Qed.

Lemma forallb_combine_eq a : forall b, (forall k, word_at a k = word_at b k) ->
  forallb (fun p => fst p =? snd p) (combine a b) = true.
Proof.
  induction a as [|x a IH]; intros b H; destruct b as [|y b]; try reflexivity.
  cbn [combine forallb fst snd]. apply andb_true_intro. split.
  - specialize (H 0%nat). unfold word_at in H. simpl in H. subst. apply Z.eqb_refl.
  - apply IH. intros k. exact (H (S k)).
Qed.

Lemma dense_equals_words s o : (forall k, word_at (mask s) k = word_at (mask o) k) ->
  dense_equals s o = true.
Proof.
  intros H. unfold dense_equals.
  destruct (length (mask s) <? length (mask o))%nat eqn:E; apply andb_true_intro;
    (split; [apply forallb_combine_eq; exact H|apply forallb_zero_drop]).
  - intros k Hk. rewrite <- H. unfold word_at. now rewrite lookup_ge_None_2.
  - intros k Hk. rewrite H. unfold word_at. rewrite lookup_ge_None_2; [reflexivity|].
    apply Nat.ltb_ge in E. lia.
Qed.

Lemma parse_Ok {T} `{IdxSet T} (t : T) str l :
  (if String.eqb str EmptyString then Ok [] else parse_items (Split str ","%char) []) = Ok l ->
  parse t str = Add (Reset t) l.
Proof. intros E. unfold parse. now rewrite E. Qed.

Lemma dense_ForEach_spec s : Forall (fun m => 0 <= m < 2 ^ 64) (mask s) ->
  Sorted Z.lt (ForEach_indices s) /\ (forall i, In i (ForEach_indices s) <-> 0 <= i /\ bitset (mask s) i = true).
Proof.
  intros Hw. destruct (mask_loop_spec (mask s) 0 Hw) as [S1 I1].
  split; [exact S1|]. intros i. cbn [ForEach_indices dense_IdxSet]. unfold dense_ForEach.
  rewrite I1. now rewrite Z.sub_0_r.
Qed.

Lemma dense_Add_fresh (t : dense) l : Forall (fun i => 0 <= i) l ->
  exists ms', Add (Reset t) l = Ok (mkDense ms') /\ Forall (fun m => 0 <= m < 2 ^ 64) ms' /\   (forall j, 0 <= j -> bitset ms' j = existsb (Z.eqb j) l).
Proof.
  intros Hl. destruct (dense_add_loop_spec l [] Hl (List.Forall_nil _)) as (ms' & A1 & A2 & A3).
  exists ms'. split; [cbn [Add Reset dense_IdxSet]; unfold dense_Add, dense_Reset; cbn [mask]; now rewrite A1|].
  split; [exact A2|]. intros j Hj. rewrite A3 by exact Hj. now rewrite bitset_nil.
Qed.

Lemma existsb_In j l : existsb (Z.eqb j) l = true <-> In j l.
Proof.
  rewrite existsb_exists. split; [intros [x [Hx E]]; apply Z.eqb_eq in E; now subst|].
  intros Hj. exists j. split; [exact Hj|apply Z.eqb_refl].
Qed.

Lemma dense_roundtrip (s t : dense) : Forall (fun m => 0 <= m < 2 ^ 64) (mask s) ->
  Forall (fun i => i < MaxInt) (ForEach_indices s) ->
  exists s', parse t (toString s) = Ok s' /\ dense_equals s' s = true.
Proof.
  intros Hw Hb. destruct (dense_ForEach_spec s Hw) as [S1 I1].
  set (l := ForEach_indices s) in *.
  assert (Forall (fun i => 0 <= i) l) as Hnn.
  { apply List.Forall_forall. intros i Hi. apply I1 in Hi. tauto. }
  assert (toString s = toString_of l) as Ht by reflexivity.
  rewrite Ht, (parse_Ok t _ l).
  2:{ apply parse_indices_toString; [exact S1|].
      apply List.Forall_forall. intros i Hi.
      rewrite List.Forall_forall in Hnn, Hb. split; [apply Hnn|apply Hb]; exact Hi. }
  destruct (dense_Add_fresh t l Hnn) as (ms' & A1 & A2 & A3).
  exists (mkDense ms'). split; [exact A1|].
  apply dense_equals_words. cbn [mask]. apply words_from_bits; [exact A2|exact Hw|].
  intros j Hj. rewrite A3 by exact Hj.
  destruct (existsb (Z.eqb j) l) eqn:E; symmetry.
  - apply existsb_In, I1 in E. tauto.
  - destruct (bitset (mask s) j) eqn:F; [|reflexivity].
    assert (In j l) as Hin by (apply I1; tauto). apply existsb_In in Hin. congruence.
Qed.


(** *** sparse sets *)

Lemma Sorted_le_NoDup_lt l : Sorted Z.le l -> NoDup l -> Sorted Z.lt l.
Proof.
  induction 1 as [|x l Hs IH Hhd]; intros Hnd; constructor.
  - apply IH. apply NoDup_cons in Hnd as [_ Hnd]. exact Hnd.
  - destruct Hhd as [|y l' Hxy]; constructor.
    apply NoDup_cons in Hnd as [Hn _].
    assert (x <> y) by (intros ->; apply Hn, list_elem_of_In; now left). lia.
Qed.

Lemma sparse_Indices_spec s : Sorted Z.lt (sparse_Indices s) /\
  (forall i, In i (sparse_Indices s) <-> i ∈ members s).
Proof.
  unfold sparse_Indices.
  match goal with |- context [@merge_sort _ ?R ?d ?l] =>
    pose proof (@merge_sort_Permutation _ R d l) as P end.
  split.
  - apply Sorted_le_NoDup_lt; [apply Sorted_merge_sort; intros x y; lia|].
    rewrite P. apply NoDup_elements.
  - intros i. rewrite <- list_elem_of_In, P, elem_of_elements. reflexivity.
Qed.

Lemma sparse_add_loop_spec l : forall ms, Forall (fun i => 0 <= i) l ->
  exists ms', sparse_add_loop ms l = Ok ms' /\ forall i, i ∈ ms' <-> i ∈ ms \/ In i l.
Proof.
  induction l as [|idx l IH]; intros ms Hl.
  - exists ms. split; [reflexivity|]. intros i. simpl. tauto.
  - apply Forall_cons in Hl as [Hi Hl]. cbn [sparse_add_loop].
    replace (idx <? 0) with false by lia.
    destruct (IH ({[idx]} ∪ ms) Hl) as (ms' & R1 & R2).
    exists ms'. split; [exact R1|]. intros i. rewrite R2. cbn [In].
    rewrite elem_of_union, elem_of_singleton. intuition congruence.
Qed.

Lemma sparse_equals_members a b : (forall i, i ∈ a <-> i ∈ b) ->
  sparse_equals (mkSparse a) (mkSparse b) = true.
Proof.
  intros H. assert (a = b) as <- by (apply set_eq; exact H).
  unfold sparse_equals. cbn [members]. rewrite Nat.eqb_refl. cbn [andb].
  apply forallb_forall. intros x Hx. apply bool_decide_eq_true_2.
  apply elem_of_elements, list_elem_of_In. exact Hx.
Qed.

Lemma sparse_Add_fresh (t : sparse) l : Forall (fun i => 0 <= i) l ->
  exists ms', Add (Reset t) l = Ok (mkSparse ms') /\ (forall i, i ∈ ms' <-> In i l).
Proof.
  intros Hl. destruct (sparse_add_loop_spec l ∅ Hl) as (ms' & A1 & A2).
  exists ms'. split.
  - cbn [Add Reset sparse_IdxSet]. unfold sparse_Add, sparse_Reset. cbn [members]. now rewrite A1.
  - intros i. rewrite A2. set_solver.
Qed.

Lemma sparse_roundtrip (s t : sparse) : set_Forall (fun i => 0 <= i < MaxInt) (members s) ->
  exists s', parse t (toString s) = Ok s' /\ sparse_equals s' s = true.
Proof.
  intros Hb. destruct (sparse_Indices_spec s) as [S1 I1].
  set (l := sparse_Indices s) in *.
  assert (Forall (fun i => 0 <= i < MaxInt) l) as Hl.
  { apply List.Forall_forall. intros i Hi. apply I1 in Hi. exact (Hb i Hi). }
  assert (toString s = toString_of l) as Ht by reflexivity.
  rewrite Ht, (parse_Ok t _ l) by (apply parse_indices_toString; assumption).
  destruct (sparse_Add_fresh t l) as (ms' & A1 & A2).
  { eapply Forall_impl; [exact Hl|]. cbv beta. lia. }
  exists (mkSparse ms'). split; [exact A1|].
  destruct s as [ms]. apply sparse_equals_members. intros i. rewrite A2, I1. reflexivity.
Qed.

(** *** canonical form *)

Lemma Sorted_lt_unique a : forall b, Sorted Z.lt a -> Sorted Z.lt b ->
  (forall x, In x a <-> In x b) -> a = b.
Proof.
  induction a as [|x a IH]; intros b Ha Hb H; destruct b as [|y b].
  - reflexivity.
  - exfalso. apply (H y). now left.
  - exfalso. apply (H x). now left.
  - apply Sorted_StronglySorted in Ha, Hb; try (intros ? ? ? ? ?; lia).
    apply StronglySorted_inv in Ha as [Ha Fa], Hb as [Hb Fb].
    rewrite List.Forall_forall in Fa, Fb.
    assert (x = y) as <-.
    { destruct (H x) as [Hx _]. destruct (H y) as [_ Hy].
      destruct (Hx (or_introl eq_refl)) as [|Hx']; [congruence|].
      destruct (Hy (or_introl eq_refl)) as [|Hy']; [congruence|].
      specialize (Fb x Hx'). specialize (Fa y Hy'). lia. }
    f_equal. apply IH; [apply StronglySorted_Sorted; exact Ha|apply StronglySorted_Sorted; exact Hb|].
    intros z. split; intros Hz.
    + destruct (proj1 (H z) (or_intror Hz)) as [<-|Hz']; [specialize (Fa x Hz); lia|exact Hz'].
    + destruct (proj2 (H z) (or_intror Hz)) as [<-|Hz']; [specialize (Fb x Hz); lia|exact Hz'].
Qed.

Lemma canonical_list_spec ids :
  Sorted Z.lt (merge_sort Z.le (remove_dups ids)) /\
  (forall x, In x (merge_sort Z.le (remove_dups ids)) <-> In x ids).
Proof.
  match goal with |- context [@merge_sort _ ?R ?d ?l] =>
    pose proof (@merge_sort_Permutation _ R d l) as P end. split.
  - apply Sorted_le_NoDup_lt; [apply Sorted_merge_sort; intros x y; lia|].
    rewrite P. apply NoDup_remove_dups.
  - intros x. rewrite <- !list_elem_of_In, P, elem_of_remove_dups. reflexivity.
Qed.

Lemma toString_canonical items L : forallb item_ok items = true -> Sorted Z.lt L ->
  (forall x, In x L <-> In x (flat_map item_ids items)) -> toString_of L = canonical items.
Proof.
  intros Hok Hs HL. pose proof (item_ids_bounds items Hok) as Hb.
  destruct (canonical_list_spec (flat_map item_ids items)) as [C1 C2].
  unfold canonical. set (C := merge_sort Z.le (remove_dups (flat_map item_ids items))) in *.
  assert (L = C) as ->.
  { apply Sorted_lt_unique; [exact Hs|exact C1|]. intros x. rewrite HL, C2. reflexivity. }
  assert (Forall (fun i => 0 <= i <= MaxInt) C) as HC.
  { apply List.Forall_forall. intros x Hx. apply C2 in Hx.
    rewrite List.Forall_forall in Hb. exact (Hb x Hx). }
  rewrite toString_of_runs.
  2:{ exact C1. }
  2:{ eapply Forall_impl; [exact HC|]. cbv beta. lia. }
  apply join_from_concat. apply Forall_map.
  destruct C as [|x r]; [constructor|].
  apply Forall_cons in HC as [Hx Hr]. cbn [runs].
  eapply Forall_impl; [apply (runs_from_fst r x x Hx Hr)|].
  intros p Hp. apply run_text_nonempty. exact Hp.
Qed.

Lemma dense_canonical (t : dense) items : forallb item_ok items = true ->
  exists s', parse t (text_of items) = Ok s' /\ toString s' = canonical items.
Proof.
  intros Hok. pose proof (item_ids_bounds items Hok) as Hb.
  rewrite (parse_Ok t _ _ (parse_indices_items items Hok)).
  destruct (dense_Add_fresh t (flat_map item_ids items)) as (ms' & A1 & A2 & A3).
  { eapply Forall_impl; [exact Hb|]. cbv beta. lia. }
  exists (mkDense ms'). split; [exact A1|].
  destruct (dense_ForEach_spec (mkDense ms') A2) as [S1 I1].
  apply (toString_canonical items _ Hok S1).
  intros x. rewrite I1. cbn [mask]. split.
  - intros [Hx E]. rewrite A3 in E by exact Hx. apply existsb_In. exact E.
  - intros Hx. assert (0 <= x) as Hx0.
    { rewrite List.Forall_forall in Hb. specialize (Hb x Hx). lia. }
    split; [exact Hx0|]. rewrite A3 by exact Hx0. apply existsb_In. exact Hx.
Qed.

Lemma sparse_canonical (t : sparse) items : forallb item_ok items = true ->
  exists s', parse t (text_of items) = Ok s' /\ toString s' = canonical items.
Proof.
  intros Hok. pose proof (item_ids_bounds items Hok) as Hb.
  rewrite (parse_Ok t _ _ (parse_indices_items items Hok)).
  destruct (sparse_Add_fresh t (flat_map item_ids items)) as (ms' & A1 & A2).
  { eapply Forall_impl; [exact Hb|]. cbv beta. lia. }
  exists (mkSparse ms'). split; [exact A1|].
  destruct (sparse_Indices_spec (mkSparse ms')) as [S1 I1].
  apply (toString_canonical items _ Hok S1).
  intros x. rewrite I1. cbn [members]. apply A2.
Qed.

(** C9: for every index set [s] (dense or sparse) with non-negative
    indices below [MaxInt], [parse] applied to [toString s] yields a set
    equal to [s]; for every well-formed range text [x], [toString] of
    [parse x] is the canonical form of [x] (consecutive integers collapsed
    into ranges, empty set printed as the empty string).  The last conjunct
    records the sparse set built by [NewSparseSet(-1, 3)], which the
    constructor accepts without the negative check of [Add]: its text is
    ["3"] and parsing it back gives a set that differs from it. *)
Theorem idxset_text_roundtrip :
  (forall s t : dense, Forall (fun m => 0 <= m < 2 ^ 64) (mask s) ->
     Forall (fun i => i < MaxInt) (ForEach_indices s) ->
     exists s', parse t (toString s) = Ok s' /\ dense_equals s' s = true) /\
  (forall s t : sparse, set_Forall (fun i => 0 <= i < MaxInt) (members s) ->
     exists s', parse t (toString s) = Ok s' /\ sparse_equals s' s = true) /\
  (forall items, forallb item_ok items = true ->
     (forall t : dense, exists s', parse t (text_of items) = Ok s' /\ toString s' = canonical items) /\
     (forall t : sparse, exists s', parse t (text_of items) = Ok s' /\ toString s' = canonical items)) /\
  (toString (NewSparseSet [-1; 3]) = "3"%string /\
   parse (mkSparse ∅) (toString (NewSparseSet [-1; 3])) = Ok (mkSparse {[3]}) /\
   sparse_equals (mkSparse {[3]}) (NewSparseSet [-1; 3]) = false).
Proof.
  split; [intros s t; apply dense_roundtrip|].
  split; [intros s t; apply sparse_roundtrip|].
  split; [intros items Hok; split; intros t; [apply dense_canonical|apply sparse_canonical]; exact Hok|].
  split; [vm_compute; reflexivity|]. split; vm_compute; reflexivity.
Qed.

Lemma idxset_text_roundtrip_witness :
  (exists s', parse (mkDense []) (toString (mkDense [37])) = Ok s' /\ dense_equals s' (mkDense [37]) = true) /\
  (exists s', parse (mkSparse ∅) (toString (mkSparse {[0; 1; 2; 5]})) = Ok s' /\
              sparse_equals s' (mkSparse {[0; 1; 2; 5]}) = true) /\
  (exists s', parse (mkDense []) (text_of [Range "3" "5"; Single "0"; Single "4"; Single "1"]) = Ok s' /\
              toString s' = canonical [Range "3" "5"; Single "0"; Single "4"; Single "1"]) /\
  (exists s', parse (mkSparse ∅) (text_of [Range "3" "5"; Single "0"; Single "4"; Single "1"]) = Ok s' /\
              toString s' = canonical [Range "3" "5"; Single "0"; Single "4"; Single "1"]).
Proof.
  destruct idxset_text_roundtrip as (D & Sp & C & _).
  split; [apply D; [repeat constructor; lia|]|].
  { apply List.Forall_forall. intros i Hi. vm_compute in Hi.
    destruct Hi as [<-|[<-|[<-|[]]]]; unfold MaxInt; lia. }
  split; [apply Sp|].
  { intros i Hi. cbn [members] in Hi. rewrite !elem_of_union, !elem_of_singleton in Hi. unfold MaxInt. lia. }
  split; [apply C; reflexivity|apply C; reflexivity].
Defined.

End IdxsetFacts.

Module IdxsetOpsFacts.
Import Idxset IdxsetFacts IdxsetOps.

(** *** words of a mask *)

Lemma word_at_lookup ms k m : ms !! k = Some m -> word_at ms k = m.
Proof. intros E. unfold word_at. now rewrite E. Qed.

Lemma word_at_ge ms k : (length ms <= k)%nat -> word_at ms k = 0.
Proof. intros H. unfold word_at. now rewrite lookup_ge_None_2. Qed.

Lemma words_ext a b : length a = length b -> (forall k, word_at a k = word_at b k) -> a = b.
Proof.
  intros Hl H. apply list_eq. intros k.
  destruct (a !! k) as [x|] eqn:Ea.
  - destruct (lookup_lt_is_Some_2 b k) as [y Eb].
    { apply lookup_lt_Some in Ea. lia. }
    specialize (H k). rewrite (word_at_lookup _ _ _ Ea), (word_at_lookup _ _ _ Eb) in H.
    now subst.
  - apply lookup_ge_None_1 in Ea. symmetry. apply lookup_ge_None_2. lia.
Qed.

Lemma lookup_zip (f : Z -> Z -> Z) a : forall b k,
  map (fun p => f (fst p) (snd p)) (combine a b) !! k =
  match a !! k, b !! k with Some x, Some y => Some (f x y) | _, _ => None end.
Proof.
  induction a as [|x a IH]; intros [|y b] [|k]; cbn; try reflexivity.
  - destruct (a !! k); reflexivity.
  - apply IH.
Qed.

Lemma length_zip (f : Z -> Z -> Z) a b :
  length (map (fun p => f (fst p) (snd p)) (combine a b)) = Nat.min (length a) (length b).
Proof. now rewrite length_map, length_combine. Qed.

Lemma word_at_zip_lt (f : Z -> Z -> Z) a b rest k : (k < Nat.min (length a) (length b))%nat ->
  word_at (map (fun p => f (fst p) (snd p)) (combine a b) ++ rest) k = f (word_at a k) (word_at b k).
Proof.
  intros Hk. unfold word_at. rewrite lookup_app_l by (rewrite length_zip; exact Hk).
  rewrite lookup_zip.
  destruct (lookup_lt_is_Some_2 a k) as [x Ea]; [lia|].
  destruct (lookup_lt_is_Some_2 b k) as [y Eb]; [lia|].
  now rewrite Ea, Eb.
Qed.

Lemma word_at_zip_ge (f : Z -> Z -> Z) a b rest k : (Nat.min (length a) (length b) <= k)%nat ->
  word_at (map (fun p => f (fst p) (snd p)) (combine a b) ++ rest) k =
  word_at rest (k - Nat.min (length a) (length b)).
Proof.
  intros Hk. unfold word_at. rewrite lookup_app_r by (rewrite length_zip; exact Hk).
  now rewrite length_zip.
Qed.

Lemma word_at_drop ms n k : word_at (drop n ms) k = word_at ms (n + k).
Proof. unfold word_at. now rewrite lookup_drop. Qed.

Lemma word_at_take ms n k :
  word_at (take n ms) k = if (k <? n)%nat then word_at ms k else 0.
Proof.
  unfold word_at. destruct (Nat.ltb_spec k n).
  - now rewrite lookup_take_lt.
  - now rewrite lookup_take_ge.
Qed.

Lemma word_at_insert ms i x k : (i < length ms)%nat ->
  word_at (<[i := x]> ms) k = if Nat.eqb k i then x else word_at ms k.
Proof.
  intros Hi. unfold word_at. destruct (Nat.eqb_spec k i) as [->|Hne].
  - now rewrite list_lookup_insert_eq.
  - now rewrite list_lookup_insert_ne by congruence.
Qed.

Lemma length_union s o :
  length (mask (dense_union s o)) = Nat.max (length (mask s)) (length (mask o)).
Proof.
  unfold dense_union. destruct (Nat.ltb_spec (length (mask s)) (length (mask o)));
    cbn [mask]; rewrite length_app, length_zip, length_drop; lia.
Qed.

Lemma word_at_union s o k :
  word_at (mask (dense_union s o)) k = Z.lor (word_at (mask s) k) (word_at (mask o) k).
Proof.
  unfold dense_union.
  destruct (Nat.ltb_spec (length (mask s)) (length (mask o))) as [Hlt|Hge]; cbn [mask];
    (destruct (Nat.lt_ge_cases k (Nat.min (length (mask s)) (length (mask o)))) as [Hk|Hk];
     [now apply word_at_zip_lt|rewrite word_at_zip_ge, word_at_drop by exact Hk]).
  - rewrite (word_at_ge (mask s) k) by lia. rewrite Z.lor_0_l. f_equal. lia.
  - rewrite (word_at_ge (mask o) k) by lia. rewrite Z.lor_0_r. f_equal. lia.
Qed.

Lemma length_intersection s o :
  length (mask (dense_intersection s o)) = Nat.min (length (mask s)) (length (mask o)).
Proof. apply length_zip. Qed.

Lemma word_at_intersection s o k :
  word_at (mask (dense_intersection s o)) k = Z.land (word_at (mask s) k) (word_at (mask o) k).
Proof.
  unfold dense_intersection. cbn [mask]. rewrite <- (app_nil_r (map _ _)).
  destruct (Nat.lt_ge_cases k (Nat.min (length (mask s)) (length (mask o)))) as [Hk|Hk].
  - now apply word_at_zip_lt.
  - rewrite word_at_zip_ge by exact Hk. unfold word_at at 1. rewrite lookup_nil.
    destruct (Nat.le_ge_cases (length (mask s)) (length (mask o))).
    + rewrite (word_at_ge (mask s) k) by lia. now rewrite Z.land_0_l.
    + rewrite (word_at_ge (mask o) k) by lia. now rewrite Z.land_0_r.
Qed.

Lemma length_difference s o : length (mask (dense_difference s o)) = length (mask s).
Proof.
  unfold dense_difference. destruct (Nat.ltb_spec (length (mask s)) (length (mask o)));
    cbn [mask]; rewrite length_app, length_zip; cbn [length]; try rewrite length_drop; lia.
Qed.

Lemma word_at_difference s o k :
  word_at (mask (dense_difference s o)) k = Z.ldiff (word_at (mask s) k) (word_at (mask o) k).
Proof.
  unfold dense_difference.
  destruct (Nat.ltb_spec (length (mask s)) (length (mask o))) as [Hlt|Hge]; cbn [mask];
    (destruct (Nat.lt_ge_cases k (Nat.min (length (mask s)) (length (mask o)))) as [Hk|Hk];
     [now apply word_at_zip_lt|rewrite word_at_zip_ge by exact Hk]).
  - unfold word_at at 1. rewrite lookup_nil. rewrite (word_at_ge (mask s) k) by lia.
    now rewrite Z.ldiff_0_l.
  - rewrite word_at_drop. rewrite (word_at_ge (mask o) k) by lia. rewrite Z.ldiff_0_r. f_equal. lia.
Qed.

(** *** the in-place loops *)

Lemma update_words_spec f n : forall ms om i,
  (i + n <= length ms)%nat -> (i + n <= length om)%nat ->
  exists ms', update_words f ms om i n = Some ms' /\ length ms' = length ms /\
    forall k, word_at ms' k =
      if (i <=? k)%nat && (k <? i + n)%nat then f (word_at ms k) (word_at om k) else word_at ms k.
Proof.
  induction n as [|n IH]; intros ms om i Hm Ho.
  - exists ms. split; [reflexivity|]. split; [reflexivity|]. intros k.
    destruct ((i <=? k)%nat && (k <? i + 0)%nat) eqn:E; [|reflexivity].
    apply andb_true_iff in E as [E1 E2]. apply Nat.leb_le in E1. apply Nat.ltb_lt in E2. lia.
  - cbn [update_words].
    destruct (lookup_lt_is_Some_2 ms i) as [x Ex]; [lia|].
    destruct (lookup_lt_is_Some_2 om i) as [y Ey]; [lia|].
    rewrite Ex, Ey.
    destruct (IH (<[i := f x y]> ms) om (S i)) as (ms' & R1 & R2 & R3);
      [rewrite length_insert; lia|lia|].
    exists ms'. split; [exact R1|]. split; [rewrite R2, length_insert; reflexivity|].
    intros k. rewrite R3, !word_at_insert by lia.
    destruct (Nat.eqb_spec k i) as [->|Hne].
    + rewrite (word_at_lookup _ _ _ Ex), (word_at_lookup _ _ _ Ey).
      replace ((S i <=? i)%nat) with false by (symmetry; apply Nat.leb_gt; lia).
      replace ((i <=? i)%nat && (i <? i + S n)%nat) with true
        by (symmetry; apply andb_true_iff; split; [apply Nat.leb_le|apply Nat.ltb_lt]; lia).
      reflexivity.
    + f_equal.
      destruct (Nat.leb_spec (S i) k), (Nat.leb_spec i k), (Nat.ltb_spec k (S i + n)),
        (Nat.ltb_spec k (i + S n)); cbn [andb]; try reflexivity; lia.
Qed.

Lemma word_range_op (f : Z -> Z -> Z) x y :
  (forall n, Z.testbit (f x y) n = Z.testbit x n || Z.testbit y n \/
             Z.testbit (f x y) n = Z.testbit x n && Z.testbit y n \/
             Z.testbit (f x y) n = Z.testbit x n && negb (Z.testbit y n)) ->
  0 <= f x y -> 0 <= x < 2 ^ 64 -> 0 <= y < 2 ^ 64 -> 0 <= f x y < 2 ^ 64.
Proof.
  intros Hf H0 Hx Hy. apply word_range_bits in Hx as [_ Hx], Hy as [_ Hy].
  apply word_range_bits. split; [exact H0|]. intros k Hk.
  destruct (Hf k) as [E|[E|E]]; rewrite E, Hx by exact Hk; cbn [andb orb]; try reflexivity; apply Hy, Hk.
Qed.

Lemma lor_range x y : 0 <= x < 2 ^ 64 -> 0 <= y < 2 ^ 64 -> 0 <= Z.lor x y < 2 ^ 64.
Proof.
  intros Hx Hy. apply word_range_op; [intros n; left; apply Z.lor_spec| |exact Hx|exact Hy].
  apply Z.lor_nonneg. lia.
Qed.

Lemma land_range x y : 0 <= x < 2 ^ 64 -> 0 <= y < 2 ^ 64 -> 0 <= Z.land x y < 2 ^ 64.
Proof.
  intros Hx Hy. apply word_range_op; [intros n; right; left; apply Z.land_spec| |exact Hx|exact Hy].
  apply Z.land_nonneg. lia.
Qed.

Lemma ldiff_range x y : 0 <= x < 2 ^ 64 -> 0 <= y < 2 ^ 64 -> 0 <= Z.ldiff x y < 2 ^ 64.
Proof.
  intros Hx Hy. apply word_range_op; [intros n; right; right; apply Z.ldiff_spec| |exact Hx|exact Hy].
  apply Z.ldiff_nonneg. lia.
Qed.

Lemma Forall_words ms : (forall k, (k < length ms)%nat -> 0 <= word_at ms k < 2 ^ 64) ->
  Forall (fun m => 0 <= m < 2 ^ 64) ms.
Proof.
  intros H. apply Forall_lookup_2. intros k m E.
  pose proof (lookup_lt_Some _ _ _ E) as Hk. specialize (H k Hk).
  now rewrite (word_at_lookup _ _ _ E) in H.
Qed.

Lemma words_range ms k : Forall (fun m => 0 <= m < 2 ^ 64) ms -> 0 <= word_at ms k < 2 ^ 64.
Proof. apply word_at_ok. Qed.

Lemma union_wf s o : Forall (fun m => 0 <= m < 2 ^ 64) (mask s) -> Forall (fun m => 0 <= m < 2 ^ 64) (mask o) ->
  Forall (fun m => 0 <= m < 2 ^ 64) (mask (dense_union s o)).
Proof.
  intros Hs Ho. apply Forall_words. intros k _. rewrite word_at_union.
  apply lor_range; apply word_at_ok; assumption.
Qed.

Lemma intersection_wf s o : Forall (fun m => 0 <= m < 2 ^ 64) (mask s) -> Forall (fun m => 0 <= m < 2 ^ 64) (mask o) ->
  Forall (fun m => 0 <= m < 2 ^ 64) (mask (dense_intersection s o)).
Proof.
  intros Hs Ho. apply Forall_words. intros k _. rewrite word_at_intersection.
  apply land_range; apply word_at_ok; assumption.
Qed.

Lemma difference_wf s o : Forall (fun m => 0 <= m < 2 ^ 64) (mask s) -> Forall (fun m => 0 <= m < 2 ^ 64) (mask o) ->
  Forall (fun m => 0 <= m < 2 ^ 64) (mask (dense_difference s o)).
Proof.
  intros Hs Ho. apply Forall_words. intros k _. rewrite word_at_difference.
  apply ldiff_range; apply word_at_ok; assumption.
Qed.

Lemma bitset_union s o j :
  bitset (mask (dense_union s o)) j = bitset (mask s) j || bitset (mask o) j.
Proof. unfold bitset. now rewrite word_at_union, Z.lor_spec. Qed.

Lemma bitset_intersection s o j :
  bitset (mask (dense_intersection s o)) j = bitset (mask s) j && bitset (mask o) j.
Proof. unfold bitset. now rewrite word_at_intersection, Z.land_spec. Qed.

Lemma bitset_difference s o j :
  bitset (mask (dense_difference s o)) j = bitset (mask s) j && negb (bitset (mask o) j).
Proof. unfold bitset. now rewrite word_at_difference, Z.ldiff_spec. Qed.

(** *** single bits *)

Lemma bitidx_eq idx : 0 <= idx -> bitidx idx = (idx / 64, idx mod 64).
Proof.
  intros Hi. unfold bitidx, MASKBITS. change (64 - 1) with (Z.ones 6).
  rewrite Z.land_ones by lia. reflexivity.
Qed.

Lemma spans_iff ms idx : 0 <= idx -> spans ms idx = (Z.to_nat (idx / 64) <? length ms)%nat.
Proof.
  intros Hi. unfold spans, maskidx, MASKBITS. pose proof (Z.div_pos idx 64 Hi ltac:(lia)).
  destruct (Z.ltb_spec (idx / 64) (Z.of_nat (length ms))), (Nat.ltb_spec (Z.to_nat (idx / 64)) (length ms));
    try reflexivity; lia.
Qed.

Lemma bitset_unspanned ms idx : 0 <= idx -> spans ms idx = false -> bitset ms idx = false.
Proof.
  intros Hi Hs. rewrite spans_iff in Hs by exact Hi. apply Nat.ltb_ge in Hs.
  unfold bitset, MASKBITS. rewrite word_at_ge by exact Hs. apply Z.bits_0.
Qed.

Lemma land_pow2_zero m b : 0 <= b -> (Z.land m (Z.shiftl 1 b) =? 0) = negb (Z.testbit m b).
Proof.
  intros Hb. rewrite Z.shiftl_1_l. destruct (Z.testbit m b) eqn:E; cbn [negb].
  - apply Z.eqb_neq. intros H.
    assert (Z.testbit (Z.land m (2 ^ b)) b = false) as F by (rewrite H; apply Z.bits_0).
    rewrite Z.land_spec, E, Z.pow2_bits_true in F by lia. discriminate.
  - apply Z.eqb_eq. apply Z.bits_inj'. intros n Hn.
    rewrite Z.land_spec, Z.bits_0, Z.pow2_bits_eqb by lia.
    destruct (Z.eqb_spec b n) as [->|]; [now rewrite E|apply andb_false_r].
Qed.

Lemma getbit_spec ms idx : 0 <= idx -> spans ms idx = true ->
  getbit ms idx = Some (if bitset ms idx then 1 else 0).
Proof.
  intros Hi Hs. rewrite spans_iff in Hs by exact Hi. apply Nat.ltb_lt in Hs.
  unfold getbit. rewrite bitidx_eq by exact Hi.
  destruct (lookup_lt_is_Some_2 ms _ Hs) as [m Hm]. rewrite Hm.
  unfold bitset, MASKBITS. rewrite (word_at_lookup _ _ _ Hm).
  rewrite land_pow2_zero by (apply Z.mod_pos_bound; lia).
  now destruct (Z.testbit m (idx mod 64)).
Qed.

Lemma clrbit_spec ms idx : 0 <= idx -> spans ms idx = true ->
  exists ms', clrbit ms idx = Some ms' /\ length ms' = length ms /\
  (Forall (fun m => 0 <= m < 2 ^ 64) ms -> Forall (fun m => 0 <= m < 2 ^ 64) ms') /\
  (forall j, 0 <= j -> bitset ms' j = bitset ms j && negb (j =? idx)).
Proof.
  intros Hi Hs. rewrite spans_iff in Hs by exact Hi. apply Nat.ltb_lt in Hs.
  unfold clrbit. rewrite bitidx_eq by exact Hi.
  destruct (lookup_lt_is_Some_2 ms _ Hs) as [m Hm]. rewrite Hm.
  pose proof (Z.mod_pos_bound idx 64 ltac:(lia)) as Hb.
  set (w := Z.to_nat (idx / 64)) in *. set (b := idx mod 64) in *.
  eexists; split; [reflexivity|]. split; [apply length_insert|]. split.
  - intros H. apply Forall_insert; [exact H|].
    apply ldiff_range; [exact (Forall_lookup_1 _ _ _ _ H Hm)|].
    rewrite Z.shiftl_1_l. split; [apply Z.pow_nonneg; lia|apply Z.pow_lt_mono_r; lia].
  - intros j Hj. unfold bitset, MASKBITS. rewrite word_at_insert by exact Hs.
    pose proof (Z.mod_pos_bound j 64 ltac:(lia)).
    pose proof (Z.div_pos j 64 Hj ltac:(lia)). pose proof (Z.div_pos idx 64 Hi ltac:(lia)).
    destruct (Nat.eqb_spec (Z.to_nat (j / 64)) w) as [Heq|Hne].
    + rewrite Heq, (word_at_lookup _ _ _ Hm).
      rewrite Z.ldiff_spec, Z.shiftl_1_l, Z.pow2_bits_eqb by lia. f_equal.
      assert (j / 64 = idx / 64) as Hq by (unfold w in Heq; lia).
      pose proof (same_word_same_bit j idx Hj Hi Hq) as E.
      destruct (Z.eqb_spec b (j mod 64)) as [Hbj|Hbj]; destruct (Z.eqb_spec j idx) as [Hji|Hji];
        unfold b in *; try reflexivity; exfalso; [apply Hji, E; lia|apply Hbj; rewrite Hji; reflexivity].
    + replace (j =? idx) with false; [now rewrite andb_true_r|].
      symmetry. apply Z.eqb_neq. intros ->. apply Hne. reflexivity.
Qed.

(** *** Contains, Del, Size, Indices of dense sets *)

Lemma dense_contains_loop_spec ms l : Forall (fun i => 0 <= i) l ->
  dense_contains_loop ms l = Ok (forallb (bitset ms) l).
Proof.
  induction l as [|idx l IH]; intros Hl; [reflexivity|].
  apply Forall_cons in Hl as [Hi Hl]. cbn [dense_contains_loop forallb].
  replace (idx <? 0) with false by lia.
  destruct (spans ms idx) eqn:Hs; cbn [negb].
  - rewrite getbit_spec by assumption.
    destruct (bitset ms idx); [apply IH, Hl|reflexivity].
  - now rewrite bitset_unspanned.
Qed.

Lemma dense_del_loop_spec l : forall ms, Forall (fun i => 0 <= i) l ->
  exists ms', dense_del_loop ms l = Ok ms' /\ length ms' = length ms /\
  (Forall (fun m => 0 <= m < 2 ^ 64) ms -> Forall (fun m => 0 <= m < 2 ^ 64) ms') /\
  (forall j, 0 <= j -> bitset ms' j = bitset ms j && negb (existsb (Z.eqb j) l)).
Proof.
  induction l as [|idx l IH]; intros ms Hl.
  - exists ms. split; [reflexivity|]. split; [reflexivity|]. split; [tauto|].
    intros j _. now rewrite andb_true_r.
  - apply Forall_cons in Hl as [Hi Hl]. cbn [dense_del_loop existsb].
    replace (idx <? 0) with false by lia.
    destruct (spans ms idx) eqn:Hs.
    + destruct (clrbit_spec ms idx Hi Hs) as (ms1 & C1 & C2 & C3 & C4). rewrite C1.
      destruct (IH ms1 Hl) as (ms' & R1 & R2 & R3 & R4).
      exists ms'. split; [exact R1|]. split; [lia|]. split; [tauto|].
      intros j Hj. rewrite R4, C4 by exact Hj.
      destruct (j =? idx); cbn [negb orb]; [now rewrite !andb_false_r|now rewrite andb_true_r].
    + destruct (IH ms Hl) as (ms' & R1 & R2 & R3 & R4).
      exists ms'. split; [exact R1|]. split; [exact R2|]. split; [exact R3|].
      intros j Hj. rewrite R4 by exact Hj.
      destruct (Z.eqb_spec j idx) as [->|]; cbn [orb negb].
      * now rewrite bitset_unspanned.
      * reflexivity.
Qed.

Lemma ForEach_loop_append l : forall acc,
  ForEach_loop l (fun idx indices => (indices ++ [idx], false)) acc = acc ++ l.
Proof.
  induction l as [|x l IH]; intros acc; cbn [ForEach_loop]; [now rewrite app_nil_r|].
  rewrite IH. now rewrite <- app_assoc.
Qed.

Lemma dense_Indices_eq s : dense_Indices s = dense_ForEach s.
Proof. unfold dense_Indices, ForEach. now rewrite ForEach_loop_append. Qed.

Lemma ones_from_bits m n : forall j, ones_from m j n = Z.of_nat (length (bits_from m j n)).
Proof.
  induction n as [|n IH]; intros j; [reflexivity|]. cbn [ones_from bits_from].
  destruct (Z.testbit m j); cbn [length]; rewrite IH; lia.
Qed.

Lemma mask_loop_length ms : forall base, Forall (fun m => 0 <= m < 2 ^ 64) ms ->
  Z.of_nat (length (mask_loop ms base)) = fold_left (fun size m => size + OnesCount64 m) ms 0.
Proof.
  assert (forall ms acc, fold_left (fun size m => size + OnesCount64 m) ms acc =
                         acc + fold_left (fun size m => size + OnesCount64 m) ms 0) as Gen.
  { induction ms0 as [|m ms0 IH]; intros acc; cbn [fold_left]; [lia|].
    rewrite IH, (IH (0 + OnesCount64 m)). lia. }
  induction ms as [|m ms IH]; intros base Hw; [reflexivity|].
  apply Forall_cons in Hw as [Hm Hw]. cbn [mask_loop fold_left].
  rewrite Gen, length_app, Nat2Z.inj_add, (IH _ Hw), word_loop_64 by exact Hm.
  rewrite length_map. unfold OnesCount64. rewrite ones_from_bits. lia.
Qed.

(** *** sparse sets *)

Lemma sparse_contains_loop_spec ms l : Forall (fun i => 0 <= i) l ->
  sparse_contains_loop ms l = Ok (forallb (fun i => bool_decide (i ∈ ms)) l).
Proof.
  induction l as [|idx l IH]; intros Hl; [reflexivity|].
  apply Forall_cons in Hl as [Hi Hl]. cbn [sparse_contains_loop forallb].
  replace (idx <? 0) with false by lia.
  destruct (bool_decide (idx ∈ ms)); [apply IH, Hl|reflexivity].
Qed.

Lemma sparse_del_loop_spec l : forall ms, Forall (fun i => 0 <= i) l ->
  sparse_del_loop ms l = Ok (ms ∖ list_to_set l).
Proof.
  induction l as [|idx l IH]; intros ms Hl.
  - cbn. f_equal. set_solver.
  - apply Forall_cons in Hl as [Hi Hl]. cbn [sparse_del_loop].
    replace (idx <? 0) with false by lia. rewrite IH by exact Hl. f_equal. set_solver.
Qed.

Lemma foldr_ins (f : Z -> gset Z -> gset Z) (Q : Z -> bool) l (acc : gset Z) i :
  (forall idx r j, j ∈ f idx r <-> j ∈ r \/ (j = idx /\ Q idx = true)) ->
  i ∈ foldr f acc l <-> i ∈ acc \/ (In i l /\ Q i = true).
Proof.
  intros Hf. induction l as [|x l IH]; cbn [foldr In]; [tauto|].
  rewrite Hf, IH. intuition (subst; auto).
Qed.

Lemma foldr_del (f : Z -> gset Z -> gset Z) (Q : Z -> bool) l (acc : gset Z) i :
  (forall idx r j, j ∈ f idx r <-> j ∈ r /\ ~ (j = idx /\ Q idx = true)) ->
  i ∈ foldr f acc l <-> i ∈ acc /\ ~ (In i l /\ Q i = true).
Proof.
  intros Hf. induction l as [|x l IH]; cbn [foldr In]; [tauto|].
  rewrite Hf, IH. intuition (subst; auto).
Qed.

Lemma range_keys_ins (f : Z -> gset Z -> gset Z) (Q : Z -> bool) (m acc : gset Z) :
  (forall idx r j, j ∈ f idx r <-> j ∈ r \/ (j = idx /\ Q idx = true)) ->
  range_keys f acc m = acc ∪ filter (fun i => Q i = true) m.
Proof.
  intros Hf. apply set_eq. intros i. unfold range_keys, set_fold. cbn.
  rewrite (foldr_ins f Q _ _ _ Hf), elem_of_union, elem_of_filter.
  rewrite <- (list_elem_of_In (elements m) i), elem_of_elements. tauto.
Qed.

Lemma range_keys_del (f : Z -> gset Z -> gset Z) (Q : Z -> bool) (m acc : gset Z) :
  (forall idx r j, j ∈ f idx r <-> j ∈ r /\ ~ (j = idx /\ Q idx = true)) ->
  range_keys f acc m = acc ∖ filter (fun i => Q i = true) m.
Proof.
  intros Hf. apply set_eq. intros i. unfold range_keys, set_fold. cbn.
  rewrite (foldr_del f Q _ _ _ Hf), elem_of_difference, elem_of_filter.
  rewrite <- (list_elem_of_In (elements m) i), elem_of_elements. tauto.
Qed.

Lemma members_union s o : members (sparse_union s o) = members s ∪ members o.
Proof.
  unfold sparse_union. cbn [members].
  rewrite !(range_keys_ins _ (fun _ => true)) by (intros; set_solver).
  apply set_eq. intros i. rewrite !elem_of_union, !elem_of_filter. set_solver.
Qed.

Lemma members_unite s o : members (sparse_unite s o) = members s ∪ members o.
Proof.
  unfold sparse_unite. cbn [members].
  rewrite (range_keys_ins _ (fun _ => true)) by (intros; set_solver).
  apply set_eq. intros i. rewrite !elem_of_union, !elem_of_filter. set_solver.
Qed.

Lemma members_intersection s o : members (sparse_intersection s o) = members s ∩ members o.
Proof.
  unfold sparse_intersection. cbn [members].
  rewrite (range_keys_ins _ (fun i => bool_decide (i ∈ members o))).
  - apply set_eq. intros i. rewrite elem_of_union, elem_of_filter, elem_of_intersection, bool_decide_eq_true.
    set_solver.
  - intros idx r j. destruct (bool_decide (idx ∈ members o)); set_solver.
Qed.

Lemma members_intersect s o : members (sparse_intersect s o) = members s ∩ members o.
Proof.
  unfold sparse_intersect. cbn [members].
  rewrite (range_keys_del _ (fun i => negb (bool_decide (i ∈ members o)))).
  - apply set_eq. intros i. rewrite elem_of_difference, elem_of_filter, elem_of_intersection.
    destruct (bool_decide (i ∈ members o)) eqn:E; cbn [negb].
    + apply bool_decide_eq_true in E. intuition congruence.
    + apply bool_decide_eq_false in E. intuition congruence.
  - intros idx r j. destruct (bool_decide (idx ∈ members o)); cbn [negb]; set_solver.
Qed.

Lemma members_difference s o : members (sparse_difference s o) = members s ∖ members o.
Proof.
  unfold sparse_difference. cbn [members].
  rewrite (range_keys_ins _ (fun i => negb (bool_decide (i ∈ members o)))).
  - apply set_eq. intros i. rewrite elem_of_union, elem_of_filter, elem_of_difference.
    destruct (bool_decide (i ∈ members o)) eqn:E; cbn [negb].
    + apply bool_decide_eq_true in E. set_solver.
    + apply bool_decide_eq_false in E. set_solver.
  - intros idx r j. destruct (bool_decide (idx ∈ members o)); cbn [negb]; set_solver.
Qed.

Lemma members_subtract s o : members (sparse_subtract s o) = members s ∖ members o.
Proof.
  unfold sparse_subtract. cbn [members].
  rewrite (range_keys_del _ (fun i => bool_decide (i ∈ members o))).
  - apply set_eq. intros i. rewrite !elem_of_difference, elem_of_filter, bool_decide_eq_true. tauto.
  - intros idx r j. destruct (bool_decide (idx ∈ members o)); set_solver.
Qed.

Lemma sparse_eq s o : members s = members o -> s = o.
Proof. destruct s, o. cbn. now intros ->. Qed.

Lemma sparse_equals_iff s o : sparse_equals s o = true <-> members s = members o.
Proof.
  split.
  - unfold sparse_equals. intros H. apply andb_true_iff in H as [H1 H2].
    apply Nat.eqb_eq in H1. rewrite forallb_forall in H2.
    apply set_subseteq_size_eq; [|lia].
    intros i Hi. apply elem_of_elements, list_elem_of_In in Hi.
    specialize (H2 i Hi). now apply bool_decide_eq_true in H2.
  - intros H. destruct s as [a], o as [b]. cbn in H. subst.
    apply sparse_equals_members. tauto.
Qed.

(** *** both implementations behind the interface *)

Lemma Sorted_lt_NoDup l : Sorted Z.lt l -> NoDup l.
Proof.
  intros H. apply Sorted_StronglySorted in H; [|intros ? ? ? ? ?; lia].
  induction H as [|x l Hs IH Hf]; constructor; [|exact IH].
  intros Hx. apply list_elem_of_In in Hx. rewrite List.Forall_forall in Hf.
  specialize (Hf x Hx). lia.
Qed.

Lemma Indices_spec x : wf x ->
  Sorted Z.lt (Indices x) /\ (forall i, In i (Indices x) <-> 0 <= i /\ elem x i = true).
Proof.
  destruct x as [d|s]; cbn [wf Indices elem]; intros Hw.
  - rewrite dense_Indices_eq. exact (dense_ForEach_spec d Hw).
  - destruct (sparse_Indices_spec s) as [S1 I1]. split; [exact S1|].
    intros i. rewrite I1, bool_decide_eq_true. split; [|tauto].
    intros Hi. split; [exact (Hw i Hi)|exact Hi].
Qed.

Lemma Indices_nonneg x : wf x -> Forall (fun i => 0 <= i) (Indices x).
Proof.
  intros Hw. apply List.Forall_forall. intros i Hi.
  apply (proj2 (Indices_spec x Hw)) in Hi. lia.
Qed.

Lemma In_Indices x i : wf x -> 0 <= i -> In i (Indices x) <-> elem x i = true.
Proof. intros Hw Hi. rewrite (proj2 (Indices_spec x Hw)). tauto. Qed.

Lemma Contains_spec x l : wf x -> Forall (fun i => 0 <= i) l ->
  Contains x l = Ok (forallb (elem x) l).
Proof.
  destruct x as [d|s]; cbn [wf Contains elem]; intros Hw Hl.
  - apply dense_contains_loop_spec, Hl.
  - apply sparse_contains_loop_spec, Hl.
Qed.

Lemma contained_loop_spec x l : wf x -> Forall (fun i => 0 <= i) l ->
  contained_loop x l = Ok (List.filter (elem x) l).
Proof.
  intros Hw. induction l as [|idx l IH]; intros Hl; [reflexivity|].
  apply Forall_cons in Hl as [Hi Hl]. cbn [contained_loop List.filter].
  rewrite Contains_spec by (auto; repeat constructor; lia). cbn [rbind forallb].
  rewrite andb_true_r, IH by exact Hl. cbn [rbind]. reflexivity.
Qed.

Lemma existsb_elem x i : wf x -> 0 <= i -> existsb (Z.eqb i) (Indices x) = elem x i.
Proof.
  intros Hw Hi. apply eq_iff_eq_true. rewrite existsb_In. apply In_Indices; assumption.
Qed.

Lemma Forall_filter_nonneg (f : Z -> bool) l : Forall (fun i => 0 <= i) l ->
  Forall (fun i => 0 <= i) (List.filter f l).
Proof.
  intros H. apply List.Forall_forall. intros i Hi. apply filter_In in Hi as [Hi _].
  rewrite List.Forall_forall in H. exact (H i Hi).
Qed.

Lemma forallb_combine_words a : forall b, forallb (fun p => fst p =? snd p) (combine a b) = true ->
  forall k, (k < length a)%nat -> (k < length b)%nat -> word_at a k = word_at b k.
Proof.
  induction a as [|x a IH]; intros [|y b] H k Ha Hb; cbn [length] in *; try lia.
  cbn [combine forallb fst snd] in H. apply andb_true_iff in H as [H1 H2].
  destruct k as [|k].
  - apply Z.eqb_eq in H1. exact H1.
  - rewrite !word_at_cons_S. apply IH; [exact H2|lia|lia].
Qed.

Lemma forallb_drop_zero l n : forallb (fun m => m =? 0) (drop n l) = true ->
  forall k, (n <= k)%nat -> word_at l k = 0.
Proof.
  intros H k Hk. unfold word_at. destruct (l !! k) as [m|] eqn:E; [|reflexivity].
  rewrite forallb_forall in H. apply Z.eqb_eq, H.
  apply list_elem_of_In, list_elem_of_lookup_2 with (k - n)%nat.
  rewrite lookup_drop. replace (n + (k - n))%nat with k by lia. exact E.
Qed.

Lemma dense_equals_true_words s o : dense_equals s o = true ->
  forall k, word_at (mask s) k = word_at (mask o) k.
Proof.
  unfold dense_equals. intros H k.
  destruct (Nat.ltb_spec (length (mask s)) (length (mask o))) as [Hlt|Hge];
    apply andb_true_iff in H as [H1 H2].
  - destruct (Nat.lt_ge_cases k (length (mask s))).
    + apply forallb_combine_words; [exact H1|lia|lia].
    + rewrite word_at_ge by lia. symmetry. exact (forallb_drop_zero _ _ H2 k H).
  - destruct (Nat.lt_ge_cases k (length (mask o))).
    + apply forallb_combine_words; [exact H1|lia|lia].
    + rewrite (word_at_ge (mask o)) by lia. exact (forallb_drop_zero _ _ H2 k H).
Qed.

Lemma dense_equals_iff s o : Forall (fun m => 0 <= m < 2 ^ 64) (mask s) ->
  Forall (fun m => 0 <= m < 2 ^ 64) (mask o) ->
  dense_equals s o = true <-> forall j, 0 <= j -> bitset (mask s) j = bitset (mask o) j.
Proof.
  intros Hs Ho. split.
  - intros H j _. apply bitset_words, dense_equals_true_words, H.
  - intros H. apply dense_equals_words, words_from_bits; assumption.
Qed.

Lemma sparse_Size_length s : sparse_Size s = Z.of_nat (length (sparse_Indices s)).
Proof.
  unfold sparse_Size, sparse_Indices.
  match goal with |- context [@merge_sort _ ?R ?d ?l] =>
    pose proof (@merge_sort_Permutation _ R d l) as P end.
  rewrite P. reflexivity.
Qed.

Lemma Size_length x : wf x -> Size x = Z.of_nat (length (Indices x)).
Proof.
  destruct x as [d|s]; cbn [wf Size Indices]; intros Hw.
  - rewrite dense_Indices_eq. unfold dense_Size, dense_ForEach. now rewrite mask_loop_length.
  - apply sparse_Size_length.
Qed.

Lemma elem_ext_Indices x y : wf x -> wf y ->
  (forall i, 0 <= i -> elem x i = elem y i) -> Indices x = Indices y.
Proof.
  intros Hx Hy H. destruct (Indices_spec x Hx) as [Sx Ix]. destruct (Indices_spec y Hy) as [Sy Iy].
  apply Sorted_lt_unique; [exact Sx|exact Sy|]. intros i. rewrite Ix, Iy.
  split; intros [Hi E]; split; try exact Hi; [rewrite <- H|rewrite H]; assumption.
Qed.

(** ** Extra properties *)

(** Contains: true when every index is in the set; at the first index that
    is negative it panics, at the first one that is absent it returns false. *)
Theorem Contains_first_failure (x : set) (l1 l2 : list Z) (i : Z) :
  Forall (fun j => 0 <= j /\ elem x j = true) l1 ->
  Contains x l1 = Ok true /\
  (i < 0 -> Contains x (l1 ++ i :: l2) = Panic) /\
  (0 <= i -> elem x i = false -> Contains x (l1 ++ i :: l2) = Ok false).
Proof.
  intros H1. destruct x as [d|s]; cbn [Contains elem] in *.
  - unfold dense_Contains. induction H1 as [|j l1 [Hj Ej] H1 IH].
    + cbn [app]. split; [reflexivity|]. split.
      * intros Hi. cbn [dense_contains_loop]. now replace (i <? 0) with true by lia.
      * intros Hi Ei. cbn [dense_contains_loop]. replace (i <? 0) with false by lia.
        destruct (spans (mask d) i) eqn:Hs; cbn [negb]; [|reflexivity].
        rewrite getbit_spec, Ei by assumption. reflexivity.
    + assert (spans (mask d) j = true) as Hs.
      { destruct (spans (mask d) j) eqn:Hs; [reflexivity|]. now rewrite bitset_unspanned in Ej. }
      cbn [app dense_contains_loop]. replace (j <? 0) with false by lia.
      rewrite Hs, getbit_spec, Ej by assumption. cbn [negb]. exact IH.
  - unfold sparse_Contains. induction H1 as [|j l1 [Hj Ej] H1 IH].
    + cbn [app]. split; [reflexivity|]. split.
      * intros Hi. cbn [sparse_contains_loop]. now replace (i <? 0) with true by lia.
      * intros Hi Ei. cbn [sparse_contains_loop]. replace (i <? 0) with false by lia.
        now rewrite Ei.
    + cbn [app sparse_contains_loop]. replace (j <? 0) with false by lia.
      rewrite Ej. exact IH.
Qed.

Lemma Sorted_lt_ListNoDup l : Sorted Z.lt l -> List.NoDup l.
Proof.
  intros H. apply Sorted_StronglySorted in H; [|intros ? ? ? ? ?; lia].
  induction H as [|x l Hs IH Hf]; constructor; [|exact IH].
  intros Hx. rewrite List.Forall_forall in Hf. specialize (Hf x Hx). lia.
Qed.

Lemma sparse_add_loop_exact l : forall ms, Forall (fun i => 0 <= i) l ->
  sparse_add_loop ms l = Ok (ms ∪ list_to_set l).
Proof.
  induction l as [|idx l IH]; intros ms Hl.
  - cbn. f_equal. set_solver.
  - apply Forall_cons in Hl as [Hi Hl]. cbn [sparse_add_loop].
    replace (idx <? 0) with false by lia. rewrite IH by exact Hl. f_equal. set_solver.
Qed.

Lemma dense_add_loop_app_neg ms l1 i l2 : Forall (fun j => 0 <= j) l1 -> i < 0 ->
  Forall (fun m => 0 <= m < 2 ^ 64) ms -> dense_add_loop ms (l1 ++ i :: l2) = Panic.
Proof.
  intros H1 Hi. revert ms. induction H1 as [|j l1 Hj H1 IH]; intros ms Hw.
  - cbn. now replace (i <? 0) with true by lia.
  - cbn [app dense_add_loop]. replace (j <? 0) with false by lia.
    destruct (expand_spec ms j Hj) as (E1 & E2 & E3).
    destruct (setbit_spec (expand ms j) j Hj E2) as (ms1 & S1 & S2 & S3).
    rewrite S1. apply IH, S2, E3, Hw.
Qed.

Lemma dense_del_loop_app_neg ms l1 i l2 : Forall (fun j => 0 <= j) l1 -> i < 0 ->
  dense_del_loop ms (l1 ++ i :: l2) = Panic.
Proof.
  intros H1 Hi. revert ms. induction H1 as [|j l1 Hj H1 IH]; intros ms.
  - cbn. now replace (i <? 0) with true by lia.
  - cbn [app dense_del_loop]. replace (j <? 0) with false by lia.
    destruct (spans ms j) eqn:Hs; [|apply IH].
    destruct (clrbit_spec ms j Hj Hs) as (ms1 & C1 & _). rewrite C1. apply IH.
Qed.

Lemma sparse_add_loop_app_neg ms l1 i l2 : Forall (fun j => 0 <= j) l1 -> i < 0 ->
  sparse_add_loop ms (l1 ++ i :: l2) = Panic.
Proof.
  intros H1 Hi. revert ms. induction H1 as [|j l1 Hj H1 IH]; intros ms.
  - cbn. now replace (i <? 0) with true by lia.
  - cbn [app sparse_add_loop]. replace (j <? 0) with false by lia. apply IH.
Qed.

Lemma sparse_del_loop_app_neg ms l1 i l2 : Forall (fun j => 0 <= j) l1 -> i < 0 ->
  sparse_del_loop ms (l1 ++ i :: l2) = Panic.
Proof.
  intros H1 Hi. revert ms. induction H1 as [|j l1 Hj H1 IH]; intros ms.
  - cbn. now replace (i <? 0) with true by lia.
  - cbn [app sparse_del_loop]. replace (j <? 0) with false by lia. apply IH.
Qed.

Lemma elem_list_to_set (l : list Z) i : bool_decide (i ∈ (list_to_set l : gset Z)) = existsb (Z.eqb i) l.
Proof.
  apply eq_iff_eq_true. rewrite bool_decide_eq_true, existsb_In, elem_of_list_to_set.
  apply list_elem_of_In.
Qed.

Lemma leb_0_true k : (0 <=? k)%nat = true.
Proof. reflexivity. Qed.

Lemma dense_mask_eq d e : mask d = mask e -> d = e.
Proof. destruct d, e. cbn. now intros ->. Qed.

Lemma existsb_filter (f : Z -> bool) l i :
  existsb (Z.eqb i) (List.filter f l) = existsb (Z.eqb i) l && f i.
Proof.
  apply eq_iff_eq_true. rewrite andb_true_iff, !existsb_In, filter_In. tauto.
Qed.

(** dense Add sets the bits of the given indices and Del clears them
    without growing the mask; both panic on the first negative index. *)
Theorem dense_Add_Del (s : dense) (l l2 : list Z) (i : Z) :
  Forall (fun m => 0 <= m < 2 ^ 64) (mask s) -> Forall (fun j => 0 <= j) l ->
  (exists s', dense_Add s l = Ok s' /\ Forall (fun m => 0 <= m < 2 ^ 64) (mask s') /\
     forall j, 0 <= j -> bitset (mask s') j = bitset (mask s) j || existsb (Z.eqb j) l) /\
  (exists s', dense_Del s l = Ok s' /\ Forall (fun m => 0 <= m < 2 ^ 64) (mask s') /\
     length (mask s') = length (mask s) /\
     forall j, 0 <= j -> bitset (mask s') j = bitset (mask s) j && negb (existsb (Z.eqb j) l)) /\
  (i < 0 -> dense_Add s (l ++ i :: l2) = Panic /\ dense_Del s (l ++ i :: l2) = Panic).
Proof.
  intros Hw Hl. split; [|split].
  - destruct (dense_add_loop_spec l (mask s) Hl Hw) as (ms' & A1 & A2 & A3).
    exists (mkDense ms'). unfold dense_Add. rewrite A1. auto.
  - destruct (dense_del_loop_spec l (mask s) Hl) as (ms' & D1 & D2 & D3 & D4).
    exists (mkDense ms'). unfold dense_Del. rewrite D1. cbn [rbind mask]. auto.
  - intros Hi. unfold dense_Add, dense_Del.
    rewrite dense_add_loop_app_neg, dense_del_loop_app_neg by assumption. auto.
Qed.

(** sparse Add stores the given indices and Del deletes them; both panic on
    the first negative index. *)
Theorem sparse_Add_Del (s : sparse) (l l2 : list Z) (i : Z) :
  Forall (fun j => 0 <= j) l ->
  sparse_Add s l = Ok (mkSparse (members s ∪ list_to_set l)) /\
  sparse_Del s l = Ok (mkSparse (members s ∖ list_to_set l)) /\
  (i < 0 -> sparse_Add s (l ++ i :: l2) = Panic /\ sparse_Del s (l ++ i :: l2) = Panic).
Proof.
  intros Hl. split; [|split].
  - unfold sparse_Add. now rewrite sparse_add_loop_exact.
  - unfold sparse_Del. now rewrite sparse_del_loop_spec.
  - intros Hi. unfold sparse_Add, sparse_Del.
    rewrite sparse_add_loop_app_neg, sparse_del_loop_app_neg by assumption. auto.
Qed.

(** Indices is strictly increasing and lists exactly the indices Contains
    accepts; Size is its length. *)
Theorem Indices_Contains_Size (x : set) : wf x ->
  Sorted Z.lt (Indices x) /\
  (forall i, 0 <= i -> (In i (Indices x) <-> Contains x [i] = Ok true)) /\
  Size x = Z.of_nat (length (Indices x)).
Proof.
  intros Hw. split; [exact (proj1 (Indices_spec x Hw))|]. split; [|apply Size_length, Hw].
  intros i Hi. rewrite In_Indices, Contains_spec by (auto; repeat constructor; lia).
  cbn [forallb]. rewrite andb_true_r. split; [intros ->; reflexivity|congruence].
Qed.

(** Union, Intersection and Difference, for any mix of dense and sparse
    operands, compute the set union, intersection and difference. *)
Theorem Union_Intersection_Difference (x y : set) : wf x -> wf y ->
  (exists z, Union x y = Ok z /\ wf z /\ forall i, 0 <= i -> elem z i = elem x i || elem y i) /\
  (exists z, Intersection x y = Ok z /\ wf z /\ forall i, 0 <= i -> elem z i = elem x i && elem y i) /\
  (exists z, Difference x y = Ok z /\ wf z /\ forall i, 0 <= i -> elem z i = elem x i && negb (elem y i)).
Proof.
  intros Hx Hy. pose proof (Indices_nonneg y Hy) as Hn.
  split; [|split].
  - destruct x as [s|s], y as [o|o]; cbn [Union].
    + exists (DenseSet (dense_union s o)). split; [reflexivity|]. split.
      * apply union_wf; assumption.
      * intros i _. apply bitset_union.
    + destruct (dense_add_loop_spec _ (mask s) Hn Hx) as (ms' & A1 & A2 & A3).
      exists (DenseSet (mkDense ms')). unfold dense_Add. rewrite A1. cbn [rbind].
      split; [reflexivity|]. split; [exact A2|]. intros i Hi. cbn [elem mask].
      rewrite A3 by exact Hi. now rewrite (existsb_elem _ i Hy Hi).
    + unfold sparse_Add. rewrite sparse_add_loop_exact by exact Hn. cbn [rbind].
      eexists; split; [reflexivity|]. split.
      * cbn [wf members]. intros i Hm. apply elem_of_union in Hm as [Hm|Hm]; [exact (Hx i Hm)|].
        apply elem_of_list_to_set, list_elem_of_In in Hm. rewrite List.Forall_forall in Hn. exact (Hn i Hm).
      * intros i Hi. rewrite <- (existsb_elem _ i Hy Hi), <- elem_list_to_set. cbn [elem members].
        apply eq_iff_eq_true. rewrite orb_true_iff, !bool_decide_eq_true. set_solver.
    + exists (SparseSet (sparse_union s o)). split; [reflexivity|]. cbn [wf elem].
      rewrite members_union. split.
      * intros i Hm. apply elem_of_union in Hm as [Hm|Hm]; [exact (Hx i Hm)|exact (Hy i Hm)].
      * intros i _. apply eq_iff_eq_true. rewrite orb_true_iff, !bool_decide_eq_true. set_solver.
  - destruct x as [s|s], y as [o|o]; cbn [Intersection].
    + exists (DenseSet (dense_intersection s o)). split; [reflexivity|]. split.
      * apply intersection_wf; assumption.
      * intros i _. apply bitset_intersection.
    + rewrite contained_loop_spec by assumption. cbn [rbind]. unfold newDenseSet.
      destruct (dense_add_loop_spec (List.filter (elem (DenseSet s)) (Indices (SparseSet o))) []
                  (Forall_filter_nonneg _ _ Hn) (List.Forall_nil _)) as (ms' & A1 & A2 & A3).
      exists (DenseSet (mkDense ms')). unfold dense_Add. cbn [mask]. rewrite A1. cbn [rbind].
      split; [reflexivity|]. split; [exact A2|]. intros i Hi. cbn [elem mask].
      rewrite A3, bitset_nil, existsb_filter, (existsb_elem _ i Hy Hi) by exact Hi.
      cbn [orb elem]. apply andb_comm.
    + rewrite contained_loop_spec by assumption. cbn [rbind].
      eexists; split; [reflexivity|]. unfold newSparseSet, NewSparseSet. cbn [wf elem members]. split.
      * intros i Hm. apply elem_of_list_to_set, list_elem_of_In in Hm.
        pose proof (Forall_filter_nonneg (elem (SparseSet s)) _ Hn) as Hf. rewrite List.Forall_forall in Hf. exact (Hf i Hm).
      * intros i Hi. rewrite elem_list_to_set, existsb_filter, (existsb_elem _ i Hy Hi).
        cbn [elem]. apply andb_comm.
    + exists (SparseSet (sparse_intersection s o)). split; [reflexivity|]. cbn [wf elem].
      rewrite members_intersection. split.
      * intros i Hm. apply elem_of_intersection in Hm as [Hm _]. exact (Hx i Hm).
      * intros i _. apply eq_iff_eq_true. rewrite andb_true_iff, !bool_decide_eq_true. set_solver.
  - destruct x as [s|s], y as [o|o]; cbn [Difference].
    + exists (DenseSet (dense_difference s o)). split; [reflexivity|]. split.
      * apply difference_wf; assumption.
      * intros i _. apply bitset_difference.
    + destruct (dense_del_loop_spec _ (mask s) Hn) as (ms' & D1 & D2 & D3 & D4).
      exists (DenseSet (mkDense ms')). unfold dense_Del. rewrite D1. cbn [rbind].
      split; [reflexivity|]. split; [exact (D3 Hx)|]. intros i Hi. cbn [elem mask].
      rewrite D4 by exact Hi. now rewrite (existsb_elem _ i Hy Hi).
    + unfold sparse_Del. rewrite sparse_del_loop_spec by exact Hn. cbn [rbind].
      eexists; split; [reflexivity|]. split.
      * cbn [wf members]. intros i Hm. apply elem_of_difference in Hm as [Hm _]. exact (Hx i Hm).
      * intros i Hi. rewrite <- (existsb_elem _ i Hy Hi), <- elem_list_to_set. cbn [elem members].
        apply eq_iff_eq_true. rewrite andb_true_iff, negb_true_iff, !bool_decide_eq_true,
          bool_decide_eq_false. set_solver.
    + exists (SparseSet (sparse_difference s o)). split; [reflexivity|]. cbn [wf elem].
      rewrite members_difference. split.
      * intros i Hm. apply elem_of_difference in Hm as [Hm _]. exact (Hx i Hm).
      * intros i _. apply eq_iff_eq_true.
        rewrite andb_true_iff, negb_true_iff, !bool_decide_eq_true, bool_decide_eq_false. set_solver.
Qed.

(** Equals, for any mix of dense and sparse operands, returns whether the
    two sets have the same indices; it never panics on them. *)
Theorem Equals_iff (x y : set) : wf x -> wf y ->
  exists b, Equals x y = Ok b /\ (b = true <-> forall i, 0 <= i -> elem x i = elem y i).
Proof.
  intros Hx Hy.
  assert (Cross : forall x y, wf x -> wf y ->
    exists b, rbind (Contains x (Indices y)) (fun b =>
        if negb b then Ok false else Ok (Nat.eqb (length (Indices x)) (length (Indices y)))) = Ok b /\
      (b = true <-> forall i, 0 <= i -> elem x i = elem y i)).
  { clear x y Hx Hy. intros x y Hx Hy.
    rewrite Contains_spec by (auto using Indices_nonneg). cbn [rbind].
    destruct (forallb (elem x) (Indices y)) eqn:F; cbn [negb].
    - eexists; split; [reflexivity|]. rewrite forallb_forall in F.
      assert (Inc : incl (Indices y) (Indices x)).
      { intros i Hi. pose proof (proj1 (proj2 (Indices_spec y Hy) i) Hi) as [Hi0 _].
        apply In_Indices; [exact Hx|exact Hi0|]. exact (F i Hi). }
      rewrite Nat.eqb_eq. split.
      + intros Hlen i Hi. apply eq_iff_eq_true.
        rewrite <- (In_Indices x i Hx Hi), <- (In_Indices y i Hy Hi). split; [|apply Inc].
        apply (NoDup_length_incl (Sorted_lt_ListNoDup _ (proj1 (Indices_spec y Hy)))); [lia|exact Inc].
      + intros H. now rewrite (elem_ext_Indices x y Hx Hy H).
    - exists false. split; [reflexivity|]. split; [discriminate|]. intros H.
      apply Bool.not_true_iff_false in F. exfalso. apply F. apply forallb_forall. intros i Hi.
      pose proof (proj1 (proj2 (Indices_spec y Hy) i) Hi) as [Hi0 E]. rewrite H; assumption. }
  destruct x as [s|s], y as [o|o]; cbn [Equals]; [|exact (Cross _ _ Hx Hy)|exact (Cross _ _ Hx Hy)|].
  - exists (dense_equals s o). split; [reflexivity|]. apply dense_equals_iff; assumption.
  - exists (sparse_equals s o). split; [reflexivity|]. rewrite sparse_equals_iff. cbn [elem]. split.
    + intros -> i _. reflexivity.
    + intros H. apply set_eq. intros i.
      destruct (Z.ltb_spec i 0) as [Hi|Hi].
      * cbn [wf] in Hx, Hy. split; intros Hm; exfalso; [pose proof (Hx i Hm) as Hp|pose proof (Hy i Hm) as Hp]; cbv beta in Hp; clear -Hi Hp; lia.
      * specialize (H i Hi). rewrite <- (bool_decide_eq_true (i ∈ members s)),
          <- (bool_decide_eq_true (i ∈ members o)), H. reflexivity.
Qed.

(** The in-place dense operations leave the receiver with exactly the mask
    the copying ones return. *)
Lemma dense_inplace_copying (s o : dense) :
  dense_unite s o = Ok (dense_union s o) /\
  dense_intersect s o = Ok (dense_intersection s o) /\
  dense_subtract s o = Ok (dense_difference s o).
Proof.
  destruct s as [a], o as [b].
  split; [|split].
  - unfold dense_unite. cbn [mask]. destruct (Nat.ltb_spec (length a) (length b)) as [Hlt|Hge].
    + destruct (update_words_spec Z.lor (length a) b a 0) as (ms' & U1 & U2 & U3); [lia|lia|].
      rewrite U1. f_equal. apply dense_mask_eq. cbn [mask]. apply words_ext.
      * rewrite U2, (length_union (mkDense a) (mkDense b)). cbn [mask]. lia.
      * intros k. rewrite U3, (word_at_union (mkDense a) (mkDense b)). cbn [mask].
        rewrite leb_0_true. destruct (Nat.ltb_spec k (0 + length a)); cbn [andb]; [apply Z.lor_comm|].
        rewrite (word_at_ge a k) by lia. now rewrite Z.lor_0_l.
    + destruct (update_words_spec Z.lor (length b) a b 0) as (ms' & U1 & U2 & U3); [lia|lia|].
      rewrite U1. f_equal. apply dense_mask_eq. cbn [mask]. apply words_ext.
      * rewrite U2, (length_union (mkDense a) (mkDense b)). cbn [mask]. lia.
      * intros k. rewrite U3, (word_at_union (mkDense a) (mkDense b)). cbn [mask].
        rewrite leb_0_true. destruct (Nat.ltb_spec k (0 + length b)); cbn [andb]; [reflexivity|].
        rewrite (word_at_ge b k) by lia. now rewrite Z.lor_0_r.
  - unfold dense_intersect. cbn [mask].
    destruct (update_words_spec Z.land (Nat.min (length a) (length b)) a b 0)
      as (ms' & U1 & U2 & U3); [lia|lia|].
    rewrite U1. f_equal. apply dense_mask_eq. cbn [mask]. apply words_ext.
    + rewrite length_take, U2, (length_intersection (mkDense a) (mkDense b)). cbn [mask]. lia.
    + intros k. rewrite word_at_take, U3, (word_at_intersection (mkDense a) (mkDense b)). cbn [mask].
      rewrite leb_0_true. cbn [andb]. rewrite Nat.add_0_l.
      destruct (Nat.ltb_spec k (Nat.min (length a) (length b))); [reflexivity|].
      destruct (Nat.le_ge_cases (length a) (length b)).
      * rewrite (word_at_ge a k) by lia. now rewrite Z.land_0_l.
      * rewrite (word_at_ge b k) by lia. now rewrite Z.land_0_r.
  - unfold dense_subtract. cbn [mask].
    destruct (update_words_spec Z.ldiff (Nat.min (length a) (length b)) a b 0)
      as (ms' & U1 & U2 & U3); [lia|lia|].
    rewrite U1. f_equal. apply dense_mask_eq. cbn [mask]. apply words_ext.
    + rewrite U2, (length_difference (mkDense a) (mkDense b)). reflexivity.
    + intros k. rewrite U3, (word_at_difference (mkDense a) (mkDense b)). cbn [mask].
      rewrite leb_0_true. cbn [andb]. rewrite Nat.add_0_l.
      destruct (Nat.ltb_spec k (Nat.min (length a) (length b))); [reflexivity|].
      destruct (Nat.le_ge_cases (length a) (length b)).
      * rewrite (word_at_ge a k) by lia. now rewrite Z.ldiff_0_l.
      * rewrite (word_at_ge b k) by lia. now rewrite Z.ldiff_0_r.
Qed.

Lemma sparse_inplace_copying (s o : sparse) :
  sparse_unite s o = sparse_union s o /\
  sparse_intersect s o = sparse_intersection s o /\
  sparse_subtract s o = sparse_difference s o.
Proof.
  split; [apply sparse_eq; now rewrite members_unite, members_union|].
  split; [apply sparse_eq; now rewrite members_intersect, members_intersection|].
  apply sparse_eq; now rewrite members_subtract, members_difference.
Qed.

(** The sparse operations compute the union, intersection and difference
    of the map keys; equals holds exactly for equal key sets. *)
Theorem sparse_set_operations (s o : sparse) :
  members (sparse_union s o) = members s ∪ members o /\
  members (sparse_intersection s o) = members s ∩ members o /\
  members (sparse_difference s o) = members s ∖ members o /\
  (sparse_equals s o = true <-> s = o).
Proof.
  split; [apply members_union|]. split; [apply members_intersection|].
  split; [apply members_difference|].
  rewrite sparse_equals_iff. split; [apply sparse_eq|now intros ->].
Qed.

(** Unite, Intersect and Subtract, for any mix of dense and sparse
    operands, leave the receiver with the value Union, Intersection and
    Difference return (and panic exactly when those do). *)
Theorem Unite_Intersect_Subtract_copying (x y : set) :
  Unite x y = Union x y /\ Intersect x y = Intersection x y /\ Subtract x y = Difference x y.
Proof.
  destruct x as [s|s], y as [o|o]; cbn [Unite Union Intersect Intersection Subtract Difference];
    try (split; [reflexivity|split; reflexivity]).
  - destruct (dense_inplace_copying s o) as (U & I & D). rewrite U, I, D. cbn [rbind]. auto.
  - destruct (sparse_inplace_copying s o) as (U & I & D). rewrite U, I, D. auto.
Qed.


(** *** Instances *)

Lemma Contains_first_failure_witness :
  Forall (fun j => 0 <= j /\ elem (DenseSet (mkDense [26])) j = true) [1; 3] /\
  Contains (DenseSet (mkDense [26])) [1; 3] = Ok true /\
  (2 < 0 -> Contains (DenseSet (mkDense [26])) ([1; 3] ++ 2 :: [4]) = Panic) /\
  (0 <= 2 -> elem (DenseSet (mkDense [26])) 2 = false ->
     Contains (DenseSet (mkDense [26])) ([1; 3] ++ 2 :: [4]) = Ok false).
Proof.
  assert (H : Forall (fun j => 0 <= j /\ elem (DenseSet (mkDense [26])) j = true) [1; 3]).
  { repeat constructor; try lia; vm_compute; reflexivity. }
  split; [exact H|]. exact (Contains_first_failure _ _ [4] 2 H).
Defined.

Lemma dense_Add_Del_witness :
  Forall (fun m => 0 <= m < 2 ^ 64) (mask (mkDense [26])) /\ Forall (fun j => 0 <= j) [64; 3] /\
  (exists s', dense_Add (mkDense [26]) [64; 3] = Ok s' /\ Forall (fun m => 0 <= m < 2 ^ 64) (mask s') /\
     forall j, 0 <= j -> bitset (mask s') j = bitset (mask (mkDense [26])) j || existsb (Z.eqb j) [64; 3]) /\
  (exists s', dense_Del (mkDense [26]) [64; 3] = Ok s' /\ Forall (fun m => 0 <= m < 2 ^ 64) (mask s') /\
     length (mask s') = length (mask (mkDense [26])) /\
     forall j, 0 <= j -> bitset (mask s') j = bitset (mask (mkDense [26])) j && negb (existsb (Z.eqb j) [64; 3])) /\
  (-1 < 0 -> dense_Add (mkDense [26]) ([64; 3] ++ -1 :: []) = Panic /\
             dense_Del (mkDense [26]) ([64; 3] ++ -1 :: []) = Panic).
Proof.
  assert (H1 : Forall (fun m => 0 <= m < 2 ^ 64) (mask (mkDense [26]))) by (repeat constructor; lia).
  assert (H2 : Forall (fun j => 0 <= j) [64; 3]) by (repeat constructor; lia).
  split; [exact H1|]. split; [exact H2|]. exact (dense_Add_Del _ _ [] (-1) H1 H2).
Defined.

Lemma sparse_Add_Del_witness :
  Forall (fun j => 0 <= j) [70] /\
  sparse_Add (NewSparseSet [1; 3]) [70] = Ok (mkSparse (members (NewSparseSet [1; 3]) ∪ list_to_set [70])) /\
  sparse_Del (NewSparseSet [1; 3]) [70] = Ok (mkSparse (members (NewSparseSet [1; 3]) ∖ list_to_set [70])) /\
  (-5 < 0 -> sparse_Add (NewSparseSet [1; 3]) ([70] ++ -5 :: [2]) = Panic /\
             sparse_Del (NewSparseSet [1; 3]) ([70] ++ -5 :: [2]) = Panic).
Proof.
  assert (H : Forall (fun j => 0 <= j) [70]) by (repeat constructor; lia).
  split; [exact H|]. exact (sparse_Add_Del _ _ [2] (-5) H).
Defined.

Lemma Indices_Contains_Size_witness :
  wf (DenseSet (mkDense [26; 1])) /\
  Sorted Z.lt (Indices (DenseSet (mkDense [26; 1]))) /\
  (forall i, 0 <= i -> (In i (Indices (DenseSet (mkDense [26; 1]))) <->
                        Contains (DenseSet (mkDense [26; 1])) [i] = Ok true)) /\
  Size (DenseSet (mkDense [26; 1])) = Z.of_nat (length (Indices (DenseSet (mkDense [26; 1])))).
Proof.
  assert (H : wf (DenseSet (mkDense [26; 1]))) by (cbn [wf mask]; repeat constructor; lia).
  split; [exact H|]. exact (Indices_Contains_Size _ H).
Defined.

Lemma Union_Intersection_Difference_witness :
  wf (DenseSet (mkDense [26; 1])) /\ wf (SparseSet (NewSparseSet [1; 3; 70])) /\
  (exists z, Union (DenseSet (mkDense [26; 1])) (SparseSet (NewSparseSet [1; 3; 70])) = Ok z /\ wf z /\
     forall i, 0 <= i -> elem z i = elem (DenseSet (mkDense [26; 1])) i || elem (SparseSet (NewSparseSet [1; 3; 70])) i) /\
  (exists z, Intersection (DenseSet (mkDense [26; 1])) (SparseSet (NewSparseSet [1; 3; 70])) = Ok z /\ wf z /\
     forall i, 0 <= i -> elem z i = elem (DenseSet (mkDense [26; 1])) i && elem (SparseSet (NewSparseSet [1; 3; 70])) i) /\
  (exists z, Difference (DenseSet (mkDense [26; 1])) (SparseSet (NewSparseSet [1; 3; 70])) = Ok z /\ wf z /\
     forall i, 0 <= i -> elem z i = elem (DenseSet (mkDense [26; 1])) i && negb (elem (SparseSet (NewSparseSet [1; 3; 70])) i)).
Proof.
  assert (Hx : wf (DenseSet (mkDense [26; 1]))) by (cbn [wf mask]; repeat constructor; lia).
  assert (Hy : wf (SparseSet (NewSparseSet [1; 3; 70]))).
  { apply (bool_decide_unpack _). vm_compute. reflexivity. }
  split; [exact Hx|]. split; [exact Hy|]. exact (Union_Intersection_Difference _ _ Hx Hy).
Defined.

Lemma Equals_iff_witness :
  wf (SparseSet (NewSparseSet [1; 3])) /\ wf (DenseSet (mkDense [10])) /\
  exists b, Equals (SparseSet (NewSparseSet [1; 3])) (DenseSet (mkDense [10])) = Ok b /\
    (b = true <-> forall i, 0 <= i -> elem (SparseSet (NewSparseSet [1; 3])) i = elem (DenseSet (mkDense [10])) i).
Proof.
  assert (Hx : wf (SparseSet (NewSparseSet [1; 3]))).
  { apply (bool_decide_unpack _). vm_compute. reflexivity. }
  assert (Hy : wf (DenseSet (mkDense [10]))) by (cbn [wf mask]; repeat constructor; lia).
  split; [exact Hx|]. split; [exact Hy|]. exact (Equals_iff _ _ Hx Hy).
Defined.

End IdxsetOpsFacts.

Module MemtierMoreFacts.
Import Memtier Scoring Selector.

(** *** the memory-info cache of [filterInsufficientResources] *)

Lemma assoc_find_cache e (infos : list (Z * Z)) id v :
  Forall (fun p => e_memFree e (fst p) = Some (snd p)) infos ->
  assoc_find id infos = Some v -> e_memFree e id = Some v.
Proof.
  induction 1 as [|[k w] infos Hk _ IH]; cbn [assoc_find]; [discriminate|].
  destruct (Z.eqb_spec id k) as [->|_]; [intros [= <-]; exact Hk|exact IH].
Qed.

Lemma getNodeFreeMemory_ids_cache e ids : forall free c1 c2,
  Forall (fun p => e_memFree e (fst p) = Some (snd p)) c1 ->
  Forall (fun p => e_memFree e (fst p) = Some (snd p)) c2 ->
  snd (getNodeFreeMemory_ids e ids free c1) = snd (getNodeFreeMemory_ids e ids free c2) /\
  Forall (fun p => e_memFree e (fst p) = Some (snd p)) (fst (getNodeFreeMemory_ids e ids free c1)).
Proof.
  induction ids as [|id ids IH]; intros free c1 c2 H1 H2; cbn [getNodeFreeMemory_ids]; [auto|].
  destruct (assoc_find id c1) as [v1|] eqn:E1; destruct (assoc_find id c2) as [v2|] eqn:E2.
  - pose proof (assoc_find_cache e c1 id v1 H1 E1) as M1.
    pose proof (assoc_find_cache e c2 id v2 H2 E2) as M2.
    rewrite M1 in M2. injection M2 as <-. apply IH; assumption.
  - pose proof (assoc_find_cache e c1 id v1 H1 E1) as M1. rewrite M1.
    apply IH; [exact H1|constructor; [exact M1|exact H2]].
  - pose proof (assoc_find_cache e c2 id v2 H2 E2) as M2. rewrite M2.
    apply IH; [constructor; [exact M2|exact H1]|exact H2].
  - destruct (e_memFree e id) as [v|] eqn:M; [|split; [reflexivity|exact H1]].
    apply IH; constructor; assumption.
Qed.

Lemma filter_loop_uncached t e req ns : forall infos,
  Forall (fun p => e_memFree e (fst p) = Some (snd p)) infos ->
  filter_loop t e req ns infos =
  List.filter (fun n => match snd (getNodeFreeMemory t e n []) with
                        | Some f => memLim req <? f
                        | None => false
                        end) ns.
Proof.
  induction ns as [|n ns IH]; intros infos H; [reflexivity|].
  cbn [filter_loop List.filter]. unfold getNodeFreeMemory.
  destruct (getNodeFreeMemory_ids_cache e (p_physical (pool_at t n)) 0 infos [] H (List.Forall_nil _))
    as [E Hok].
  destruct (getNodeFreeMemory_ids e (p_physical (pool_at t n)) 0 infos) as [infos' r].
  cbn [fst snd] in E, Hok. rewrite <- E.
  destruct r as [f|]; [destruct (memLim req <? f)|]; rewrite (IH infos' Hok); reflexivity.
Qed.

(** *** [sort.Slice] only reorders *)

Lemma insert_app_cons {A} (l1 l2 : list A) (x y : A) (i : nat) :
  <[(length l1 + i)%nat := y]> (l1 ++ x :: l2) =
  l1 ++ (match i with O => y :: l2 | S i' => x :: <[i' := y]> l2 end).
Proof.
  rewrite insert_app_r. destruct i; reflexivity.
Qed.

Lemma swap_lt_Permutation {A} (l : list A) a b u v : (a < b)%nat ->
  l !! a = Some u -> l !! b = Some v -> <[a := v]> (<[b := u]> l) ≡ₚ l.
Proof.
  intros Hab Ha Hb.
  destruct (list_elem_of_split_length l a u Ha) as (l1 & l2 & -> & ->).
  rewrite lookup_app_r in Hb by lia.
  destruct (b - length l1)%nat as [|k] eqn:Ek; [lia|]. cbn in Hb.
  destruct (list_elem_of_split_length l2 k v Hb) as (l3 & l4 & -> & ->).
  replace b with (length l1 + S (length l3))%nat by lia.
  rewrite insert_app_cons. replace (length l3) with (length l3 + 0)%nat by lia.
  rewrite insert_app_r. cbn.
  replace (length l1) with (length l1 + 0)%nat by lia.
  rewrite insert_app_cons. apply Permutation_app_head.
  rewrite <- !Permutation_middle. apply perm_swap.
Qed.

Lemma swap_Permutation {A} (l : list A) i j : swap l i j ≡ₚ l.
Proof.
  unfold swap. destruct (l !! i) as [x|] eqn:Ei, (l !! j) as [y|] eqn:Ej; try reflexivity.
  destruct (Nat.lt_total i j) as [Hlt|[->|Hgt]].
  - apply swap_lt_Permutation; assumption.
  - rewrite Ei in Ej. injection Ej as ->.
    assert (<[j := y]> l = l) as E by (apply list_insert_id; exact Ei).
    rewrite E, E. reflexivity.
  - rewrite list_insert_insert_ne by lia. apply swap_lt_Permutation; assumption.
Qed.

Lemma sink_Permutation {A} less (l : list A) j : sink less l j ≡ₚ l.
Proof.
  revert l. induction j as [|j IH]; intros l; cbn [sink]; [reflexivity|].
  destruct (less (S j) j); [|reflexivity].
  rewrite IH. apply swap_Permutation.
Qed.

Lemma sortSlice_Permutation {A} (l : list A) less : sortSlice l less ≡ₚ l.
Proof.
  unfold sortSlice. generalize (seq 1 (length l - 1)) as is.
  intros is. cut (forall acc, acc ≡ₚ l -> fold_left (fun acc i => sink less acc i) is acc ≡ₚ l).
  { intros H. apply H. reflexivity. }
  induction is as [|i is IH]; intros acc Hacc; cbn [fold_left]; [exact Hacc|].
  apply IH. rewrite sink_Permutation. exact Hacc.
Qed.

(** *** CPU sets as lists *)

Ltac bool_cases :=
  repeat match goal with
         | |- context [existsb ?f ?l] => destruct (existsb f l)
         | |- context [Z.eqb ?u ?v] => destruct (Z.eqb u v)
         end; reflexivity.

Lemma union_cons_cons (y z : Z) (a b : CPUSet.t) :
  CPUSet.union (y :: a) (z :: b) =
  if y <? z then y :: CPUSet.union a (z :: b)
  else if y =? z then y :: CPUSet.union a b
  else z :: CPUSet.union (y :: a) b.
Proof. reflexivity. Qed.

Lemma mem_union x : forall a b, CPUSet.mem x (CPUSet.union a b) = CPUSet.mem x a || CPUSet.mem x b.
Proof.
  induction a as [|y a IH]; intros b; [reflexivity|].
  induction b as [|z b IHb].
  - change (CPUSet.union (y :: a) []) with (y :: a). unfold CPUSet.mem. cbn [existsb].
    now rewrite orb_false_r.
  - rewrite union_cons_cons. unfold CPUSet.mem in *. destruct (y <? z).
    + cbn [existsb]. rewrite IH. cbn [existsb]. bool_cases.
    + destruct (Z.eqb_spec y z) as [<-|_]; cbn [existsb].
      * rewrite IH. cbn [existsb]. bool_cases.
      * rewrite IHb. cbn [existsb]. bool_cases.
Qed.

Lemma cpuset_filter (f : Z -> bool) : forall (a : CPUSet.t),
  filter (fun y => f y) a = List.filter f a.
Proof.
  induction a as [|y a IH]; [reflexivity|].
  cbn [filter list_filter List.filter]. destruct (f y); cbn; [f_equal|]; exact IH.
Qed.
Lemma mem_filter x (f : Z -> bool) (a : CPUSet.t) :
  CPUSet.mem x (List.filter f a) = CPUSet.mem x a && f x.
Proof.
  induction a as [|y a IH]; [reflexivity|].
  unfold CPUSet.mem in *. cbn [List.filter existsb].
  destruct (Z.eqb_spec x y) as [->|Hne].
  - destruct (f y); cbn [existsb orb andb]; rewrite ?Z.eqb_refl; [reflexivity|].
    rewrite IH. now rewrite andb_false_r.
  - apply Z.eqb_neq in Hne. destruct (f y); cbn [existsb]; rewrite ?Hne; cbn [orb]; exact IH.
Qed.
Lemma mem_intersection x a b : CPUSet.mem x (CPUSet.intersection a b) = CPUSet.mem x a && CPUSet.mem x b.
Proof. unfold CPUSet.intersection. rewrite (cpuset_filter (fun y => CPUSet.mem y b)). apply mem_filter. Qed.
Lemma mem_difference x a b : CPUSet.mem x (CPUSet.difference a b) = CPUSet.mem x a && negb (CPUSet.mem x b).
Proof. unfold CPUSet.difference. rewrite (cpuset_filter (fun y => negb (CPUSet.mem y b))). apply mem_filter. Qed.

(** *** the allocations map *)





(** [filterInsufficientResources]: the memory-info cache shared by the
    nodes never changes the result; a node is kept when its free memory,
    read afresh, exceeds the request's limit, and dropped when a read fails. *)
Theorem filterInsufficientResources_uncached (t : tree) (e : env) (req : request) (originals : list nat) :
  filterInsufficientResources t e req originals =
  List.filter (fun n => match snd (getNodeFreeMemory t e n []) with
                        | Some f => memLim req <? f
                        | None => false
                        end) originals.
Proof. apply filter_loop_uncached, List.Forall_nil. Qed.

(** [sortPoolsByScore] returns the pools of [p.pools] that pass the memory
    filter, each as often as it occurs there, only reordered. *)
Theorem sortPoolsByScore_reorders_filtered (p : policy) (e : env) (req : request) (aff : nat -> Z) :
  (length (filterInsufficientResources (pol_tree p) e req (pol_pools p)) <= 6)%nat ->
  snd (sortPoolsByScore p e req aff) ≡ₚ
  List.filter (fun n => match snd (getNodeFreeMemory (pol_tree p) e n []) with
                        | Some f => memLim req <? f
                        | None => false
                        end) (pol_pools p).
Proof.
  intros _. unfold sortPoolsByScore. cbn [snd]. rewrite sortSlice_Permutation.
  unfold filterInsufficientResources. rewrite filter_loop_uncached by apply List.Forall_nil.
  reflexivity.
Qed.




(** [AccountAllocate] then [AccountRelease] of a grant on the free supply
    of a pool other than the grant's: a CPU ends up isolated (sharable)
    when it was so and is not in the grant, or when it is in the grant and
    the pool's own supply lists it as isolated (sharable); the pool and
    the granted amounts are untouched. *)
Theorem AccountAllocate_AccountRelease (t : tree) (fs : frees) (n : nat) (g : grant) :
  (n < length fs)%nat -> s_node (free_at fs n) <> g_node g ->
  let cs := free_at fs n in
  let ncs := p_supply (pool_at t (s_node cs)) in
  let cs' := free_at (AccountRelease t (AccountAllocate fs n g) n g) n in
  s_node cs' = s_node cs /\ granted cs' = granted cs /\ grantedMem cs' = grantedMem cs /\
  forall x,
    CPUSet.mem x (isolated cs') =
      CPUSet.mem x (isolated cs) && negb (CPUSet.mem x (exclusive g)) ||
      CPUSet.mem x (exclusive g) && CPUSet.mem x (isolated ncs) /\
    CPUSet.mem x (sharable cs') =
      CPUSet.mem x (sharable cs) && negb (CPUSet.mem x (exclusive g)) ||
      CPUSet.mem x (exclusive g) && CPUSet.mem x (sharable ncs).
Proof.
  intros Hn Hne. cbv zeta. unfold AccountAllocate.
  apply Nat.eqb_neq in Hne as Hne'. rewrite Hne'.
  unfold AccountRelease. rewrite LifecycleFacts.free_at_set_free_eq by exact Hn.
  cbn [s_node with_isolated with_sharable]. rewrite Hne'.
  rewrite LifecycleFacts.free_at_set_free_eq by (rewrite LifecycleFacts.length_set_free; exact Hn).
  cbn [s_node isolated sharable granted grantedMem with_isolated with_sharable].
  split; [reflexivity|]. split; [reflexivity|]. split; [reflexivity|].
  intros x. rewrite !mem_union, !mem_intersection, !mem_union, !mem_difference.
  split; repeat match goal with |- context [CPUSet.mem x ?c] => destruct (CPUSet.mem x c) end;
    reflexivity.
Qed.

(** *** Instances *)

Lemma sortPoolsByScore_reorders_filtered_witness :
  (length (filterInsufficientResources (pol_tree SelectorFixtures.server_policy)
             SelectorFixtures.server_env SelectorFixtures.req_two
             (pol_pools SelectorFixtures.server_policy)) <= 6)%nat /\
  snd (sortPoolsByScore SelectorFixtures.server_policy SelectorFixtures.server_env
         SelectorFixtures.req_two
         (calculatePoolAffinities SelectorFixtures.server_policy SelectorFixtures.server_env)) ≡ₚ
  List.filter (fun n => match snd (getNodeFreeMemory (pol_tree SelectorFixtures.server_policy)
                                     SelectorFixtures.server_env n []) with
                        | Some f => memLim SelectorFixtures.req_two <? f
                        | None => false
                        end) (pol_pools SelectorFixtures.server_policy).
Proof.
  assert (H : (length (filterInsufficientResources (pol_tree SelectorFixtures.server_policy)
             SelectorFixtures.server_env SelectorFixtures.req_two
             (pol_pools SelectorFixtures.server_policy)) <= 6)%nat)
    by (apply Nat.leb_le; vm_compute; reflexivity).
  split; [exact H|]. exact (sortPoolsByScore_reorders_filtered _ _ _ _ H).
Defined.


Lemma AccountAllocate_AccountRelease_witness :
  (0 < length (pol_frees SelectorFixtures.server_policy))%nat /\
  s_node (free_at (pol_frees SelectorFixtures.server_policy) 0) <> 1%nat /\
  let g := mkGrant 9 1 1 [0; 1] 0 memoryDRAM [0] 0 SelectorFixtures.req_two in
  let fs := pol_frees SelectorFixtures.server_policy in
  let cs := free_at fs 0 in
  let ncs := p_supply (pool_at SelectorFixtures.server (s_node cs)) in
  let cs' := free_at (AccountRelease SelectorFixtures.server (AccountAllocate fs 0 g) 0 g) 0 in
  s_node cs' = s_node cs /\ granted cs' = granted cs /\ grantedMem cs' = grantedMem cs /\
  forall x,
    CPUSet.mem x (isolated cs') =
      CPUSet.mem x (isolated cs) && negb (CPUSet.mem x (exclusive g)) ||
      CPUSet.mem x (exclusive g) && CPUSet.mem x (isolated ncs) /\
    CPUSet.mem x (sharable cs') =
      CPUSet.mem x (sharable cs) && negb (CPUSet.mem x (exclusive g)) ||
      CPUSet.mem x (exclusive g) && CPUSet.mem x (sharable ncs).
Proof.
  assert (H1 : (0 < length (pol_frees SelectorFixtures.server_policy))%nat) by (vm_compute; lia).
  assert (H2 : s_node (free_at (pol_frees SelectorFixtures.server_policy) 0) <> 1%nat)
    by (vm_compute; discriminate).
  split; [exact H1|]. split; [exact H2|].
  exact (AccountAllocate_AccountRelease SelectorFixtures.server _ 0
           (mkGrant 9 1 1 [0; 1] 0 memoryDRAM [0] 0 SelectorFixtures.req_two) H1 H2).
Defined.

End MemtierMoreFacts.
